(** * JS80P: wavetable engine, inaccuracy generator and voice lifecycle

    A shallow embedding of [src/synth/wavetable.cpp] and [src/voice.cpp],
    and of the program names and stored texts of [src/bank.cpp].

    The C++ sources compute on [Number], [Sample], [Frequency] and [Seconds],
    which are typedefs of a floating point type made in a header that is not
    part of the sources at hand.  The embedding is therefore written once,
    over an interface of number operations ([NumberOps]), and it is run on
    two implementations of that interface:

    - [Binary64], IEEE 754 double precision (Rocq's primitive floats), which
      is what the compiled program computes with;
    - [Exact], the rationals, where no operation rounds.

    Statements about control flow hold for every implementation.  Statements
    about magnitudes need arithmetic laws; they are proved for every
    implementation that satisfies [ExactNumber] (operations commute with
    their real counterparts), and [Binary64] is used to observe what rounding
    does to them. *)

From Stdlib Require Import ZArith QArith Qround Qabs Bool List Lia.
From Stdlib Require Import Reals Qreals Lra.
From Stdlib Require Import Floats.
From Stdlib Require Ascii String.
Import ListNotations.

Set Implicit Arguments.
Unset Strict Implicit.
#[local] Set Warnings "-inexact-float".

(** ** Numbers *)

(** [Integer] is a typedef of the same absent header; it is the 32-bit
    [int]: [synth.hpp] has [static constexpr Integer NOTE_ID_MASK =
    0x7fffffff], the largest value of such an integer, and
    [tests/test_lfo.cpp] stores the [int] that [atoi] returns in an
    [Integer].  Its values are the integers from [INTEGER_MIN] to
    [INTEGER_MAX]. *)
Definition INTEGER_MIN : Z := - 2 ^ 31.

Definition INTEGER_MAX : Z := 2 ^ 31 - 1.

(** An integer as an [Integer], if it is a value of the type. *)
Definition Integer_of_Z (z : Z) : option Z :=
  if ((INTEGER_MIN <=? z) && (z <=? INTEGER_MAX))%Z then Some z else None.

(** The operations the sources apply to [Number] values.  The conversion
    [(Integer)x] drops the fractional part of [x]; it is undefined in C++
    when the integer part is not a value of [Integer] (and for an infinity
    or a NaN), which is [None] here.  The sums and differences that the
    sources compute from converted values, table counts and loop counters
    are computed in [Z]. *)
Class NumberOps (N : Type) : Type := {
  nlit : Q -> N;             (* a decimal literal, read in the number type *)
  nofZ : Z -> N;             (* (Number)i *)
  nadd : N -> N -> N;
  nsub : N -> N -> N;
  nmul : N -> N -> N;
  ndiv : N -> N -> N;
  nabs : N -> N;             (* std::fabs *)
  nfloor : N -> N;           (* std::floor *)
  ntrunc : N -> option Z;    (* (Integer)x, where it is defined *)
  nltb : N -> N -> bool;     (* x < y *)
  nleb : N -> N -> bool      (* x <= y *)
}.

Declare Scope num_scope.
Delimit Scope num_scope with num.
Infix "+" := nadd : num_scope.
Infix "-" := nsub : num_scope.
Infix "*" := nmul : num_scope.
Infix "/" := ndiv : num_scope.
Infix "<?" := nltb : num_scope.
Infix "<=?" := nleb : num_scope.
Notation "x >? y" := (nltb y x) (only parsing) : num_scope.
Notation "x >=? y" := (nleb y x) (only parsing) : num_scope.

(** [std::min] and [std::max] of the C++ standard library: both return their
    first argument unless the comparison says otherwise. *)
Definition std_min {N} `{NumberOps N} (a b : N) : N :=
  if (b <? a)%num then b else a.

Definition std_max {N} `{NumberOps N} (a b : N) : N :=
  if (a <? b)%num then b else a.

(** *** Exact arithmetic *)

Module Exact.

Definition ltb (x y : Q) : bool := negb (Qle_bool y x).

(** The integer part of [x]: what is left when the fractional part is
    dropped. *)
Definition integer_part (x : Q) : Z := Z.quot (Qnum x) (Zpos (Qden x)).

(** [(Integer)x] truncates toward zero. *)
Definition trunc (x : Q) : option Z := Integer_of_Z (integer_part x).

#[global] Instance ops : NumberOps Q := {|
  nlit := fun q => q;
  nofZ := inject_Z;
  nadd := Qplus;
  nsub := Qminus;
  nmul := Qmult;
  ndiv := Qdiv;
  nabs := Qabs;
  nfloor := fun x => inject_Z (Qfloor x);
  ntrunc := trunc;
  nltb := ltb;
  nleb := Qle_bool
|}.

End Exact.

(** *** IEEE 754 double precision *)

Module Binary64.

(** [(Number)i] for an [Integer] [i], and integers within 63 bits in
    general. *)
Definition of_Z (z : Z) : float :=
  match z with
  | Z0 => PrimFloat.zero
  | Zpos _ => PrimFloat.of_uint63 (Uint63.of_Z z)
  | Zneg p => PrimFloat.opp (PrimFloat.of_uint63 (Uint63.of_Z (Zpos p)))
  end.

(** The integer [(-1)^s * m * 2^e], rounded down or toward zero. *)
Definition floorZ (s : bool) (m : positive) (e : Z) : Z :=
  let z := if s then Zneg m else Zpos m in
  if (0 <=? e)%Z then Z.shiftl z e else Z.div z (2 ^ (- e)).

Definition truncZ (s : bool) (m : positive) (e : Z) : Z :=
  let z := if s then Zneg m else Zpos m in
  if (0 <=? e)%Z then Z.shiftl z e else Z.quot z (2 ^ (- e)).

(** [std::floor]: integers (every double with a non-negative exponent),
    zeros, infinities and NaN are returned as they are. *)
Definition floor (x : float) : float :=
  match Prim2SF x with
  | S754_finite s m e => if (0 <=? e)%Z then x else of_Z (floorZ s m e)
  | _ => x
  end.

(** [(Integer)x]: the integer part of a finite double, if an [Integer] can
    hold it.  The conversion of a NaN or an infinity is undefined. *)
Definition trunc (x : float) : option Z :=
  match Prim2SF x with
  | S754_zero _ => Some 0%Z
  | S754_finite s m e => Integer_of_Z (truncZ s m e)
  | _ => None
  end.

(** A decimal literal [n / 10^k]: both are doubles, and the division rounds
    to the nearest double, which is the value the compiler gives it. *)
Definition lit (q : Q) : float :=
  PrimFloat.div (of_Z (Qnum q)) (of_Z (Zpos (Qden q))).

(** A zero of either sign, and a double that is neither an infinity nor a
    NaN. *)
Definition is_zero_valued (x : float) : Prop :=
  match Prim2SF x with
  | S754_zero _ => True
  | _ => False
  end.

Definition is_finite_valued (x : float) : Prop :=
  match Prim2SF x with
  | S754_zero _ | S754_finite _ _ _ => True
  | _ => False
  end.

#[global] Instance ops : NumberOps float := {|
  nlit := lit;
  nofZ := of_Z;
  nadd := PrimFloat.add;
  nsub := PrimFloat.sub;
  nmul := PrimFloat.mul;
  ndiv := PrimFloat.div;
  nabs := PrimFloat.abs;
  nfloor := floor;
  ntrunc := trunc;
  nltb := PrimFloat.ltb;
  nleb := PrimFloat.leb
|}.

End Binary64.


(** ** Wavetable engine ([src/synth/wavetable.cpp]) *)

Module Wavetable.

(** Reading [a[i]]: outside the array the C++ read is undefined, which the
    model reports as [None]. *)
Definition at_index {A : Type} (a : list A) (i : Z) : option A :=
  if (i <? 0)%Z then None else nth_error a (Z.to_nat i).

Definition bind {A B : Type} (x : option A) (k : A -> option B) : option B :=
  match x with
  | Some a => k a
  | None => None
  end.

#[local] Notation "x <- e ;; k" := (bind e (fun x => k))
  (at level 61, e at next level, right associativity).

Section Defs.

Context {N : Type} {ops : NumberOps N}.
#[local] Open Scope num_scope.

(** The class constants [SIZE], [MASK], [SIZE_FLOAT], [SIZE_INV] and
    [INTERPOLATION_LIMIT_SCALE] are declared in [wavetable.hpp], and the
    static table [sines] is filled by [Wavetable::initialize] with
    [Math::sin]; neither the header nor [Math] is among the sources, so
    they are taken as parameters. *)
Record Consts : Type := {
  SIZE : Z;
  MASK : Z;
  SIZE_FLOAT : N;
  SIZE_INV : N;
  INTERPOLATION_LIMIT_SCALE : N;
  sines : list N
}.

(** Modelled from the spec: the constants of [wavetable.hpp] for tables of
    [2^bits] samples ("SIZE (power-of-two, e.g. 1024)", "table index
    arithmetic wraps modulo SIZE via bitmask"): [MASK] is [SIZE - 1],
    [SIZE_FLOAT] is [SIZE] as a number and [SIZE_INV] its reciprocal.  The
    table of sines is as its definition leaves it,
    [Number Wavetable::sines[Wavetable::SIZE] = {0.0}]. *)
Definition consts_of_size (bits : Z) (interpolation_limit_scale : N) : Consts :=
  {| SIZE := 2 ^ bits;
     MASK := 2 ^ bits - 1;
     SIZE_FLOAT := nofZ (2 ^ bits);
     SIZE_INV := nlit 1.0 / nofZ (2 ^ bits);
     INTERPOLATION_LIMIT_SCALE := interpolation_limit_scale;
     sines := repeat (nlit 0.0) (Z.to_nat (2 ^ bits)) |}.

Record WavetableState : Type := {
  sample_index : N;
  scale : N;
  nyquist_frequency : N;
  interpolation_limit : N;
  table_indices : Z * Z;
  table_weights : N * N;
  needs_table_interpolation : bool
}.

Record Wavetable : Type := {
  partials : Z;
  samples : list (list N)
}.

Definition set_sample_index (state : WavetableState) (v : N) :=
  {| sample_index := v;
     scale := scale state;
     nyquist_frequency := nyquist_frequency state;
     interpolation_limit := interpolation_limit state;
     table_indices := table_indices state;
     table_weights := table_weights state;
     needs_table_interpolation := needs_table_interpolation state |}.

Definition set_table_indices (state : WavetableState) (v : Z * Z) :=
  {| sample_index := sample_index state;
     scale := scale state;
     nyquist_frequency := nyquist_frequency state;
     interpolation_limit := interpolation_limit state;
     table_indices := v;
     table_weights := table_weights state;
     needs_table_interpolation := needs_table_interpolation state |}.

Definition set_table_weights (state : WavetableState) (v : N * N) :=
  {| sample_index := sample_index state;
     scale := scale state;
     nyquist_frequency := nyquist_frequency state;
     interpolation_limit := interpolation_limit state;
     table_indices := table_indices state;
     table_weights := v;
     needs_table_interpolation := needs_table_interpolation state |}.

Definition set_needs_table_interpolation (state : WavetableState) (v : bool) :=
  {| sample_index := sample_index state;
     scale := scale state;
     nyquist_frequency := nyquist_frequency state;
     interpolation_limit := interpolation_limit state;
     table_indices := table_indices state;
     table_weights := table_weights state;
     needs_table_interpolation := v |}.

Variable c : Consts.

(** [Wavetable::reset_state] *)
Definition reset_state (state : WavetableState)
    (sampling_period nyquist frequency start_time_offset : N) : WavetableState :=
  {| sample_index := SIZE_FLOAT c * start_time_offset * frequency;
     scale := SIZE_FLOAT c * sampling_period;
     nyquist_frequency := nyquist;
     interpolation_limit := nyquist * INTERPOLATION_LIMIT_SCALE c;
     table_indices := table_indices state;
     table_weights := table_weights state;
     needs_table_interpolation := needs_table_interpolation state |}.

(** *** Building the tables *)

(** [sines[k & MASK]] *)
Definition sine (k : Z) : N :=
  nth (Z.to_nat (Z.land k (MASK c))) (sines c) (nlit 0).

(** The values of [j] in [for (Integer j = 0; j != SIZE; ++j)]. *)
Definition sample_positions : list Z :=
  map Z.of_nat (seq 0 (Z.to_nat (SIZE c))).

(** [Wavetable::initialize] fills the table of sines:
    [sines[j] = Math::sin(((Number)j * SIZE_INV) * Math::PI_DOUBLE)].
    [Math::sin] and [Math::PI_DOUBLE] belong to the absent [Math]. *)
Definition initialize (Math_sin : N -> N) (PI_DOUBLE : N) : Consts :=
  {| SIZE := SIZE c;
     MASK := MASK c;
     SIZE_FLOAT := SIZE_FLOAT c;
     SIZE_INV := SIZE_INV c;
     INTERPOLATION_LIMIT_SCALE := INTERPOLATION_LIMIT_SCALE c;
     sines := map (fun j => Math_sin (nofZ j * SIZE_INV c * PI_DOUBLE))
                  sample_positions |}.

(** [samples[0][j] = coefficients[0] * sines[(j * frequency) & MASK]] *)
Definition first_table (coefficient : N) (frequency : Z) : list N :=
  map (fun j => coefficient * sine (j * frequency)) sample_positions.

(** [samples[i][j] = samples[i - 1][j]
                     + coefficients[i] * sines[(j * frequency) & MASK]] *)
Definition next_table (previous : list N) (coefficient : N) (frequency : Z) : list N :=
  map (fun jp => snd jp + coefficient * sine (fst jp * frequency))
      (combine sample_positions previous).

(** The loop over [i = 1 .. partials - 1]; [frequency] is incremented
    before each table is filled. *)
Fixpoint more_tables (previous : list N) (frequency : Z) (coefficients : list N)
    : list (list N) :=
  match coefficients with
  | [] => []
  | ci :: rest =>
      let frequency := (frequency + 1)%Z in
      let table := next_table previous ci frequency in
      table :: more_tables table frequency rest
  end.

Definition tables (coefficients : list N) : list (list N) :=
  match coefficients with
  | [] => []
  | c0 :: rest =>
      let table := first_table c0 1 in
      table :: more_tables table 1 rest
  end.

(** [sample = std::fabs(...); if (normalize && sample > max) max = sample;] *)
Definition track_max (normalize : bool) (max stored : N) : N :=
  let sample := nabs stored in
  if normalize && (sample >? max) then sample else max.

(** The value of [max] after both filling loops: the samples are visited
    table by table, each in increasing [j]. *)
Definition peak (normalize : bool) (ts : list (list N)) : N :=
  fold_left (fun max table => fold_left (track_max normalize) table max)
            ts (nlit 0.0).

(** [Wavetable::update_coefficients].  The tables are recomputed from the
    first [partials] coefficients; the array must hold that many, and
    [samples[0]] must exist. *)
Definition update_coefficients (wt : Wavetable) (coefficients : list N)
    (normalize : bool) : option Wavetable :=
  if (partials wt <? 1)%Z then None
  else if (Z.of_nat (length coefficients) <? partials wt)%Z then None
  else
    let ts := tables (firstn (Z.to_nat (partials wt)) coefficients) in
    let max := peak normalize ts in
    Some {| partials := partials wt;
            samples := if normalize
                       then map (map (fun sample => sample / max)) ts
                       else ts |}.

(** The constructor [Wavetable::Wavetable(coefficients, coefficients_length)]:
    [partials] is the length and the freshly allocated tables are filled
    by [update_coefficients(coefficients, true)]. *)
Definition make (coefficients : list N) : option Wavetable :=
  update_coefficients
    {| partials := Z.of_nat (length coefficients); samples := [] |}
    coefficients true.

(** *** Lookup *)

(** [Wavetable::wrap_around] *)
Definition wrap_around (index : N) : N :=
  index - nfloor (index * SIZE_INV c) * SIZE_FLOAT c.

Variable wt : Wavetable.

(** [samples[i][j]] *)
Definition sample_at (i j : Z) : option N :=
  table <- at_index (samples wt) i ;; at_index table j.

(** [Wavetable::interpolate_sample_linear] *)
Definition interpolate_sample_linear (state : WavetableState) (sample_index : N)
    : option N :=
  let sample_2_weight := sample_index - nfloor sample_index in
  let sample_1_weight := nlit 1.0 - sample_2_weight in
  sample_1_index <- ntrunc sample_index ;;
  let sample_2_index := Z.land (sample_1_index + 1) (MASK c) in
  let table_1 := fst (table_indices state) in
  if negb (needs_table_interpolation state) then
    f_1_1 <- sample_at table_1 sample_1_index ;;
    f_1_2 <- sample_at table_1 sample_2_index ;;
    Some (sample_1_weight * f_1_1 + sample_2_weight * f_1_2)
  else
    let table_2 := snd (table_indices state) in
    f_1_1 <- sample_at table_1 sample_1_index ;;
    f_1_2 <- sample_at table_1 sample_2_index ;;
    f_2_1 <- sample_at table_2 sample_1_index ;;
    f_2_2 <- sample_at table_2 sample_2_index ;;
    Some (fst (table_weights state)
            * (sample_1_weight * f_1_1 + sample_2_weight * f_1_2)
          + snd (table_weights state)
            * (sample_1_weight * f_2_1 + sample_2_weight * f_2_2)).

(** [Wavetable::interpolate_sample_lagrange] *)
Definition interpolate_sample_lagrange (state : WavetableState) (sample_index : N)
    : option N :=
  sample_1_index <- ntrunc sample_index ;;
  let sample_2_index := Z.land (sample_1_index + 1) (MASK c) in
  let sample_3_index := Z.land (sample_2_index + 1) (MASK c) in
  let table_1 := fst (table_indices state) in
  f_1_1 <- sample_at table_1 sample_1_index ;;
  f_1_2 <- sample_at table_1 sample_2_index ;;
  f_1_3 <- sample_at table_1 sample_3_index ;;
  let t := sample_index - nfloor sample_index in
  let t_sqr := t * t in
  let a_1 := nlit 0.5 * (t_sqr - t) in
  let a_2 := nlit 1.0 - t_sqr in
  let a_3 := nlit 0.5 * (t_sqr + t) in
  if negb (needs_table_interpolation state) then
    Some (a_1 * f_1_1 + a_2 * f_1_2 + a_3 * f_1_3)
  else
    let table_2 := snd (table_indices state) in
    f_2_1 <- sample_at table_2 sample_1_index ;;
    f_2_2 <- sample_at table_2 sample_2_index ;;
    f_2_3 <- sample_at table_2 sample_3_index ;;
    Some (fst (table_weights state) * (a_1 * f_1_1 + a_2 * f_1_2 + a_3 * f_1_3)
          + snd (table_weights state) * (a_1 * f_2_1 + a_2 * f_2_2 + a_3 * f_2_3)).

(** [Wavetable::interpolate] *)
Definition interpolate (state : WavetableState) (frequency sample_index : N)
    : option N :=
  if frequency >=? interpolation_limit state
  then interpolate_sample_linear state sample_index
  else interpolate_sample_lagrange state sample_index.

(** [Wavetable::lookup]: the sample and the state that [*state] holds
    on return.  Where the conversion [(Integer)max_partials] is undefined,
    no sample is returned, and the state is the one written until then. *)
Definition lookup (state : WavetableState) (frequency : N)
    : option N * WavetableState :=
  let abs_frequency := nabs frequency in
  if abs_frequency <? nlit 0.0000001 then (Some (nlit 1.0), state)
  else if abs_frequency >? nyquist_frequency state then (Some (nlit 0.0), state)
  else
    let sample_index := sample_index state in
    let state :=
      set_sample_index state
        (wrap_around (sample_index + scale state * frequency)) in
    let partials := partials wt in
    if (partials =? 1)%Z then
      let state := set_needs_table_interpolation state false in
      let state := set_table_indices state (0%Z, snd (table_indices state)) in
      (interpolate state abs_frequency sample_index, state)
    else
      let max_partials := nyquist_frequency state / abs_frequency in
      match ntrunc max_partials with
      | None => (None, state)
      | Some converted =>
          let more_partials_index := Z.max 0 (Z.min partials converted - 1) in
          let fewer_partials_index := Z.max 0 (more_partials_index - 1) in
          let state :=
            set_table_indices state
              (fewer_partials_index, snd (table_indices state)) in
          if (more_partials_index =? fewer_partials_index)%Z then
            let state := set_needs_table_interpolation state false in
            (interpolate state abs_frequency sample_index, state)
          else
            let state := set_needs_table_interpolation state true in
            let state :=
              set_table_indices state
                (fst (table_indices state), more_partials_index) in
            let fewer_partials_weight := max_partials - nfloor max_partials in
            let more_partials_weight := nlit 1.0 - fewer_partials_weight in
            let state :=
              set_table_weights state
                (fewer_partials_weight, more_partials_weight) in
            (interpolate state abs_frequency sample_index, state)
      end.

(** *** The table selection, for the statements about [lookup] *)

(** [max_partials = nyquist_frequency / abs_frequency] *)
Definition max_partials (state : WavetableState) (frequency : N) : N :=
  nyquist_frequency state / nabs frequency.



(** *** The two interpolations, for the statement about their order

    These definitions are not translations of the sources: they say, in the
    words of the specification, what [lookup] is to return, and the
    statement about the interpolation order compares [lookup] with them. *)






End Defs.

End Wavetable.

(** ** Inaccuracy generator ([src/voice.cpp], class [Inaccuracy]) *)

Module Inaccuracy.

Section Defs.

Context {N : Type} {ops : NumberOps N}.
#[local] Open Scope num_scope.

(** [Math::randomize(level, number)] is defined in [dsp/math.cpp], which
    is not among the sources: it is a parameter. *)
Variable randomize : N -> N -> N.

Record Inaccuracy : Type := {
  seed : N;
  inaccuracy : N;
  last_update_round : Z
}.

(** [Inaccuracy::calculate_new_inaccuracy] *)
Definition calculate_new_inaccuracy (seed : N) : N :=
  nlit 0.1 + nlit 0.9 * randomize (nlit 1.0) seed.

(** The constructor [Inaccuracy::Inaccuracy(seed)]. *)
Definition make (seed : N) : Inaccuracy :=
  {| seed := seed; inaccuracy := seed; last_update_round := -1 |}.

(** [Inaccuracy::get_inaccuracy] *)
Definition get_inaccuracy (i : Inaccuracy) : N := inaccuracy i.

(** [Inaccuracy::update] *)
Definition update (i : Inaccuracy) (round : Z) : Inaccuracy :=
  if negb (last_update_round i =? round)%Z then
    {| seed := seed i;
       inaccuracy := calculate_new_inaccuracy (inaccuracy i);
       last_update_round := round |}
  else i.

(** [Inaccuracy::reset] *)
Definition reset (i : Inaccuracy) : Inaccuracy :=
  {| seed := seed i;
     inaccuracy := seed i;
     last_update_round := last_update_round i |}.

(** A sequence of [update] calls, in order. *)
Definition updates (i : Inaccuracy) (rounds : list Z) : Inaccuracy :=
  fold_left update rounds i.

End Defs.

End Inaccuracy.

(** ** Voice ([src/voice.cpp], class template [Voice]) *)

Module Voice.

Import Wavetable (at_index, bind).

#[local] Notation "x <- e ;; k" := (bind e (fun x => k))
  (at level 61, e at next level, right associativity).

Inductive State : Type := ON | OFF.

Definition State_eqb (a b : State) : bool :=
  match a, b with
  | ON, ON | OFF, OFF => true
  | _, _ => false
  end.

(** The parameters and sub-objects of a voice that the lifecycle methods
    schedule events on. *)
Inductive Param : Type :=
| note_velocity
| note_panning
| panning
| volume
| wavefolder_folding
| distortion_level
| oscillator_modulated_amplitude
| oscillator_amplitude
| oscillator_subharmonic_amplitude
| oscillator_frequency
| oscillator_phase
| oscillator_fine_detune
| filter_1_frequency
| filter_1_q
| filter_1_gain
| filter_2_frequency
| filter_2_q
| filter_2_gain.

Section Defs.

Context {N : Type} {ops : NumberOps N}.
#[local] Open Scope num_scope.

(** The classes of the parameters and of the oscillator are not among the
    sources.  What a lifecycle method does to them is recorded as the
    sequence of calls it makes, in program order. *)
Inductive Call : Type :=
| cancel_events_at (p : Param) (time_offset : N)
| cancel_events (p : Param)
| schedule_value (p : Param) (time_offset value : N)
| schedule_linear_ramp (p : Param) (duration value : N)
| start_envelope (p : Param) (time_offset : N)
| update_envelope (p : Param) (time_offset : N)
| end_envelope (p : Param) (time_offset : N)
| cancel_envelope (p : Param) (time_offset duration : N)
| oscillator_cancel_events_at (time_offset : N)
| oscillator_cancel_events
| oscillator_start (time_offset : N)
| oscillator_stop (time_offset : N)
| signal_producer_reset.

(** The [Tuning] enumerators that [voice.cpp] names; their values are
    given in a header that is not among the sources. *)
Record Tunings : Type := {
  TUNING_440HZ_12TET_INACCURATE_1 : Z;
  TUNING_440HZ_12TET_INACCURATE_2_SYNCED : Z;
  TUNING_440HZ_12TET_INACCURATE_3 : Z;
  TUNING_440HZ_12TET_INACCURATE_4 : Z;
  TUNING_440HZ_12TET_INACCURATE_5_SYNCED : Z;
  TUNING_440HZ_12TET_INACCURATE_6 : Z;
  TUNING_432HZ_12TET_INACCURATE_1 : Z;
  TUNING_432HZ_12TET_INACCURATE_2_SYNCED : Z;
  TUNING_432HZ_12TET_INACCURATE_3 : Z;
  TUNING_432HZ_12TET_INACCURATE_4 : Z;
  TUNING_432HZ_12TET_INACCURATE_5_SYNCED : Z;
  TUNING_432HZ_12TET_INACCURATE_6 : Z;
  TUNING_MTS_ESP_NOTE_ON : Z
}.

(** What a voice reads from its surroundings: constants and functions of
    absent headers ([Midi::NOTES], [Math::...], [Constants::...]), the
    template argument (modulator or carrier), the current values of the
    parameter leaders, the frequency tables, and the number of seconds
    each [end_envelope] call returns. *)
Record Env : Type := {
  NOTES : Z;
  NOTE_PANNING_SCALE : N;
  DETUNE_SCALE : N;
  SMOOTH_NOTE_CANCELLATION_DURATION : N;
  PI_QUARTER : N;
  Math_randomize : N -> N -> N;
  Math_detune : N -> N -> N;
  Math_is_abs_small : N -> N -> bool;
  Math_sin : N -> N;
  Math_cos : N -> N;
  tunings : Tunings;
  IS_MODULATOR : bool;
  sampling_period : N;
  param_tuning : Z;
  param_velocity_sensitivity : N;
  param_portamento_length : N;
  param_portamento_depth : N;
  param_detune : N;
  param_width : N;
  frequencies : Z -> Z -> N;
  per_channel_frequencies : Z -> Z -> N;
  end_envelope_result : Param -> N -> N
}.

Definition IS_CARRIER (e : Env) : bool := negb (IS_MODULATOR e).

(** The lifecycle fields of a voice, the private inaccuracy value, the
    shared [synced_inaccuracy] object it refers to, the calls made so far
    on its sub-objects, and what [initialize_rendering] leaves for
    [render] (a buffer pointer is [None] when it is [NULL]). *)
Record Voice : Type := {
  state : State;
  note_id : Z;
  note : Z;
  channel : Z;
  inaccuracy_seed : N;
  inaccuracy : N;
  synced_inaccuracy : Inaccuracy.Inaccuracy (N:=N);
  calls : list Call;
  volume_applier_buffer : list N;
  panning_buffer : option (list N);
  panning_value : N;
  note_panning_buffer : option (list N);
  note_panning_value : N
}.

Definition with_lifecycle (v : Voice) (s : State) (id nt ch : Z) (inacc : N)
    (sy : Inaccuracy.Inaccuracy) (cs : list Call) : Voice :=
  {| state := s;
     note_id := id;
     note := nt;
     channel := ch;
     inaccuracy_seed := inaccuracy_seed v;
     inaccuracy := inacc;
     synced_inaccuracy := sy;
     calls := cs;
     volume_applier_buffer := volume_applier_buffer v;
     panning_buffer := panning_buffer v;
     panning_value := panning_value v;
     note_panning_buffer := note_panning_buffer v;
     note_panning_value := note_panning_value v |}.

Definition set_state (v : Voice) (s : State) : Voice :=
  with_lifecycle v s (note_id v) (note v) (channel v) (inaccuracy v)
    (synced_inaccuracy v) (calls v).

(** One or more calls on sub-objects, appended in program order. *)
Definition call (v : Voice) (cs : list Call) : Voice :=
  with_lifecycle v (state v) (note_id v) (note v) (channel v) (inaccuracy v)
    (synced_inaccuracy v) (calls v ++ cs).

Variable e : Env.

(** [Voice::get_note_id], [get_note], [get_channel], [get_inaccuracy] *)
Definition get_note_id (v : Voice) : Z := note_id v.

Definition get_note (v : Voice) : Z := note v.

Definition get_channel (v : Voice) : Z := channel v.

Definition get_inaccuracy (v : Voice) : N := inaccuracy v.

(** [Voice::reset] *)
Definition reset (v : Voice) : Voice :=
  with_lifecycle v OFF 0 0 0 (inaccuracy_seed v)
    (Inaccuracy.reset (synced_inaccuracy v))
    (calls v ++ [signal_producer_reset]).

(** [Voice::is_released] *)
Definition is_released (v : Voice) : bool := State_eqb (state v) OFF.

(** [Voice::save_note_info] *)
Definition save_note_info (v : Voice) (note_id note channel : Z) : Voice :=
  with_lifecycle v (state v) note_id note channel (inaccuracy v)
    (synced_inaccuracy v) (calls v).

(** [Voice::update_inaccuracy] *)
Definition update_inaccuracy (v : Voice) : Voice :=
  with_lifecycle v (state v) (note_id v) (note v) (channel v)
    (Inaccuracy.calculate_new_inaccuracy (Math_randomize e) (inaccuracy v))
    (synced_inaccuracy v) (calls v).

(** [Voice::calculate_note_velocity] *)
Definition calculate_note_velocity (raw_velocity : N) : N :=
  let sensitivity := param_velocity_sensitivity e in
  if sensitivity <=? nlit 1.0 then
    nlit 1.0 - sensitivity + sensitivity * raw_velocity
  else
    let oversensitivity := sensitivity - nlit 1.0 in
    let velocity_sqr := raw_velocity * raw_velocity in
    raw_velocity + oversensitivity * (velocity_sqr * velocity_sqr - raw_velocity).

(** [Voice::calculate_note_panning] *)
Definition calculate_note_panning (note : Z) : N :=
  std_min (nlit 1.0)
    (std_max (nlit (-1.0))
       (NOTE_PANNING_SCALE e * (nofZ note + param_detune e * DETUNE_SCALE e)
        - nlit 1.0))
  * param_width e.

(** [Voice::calculate_inaccurate_note_frequency] *)
Definition calculate_inaccurate_note_frequency (v : Voice) (tuning note channel : Z)
    : N :=
  let frequency := frequencies e tuning note in
  let t := tunings e in
  let either a b := ((tuning =? a t) || (tuning =? b t))%Z in
  let synced := Inaccuracy.get_inaccuracy (synced_inaccuracy v) in
  if either TUNING_440HZ_12TET_INACCURATE_1 TUNING_432HZ_12TET_INACCURATE_1 then
    Math_detune e frequency (nlit 1.5 * inaccuracy v - nlit 0.3)
  else if either TUNING_440HZ_12TET_INACCURATE_2_SYNCED
             TUNING_432HZ_12TET_INACCURATE_2_SYNCED then
    Math_detune e frequency (nlit 3.0 * synced - nlit 0.6)
  else if either TUNING_440HZ_12TET_INACCURATE_3 TUNING_432HZ_12TET_INACCURATE_3 then
    Math_detune e frequency (nlit 9.0 * inaccuracy v - nlit 3.5)
  else if either TUNING_440HZ_12TET_INACCURATE_4 TUNING_432HZ_12TET_INACCURATE_4 then
    Math_detune e frequency (nlit 3.0 * inaccuracy v - nlit 0.6)
  else if either TUNING_440HZ_12TET_INACCURATE_5_SYNCED
             TUNING_432HZ_12TET_INACCURATE_5_SYNCED then
    Math_detune e frequency (nofZ 20 * synced - nlit 8.0)
  else if either TUNING_440HZ_12TET_INACCURATE_6 TUNING_432HZ_12TET_INACCURATE_6 then
    Math_detune e frequency (nlit 30.0 * inaccuracy v - nlit 14.0)
  else frequency.

(** [Voice::calculate_note_frequency] *)
Definition calculate_note_frequency (v : Voice) (note channel : Z) : N :=
  let tuning := param_tuning e in
  if (TUNING_MTS_ESP_NOTE_ON (tunings e) <=? tuning)%Z
  then per_channel_frequencies e channel note
  else calculate_inaccurate_note_frequency v tuning note channel.

(** [Voice::set_up_oscillator_frequency] *)
Definition set_up_oscillator_frequency (v : Voice) (time_offset : N)
    (note channel previous_note : Z) : Voice :=
  let portamento_length := param_portamento_length e in
  let note_frequency := calculate_note_frequency v note channel in
  let v := call v [cancel_events_at oscillator_frequency time_offset] in
  if portamento_length <=? sampling_period e then
    call v [schedule_value oscillator_frequency time_offset note_frequency]
  else
    let portamento_depth := param_portamento_depth e in
    let start_frequency :=
      if Math_is_abs_small e portamento_depth (nlit 0.01)
      then calculate_note_frequency v previous_note channel
      else Math_detune e note_frequency portamento_depth in
    call v [schedule_value oscillator_frequency time_offset start_frequency;
            schedule_linear_ramp oscillator_frequency portamento_length
              note_frequency].

(** The calls of an [if constexpr] block, made only in one instantiation. *)
Definition when (b : bool) (cs : list Call) : list Call :=
  if b then cs else [].

(** [Voice::note_on] *)
Definition note_on (v : Voice) (time_offset : N) (note_id note channel : Z)
    (velocity : N) (previous_note : Z) : Voice :=
  if State_eqb (state v) ON || (NOTES e <=? note)%Z then v
  else
    let v := set_state v ON in
    let v := save_note_info v note_id note channel in
    let v := update_inaccuracy v in
    let v :=
      call v
        ([cancel_events_at note_velocity time_offset;
          schedule_value note_velocity time_offset
            (calculate_note_velocity velocity);
          cancel_events_at note_panning time_offset;
          schedule_value note_panning time_offset (calculate_note_panning note);
          oscillator_cancel_events_at time_offset;
          start_envelope wavefolder_folding time_offset]
         ++ when (IS_CARRIER e) [start_envelope distortion_level time_offset]
         ++ [start_envelope panning time_offset;
             start_envelope volume time_offset]) in
    let v := set_up_oscillator_frequency v time_offset note channel previous_note in
    call v
      ([start_envelope oscillator_modulated_amplitude time_offset;
        start_envelope oscillator_amplitude time_offset]
       ++ when (IS_MODULATOR e)
            [start_envelope oscillator_subharmonic_amplitude time_offset]
       ++ [start_envelope oscillator_frequency time_offset;
           start_envelope oscillator_phase time_offset;
           start_envelope oscillator_fine_detune time_offset;
           start_envelope filter_1_frequency time_offset;
           start_envelope filter_1_q time_offset;
           start_envelope filter_1_gain time_offset;
           start_envelope filter_2_frequency time_offset;
           start_envelope filter_2_q time_offset;
           start_envelope filter_2_gain time_offset;
           oscillator_start time_offset]).

(** [Voice::cancel_note_smoothly] *)
Definition cancel_note_smoothly (v : Voice) (time_offset : N) : Voice :=
  let d := SMOOTH_NOTE_CANCELLATION_DURATION e in
  let v := set_state v OFF in
  call v
    ([cancel_envelope wavefolder_folding time_offset d]
     ++ when (IS_CARRIER e) [cancel_envelope distortion_level time_offset d]
     ++ [cancel_envelope panning time_offset d;
         cancel_envelope volume time_offset d;
         cancel_envelope oscillator_modulated_amplitude time_offset d;
         cancel_envelope oscillator_amplitude time_offset d]
     ++ when (IS_MODULATOR e)
          [cancel_envelope oscillator_subharmonic_amplitude time_offset d]
     ++ [cancel_envelope oscillator_frequency time_offset d;
         cancel_envelope oscillator_phase time_offset d;
         oscillator_stop (time_offset + d);
         cancel_envelope oscillator_fine_detune time_offset d;
         cancel_envelope filter_1_frequency time_offset d;
         cancel_envelope filter_1_q time_offset d;
         cancel_envelope filter_1_gain time_offset d;
         cancel_envelope filter_2_frequency time_offset d;
         cancel_envelope filter_2_q time_offset d;
         cancel_envelope filter_2_gain time_offset d]).

(** [Voice::retrigger] *)
Definition retrigger (v : Voice) (time_offset : N) (note_id note channel : Z)
    (velocity : N) (previous_note : Z) : Voice :=
  if (NOTES e <=? note)%Z then v
  else
    let v := cancel_note_smoothly v time_offset in
    note_on v (time_offset + SMOOTH_NOTE_CANCELLATION_DURATION e)
      note_id note channel velocity previous_note.

(** [Voice::note_off].  [off_after] adds to [time_offset] the largest of
    the durations that the [end_envelope] calls on the amplitude bearing
    parameters return. *)
Definition note_off (v : Voice) (time_offset : N) (note_id note : Z) (velocity : N)
    : Voice :=
  if negb (State_eqb (state v) ON)
     || negb (note_id =? get_note_id v)%Z
     || negb (note =? get_note v)%Z
  then v
  else
    let v :=
      call v [end_envelope oscillator_modulated_amplitude time_offset;
              end_envelope oscillator_frequency time_offset;
              end_envelope oscillator_phase time_offset] in
    let amplitude_end := end_envelope_result e oscillator_amplitude time_offset in
    let subharmonic_end :=
      end_envelope_result e oscillator_subharmonic_amplitude time_offset in
    let volume_end := end_envelope_result e volume time_offset in
    let off_after :=
      if IS_MODULATOR e
      then time_offset + std_max (std_max amplitude_end subharmonic_end) volume_end
      else time_offset + std_max amplitude_end volume_end in
    let v :=
      call v
        ([end_envelope oscillator_amplitude time_offset]
         ++ when (IS_MODULATOR e)
              [end_envelope oscillator_subharmonic_amplitude time_offset]
         ++ [end_envelope volume time_offset;
             oscillator_cancel_events_at off_after;
             oscillator_stop off_after]) in
    let v := set_state v OFF in
    call v
      ([end_envelope wavefolder_folding time_offset]
       ++ when (IS_CARRIER e) [end_envelope distortion_level time_offset]
       ++ [end_envelope panning time_offset;
           end_envelope oscillator_fine_detune time_offset;
           end_envelope filter_1_frequency time_offset;
           end_envelope filter_1_q time_offset;
           end_envelope filter_1_gain time_offset;
           end_envelope filter_2_frequency time_offset;
           end_envelope filter_2_q time_offset;
           end_envelope filter_2_gain time_offset]).

(** [Voice::cancel_note] *)
Definition cancel_note (v : Voice) : Voice :=
  if negb (State_eqb (state v) ON) then v
  else
    let v := save_note_info v 0 0 0 in
    let v := set_state v OFF in
    call v
      ([cancel_events oscillator_amplitude]
       ++ when (IS_MODULATOR e) [cancel_events oscillator_subharmonic_amplitude]
       ++ [cancel_events volume;
           oscillator_cancel_events;
           oscillator_stop (nlit 0.0);
           cancel_events wavefolder_folding]
       ++ when (IS_CARRIER e) [cancel_events distortion_level]
       ++ [cancel_events panning;
           cancel_events oscillator_modulated_amplitude;
           cancel_events oscillator_frequency;
           cancel_events oscillator_phase;
           cancel_events oscillator_fine_detune;
           cancel_events filter_1_frequency;
           cancel_events filter_1_q;
           cancel_events filter_1_gain;
           cancel_events filter_2_frequency;
           cancel_events filter_2_q;
           cancel_events filter_2_gain]).

(** [Voice::glide_to] *)
Definition glide_to (v : Voice) (time_offset : N) (note_id note channel : Z)
    (velocity : N) (previous_note : Z) : Voice :=
  if (NOTES e <=? note)%Z then v
  else
    let portamento_length := param_portamento_length e in
    if portamento_length <=? nlit 0.000001 then
      retrigger v time_offset note_id note channel velocity previous_note
    else
      let v := save_note_info v note_id note channel in
      let v := update_inaccuracy v in
      let v :=
        call v
          ([update_envelope wavefolder_folding time_offset]
           ++ when (IS_CARRIER e) [update_envelope distortion_level time_offset]
           ++ [update_envelope panning time_offset;
               update_envelope volume time_offset;
               update_envelope oscillator_modulated_amplitude time_offset;
               update_envelope oscillator_amplitude time_offset]
           ++ when (IS_MODULATOR e)
                [update_envelope oscillator_subharmonic_amplitude time_offset]
           ++ [update_envelope oscillator_frequency time_offset;
               update_envelope oscillator_phase time_offset;
               update_envelope oscillator_fine_detune time_offset;
               update_envelope filter_1_frequency time_offset;
               update_envelope filter_1_q time_offset;
               update_envelope filter_1_gain time_offset;
               update_envelope filter_2_frequency time_offset;
               update_envelope filter_2_q time_offset;
               update_envelope filter_2_gain time_offset;
               cancel_events_at note_velocity time_offset;
               cancel_events_at note_panning time_offset;
               cancel_events_at oscillator_frequency time_offset;
               schedule_linear_ramp note_velocity portamento_length
                 (calculate_note_velocity velocity);
               schedule_linear_ramp note_panning portamento_length
                 (calculate_note_panning note)]) in
      let f := calculate_note_frequency v note channel in
      call v [schedule_linear_ramp oscillator_frequency portamento_length f].

(** *** Rendering *)

(** [a[i] = value], for [i] inside the array. *)
Fixpoint set_nth {A : Type} (a : list A) (i : nat) (value : A) : list A :=
  match a, i with
  | [], _ => []
  | _ :: rest, O => value :: rest
  | x :: rest, S i => x :: set_nth rest i value
  end.

(** [buffer[ch][i] = value]; a write outside the arrays is undefined. *)
Definition store (buffer : list (list N)) (ch i : Z) (value : N)
    : option (list (list N)) :=
  samples <- at_index buffer ch ;;
  _ <- at_index samples i ;;
  Some (set_nth buffer (Z.to_nat ch) (set_nth samples (Z.to_nat i) value)).

(** [count] rounds of a loop body, [i] counting up from its first value. *)
Fixpoint iterate {S : Type} (body : Z -> S -> option S) (i : Z) (count : nat) (s : S)
    : option S :=
  match count with
  | O => Some s
  | Datatypes.S count => s <- body i s ;; iterate body (i + 1) count s
  end.

(** [for (Integer i = first; i != last; ++i) body]; the loop is only
    meaningful when [first <= last]. *)
Definition for_loop {S : Type} (first last : Z) (body : Z -> S -> option S) (s : S)
    : option S :=
  if (last <? first)%Z then None else iterate body first (Z.to_nat (last - first)) s.

(** Modelled from the spec: [Math::sincos(x, sin, cos)] of the absent
    [dsp/math.hpp] stores the sine of [x] in its second argument and the
    cosine in its third ("gain_L = cos(x), gain_R = sin(x)"). *)
Definition Math_sincos (x : N) : N * N := (Math_sin e x, Math_cos e x).

(** The block that each of the four branches of [render] runs on the sum of
    the two panning inputs:
    [panning = std::min(1.0, std::max(sum, -1.0));
     x = (panning + 1.0) * Math::PI_QUARTER;
     Math::sincos(x, right_gain, left_gain);]
    The result is [(left_gain, right_gain)]. *)
Definition gains (sum : N) : N * N :=
  let panning := std_min (nlit 1.0) (std_max sum (nlit (-1.0))) in
  let x := (panning + nlit 1.0) * PI_QUARTER e in
  let '(right_gain, left_gain) := Math_sincos x in
  (left_gain, right_gain).

(** [buffer[0][i] = left_gain * volume_applier_buffer[i];
     buffer[1][i] = right_gain * volume_applier_buffer[i];] *)
Definition write_stereo (v : Voice) (left_right : N * N) (i : Z)
    (buffer : list (list N)) : option (list (list N)) :=
  let '(left_gain, right_gain) := left_right in
  mono <- at_index (volume_applier_buffer v) i ;;
  buffer <- store buffer 0 i (left_gain * mono) ;;
  store buffer 1 i (right_gain * mono).

(** [Voice::render] *)
Definition render (v : Voice) (round first_sample_index last_sample_index : Z)
    (buffer : list (list N)) : option (list (list N)) :=
  match note_panning_buffer v with
  | None =>
      match panning_buffer v with
      | None =>
          let left_right := gains (panning_value v + note_panning_value v) in
          for_loop first_sample_index last_sample_index
            (fun i buffer => write_stereo v left_right i buffer) buffer
      | Some panning_buffer =>
          for_loop first_sample_index last_sample_index
            (fun i buffer =>
               p <- at_index panning_buffer i ;;
               write_stereo v (gains (p + note_panning_value v)) i buffer)
            buffer
      end
  | Some note_panning_buffer =>
      match panning_buffer v with
      | None =>
          for_loop first_sample_index last_sample_index
            (fun i buffer =>
               np <- at_index note_panning_buffer i ;;
               write_stereo v (gains (panning_value v + np)) i buffer)
            buffer
      | Some panning_buffer =>
          for_loop first_sample_index last_sample_index
            (fun i buffer =>
               p <- at_index panning_buffer i ;;
               np <- at_index note_panning_buffer i ;;
               write_stereo v (gains (p + np)) i buffer)
            buffer
      end
  end.

(** *** The four branches of [render], for the proofs about it *)

(** A panning input at the sample [i]: its constant value, or the sample of
    its buffer. *)
Definition panning_input (buffer : option (list N)) (value : N) (i : Z) : option N :=
  match buffer with
  | None => Some value
  | Some samples => at_index samples i
  end.

(** The local [panning] of the block in [gains], and its [x]. *)
Definition panning_of (sum : N) : N :=
  std_min (nlit 1.0) (std_max sum (nlit (-1.0))).

Definition x_of (sum : N) : N :=
  (panning_of sum + nlit 1.0) * PI_QUARTER e.

(** The two samples that the loop body stores at [i], left and right. *)
Definition stored_sample (v : Voice) (i : Z) : option (N * N) :=
  p <- panning_input (panning_buffer v) (panning_value v) i ;;
  np <- panning_input (note_panning_buffer v) (note_panning_value v) i ;;
  mono <- at_index (volume_applier_buffer v) i ;;
  Some (Math_cos e (x_of (p + np)) * mono,
        Math_sin e (x_of (p + np)) * mono).

(** One loop body for the four branches of [render]: each branch is this
    body with the constant inputs already read. *)
Definition pan_body (v : Voice) (i : Z) (buffer : list (list N))
    : option (list (list N)) :=
  p <- panning_input (panning_buffer v) (panning_value v) i ;;
  np <- panning_input (note_panning_buffer v) (note_panning_value v) i ;;
  write_stereo v (gains (p + np)) i buffer.

(** *** The pan law, for the statement about [render] *)

(** After the spec's words, "gain_L = cos(x), gain_R = sin(x)" with [x]
    the pan position plus one, times a quarter of pi: the left and the
    right sample of the equal-power pan law for the pan position [pan] and
    the mono sample. *)
Definition equal_power (pan mono : N) : N * N :=
  let x := (pan + nlit 1.0) * PI_QUARTER e in
  (Math_cos e x * mono, Math_sin e x * mono).

End Defs.

End Voice.

(** ** Concrete inputs *)

(** Inputs on which the definitions above are run: in exact arithmetic,
    tables of four samples, where the sines are rational; in double
    precision, tables of 1024 samples, with a polynomial in the place of
    [Math::sin]. *)
Module Inputs.

Import Wavetable.

Definition exact_consts : Consts (N:=Q) :=
  {| SIZE := 4;
     MASK := 3;
     SIZE_FLOAT := 4;
     SIZE_INV := 0.25;
     INTERPOLATION_LIMIT_SCALE := 0.125;
     sines := [0; 1; 0; -1]%Q |}.

Definition exact_blank_state : WavetableState (N:=Q) :=
  {| sample_index := 0%Q;
     scale := 0%Q;
     nyquist_frequency := 0%Q;
     interpolation_limit := 0%Q;
     table_indices := (0, 0)%Z;
     table_weights := (0, 0)%Q;
     needs_table_interpolation := false |}.

(** A sampling period of 0.01 s: the Nyquist frequency is 50 Hz. *)
Definition exact_state : WavetableState (N:=Q) :=
  reset_state exact_consts exact_blank_state 0.01 50 1 0.


(** What a constructor call leaves: the object is only used when the
    construction is defined. *)
Definition built {N : Type} (w : option (Wavetable (N:=N))) : Wavetable (N:=N) :=
  match w with
  | Some wt => wt
  | None => {| partials := 0; samples := [] |}
  end.

(** Three partials with equal coefficients; the tables are
    [0 1 0 -1], [0 1 0 -1] and [0 0 0 0]. *)
Definition exact_wavetable : Wavetable (N:=Q) :=
  built (make exact_consts [1; 1; 1]%Q).

(** The Taylor polynomial of the sine of degree 27, for arguments in
    [0, 2 pi). *)
Definition binary64_sin (x : float) : float :=
  let x := if (3.141592653589793 <? x)%float
           then (x - 6.283185307179586)%float else x in
  let x2 := (x * x)%float in
  let step (k : Z) (acc : float) : float :=
    (1 - x2 / Binary64.of_Z ((2 * k) * (2 * k + 1)) * acc)%float in
  (x * fold_right step 1%float (map Z.of_nat (seq 1 13)))%float.

Definition binary64_consts : Consts (N:=float) :=
  initialize (consts_of_size 10 (Binary64.lit 0.125)) binary64_sin
    6.283185307179586%float.

Definition binary64_blank_state : WavetableState (N:=float) :=
  {| sample_index := 0%float;
     scale := 0%float;
     nyquist_frequency := 0%float;
     interpolation_limit := 0%float;
     table_indices := (0, 0)%Z;
     table_weights := (0, 0)%float;
     needs_table_interpolation := false |}.

Definition binary64_state (nyquist : float) : WavetableState (N:=float) :=
  reset_state binary64_consts binary64_blank_state (1 / 44100)%float nyquist
    440%float 0%float.

(** The sine wavetable of [StandardWavetables], [Wavetable(sine_coefficients, 1)]
    with [sine_coefficients = {1.0}]. *)
Definition binary64_sine : Wavetable (N:=float) :=
  built (make binary64_consts [1%float]).


(** The 44.1 kHz state above, with a Nyquist frequency of 22050 Hz. *)
Definition binary64_cd_state : WavetableState (N:=float) :=
  binary64_state 22050%float.

(** A stand-in for [Math::randomize] in exact arithmetic: the fractional
    part of a multiple of the seed, moved into [0.25, 0.75). *)
Definition exact_randomize (level number : Q) : Q :=
  let mixed := number * 7919 + level in
  0.25 + 0.5 * (mixed - inject_Z (Qfloor mixed)).

(** Surroundings of a voice in exact arithmetic.  The functions of the
    absent [Math] are replaced by rational stand-ins (a linear detune, the
    first terms of the sine and cosine series); the values of the tuning
    enumerators are 1 to 13. *)
Definition exact_tunings : Voice.Tunings :=
  {| Voice.TUNING_440HZ_12TET_INACCURATE_1 := 1;
     Voice.TUNING_440HZ_12TET_INACCURATE_2_SYNCED := 2;
     Voice.TUNING_440HZ_12TET_INACCURATE_3 := 3;
     Voice.TUNING_440HZ_12TET_INACCURATE_4 := 4;
     Voice.TUNING_440HZ_12TET_INACCURATE_5_SYNCED := 5;
     Voice.TUNING_440HZ_12TET_INACCURATE_6 := 6;
     Voice.TUNING_432HZ_12TET_INACCURATE_1 := 7;
     Voice.TUNING_432HZ_12TET_INACCURATE_2_SYNCED := 8;
     Voice.TUNING_432HZ_12TET_INACCURATE_3 := 9;
     Voice.TUNING_432HZ_12TET_INACCURATE_4 := 10;
     Voice.TUNING_432HZ_12TET_INACCURATE_5_SYNCED := 11;
     Voice.TUNING_432HZ_12TET_INACCURATE_6 := 12;
     Voice.TUNING_MTS_ESP_NOTE_ON := 13 |}.

Definition exact_env : Voice.Env (N:=Q) :=
  {| Voice.NOTES := 128;
     Voice.NOTE_PANNING_SCALE := 2 / 127;
     Voice.DETUNE_SCALE := 0.01;
     Voice.SMOOTH_NOTE_CANCELLATION_DURATION := 0.01;
     Voice.PI_QUARTER := 0.785398;
     Voice.Math_randomize := exact_randomize;
     Voice.Math_detune := fun frequency cents => frequency * (1 + cents / 1731);
     Voice.Math_is_abs_small := fun x threshold => Exact.ltb (Qabs x) threshold;
     Voice.Math_sin := fun x => x - x * x * x / 6;
     Voice.Math_cos := fun x => 1 - x * x / 2;
     Voice.tunings := exact_tunings;
     Voice.IS_MODULATOR := false;
     Voice.sampling_period := 0.01;
     Voice.param_tuning := 0;
     Voice.param_velocity_sensitivity := 1;
     Voice.param_portamento_length := 0;
     Voice.param_portamento_depth := 0;
     Voice.param_detune := 0;
     Voice.param_width := 0.2;
     Voice.frequencies := fun tuning note => inject_Z (note + 1) * 5;
     Voice.per_channel_frequencies := fun channel note => inject_Z (note + 1) * 5;
     Voice.end_envelope_result := fun p time_offset => 0.1 |}.

(** A voice as its constructor and [reset] leave it, with what a call of
    [initialize_rendering] for a block of four samples may have left: a
    constant panning of 0.25 and a note panning that moves during the
    block. *)
Definition exact_voice : Voice.Voice (N:=Q) :=
  {| Voice.state := Voice.OFF;
     Voice.note_id := 0;
     Voice.note := 0;
     Voice.channel := 0;
     Voice.inaccuracy_seed := 0.5;
     Voice.inaccuracy := 0.5;
     Voice.synced_inaccuracy := Inaccuracy.make 0.3;
     Voice.calls := [];
     Voice.volume_applier_buffer := [1; 0.5; -0.5; -1];
     Voice.panning_buffer := None;
     Voice.panning_value := 0.25;
     Voice.note_panning_buffer := Some [0; 0.5; 1; -2];
     Voice.note_panning_value := 0 |}.

(** The same voice while it plays the note 60 with the identifier 1. *)
Definition exact_voice_on : Voice.Voice (N:=Q) :=
  Voice.note_on exact_env exact_voice 0 1 60 0 1 60.


End Inputs.

(** ** Laws of arithmetic *)

(** An order in which [x < y] entails [x <= y] and excludes [y <= x].  IEEE
    comparisons are such an order, NaN included. *)
Class CoherentOrder (N : Type) {ops : NumberOps N} : Prop := {
  ltb_leb : forall x y : N, (x <? y)%num = true -> (x <=? y)%num = true;
  ltb_not_geb : forall x y : N, (x <? y)%num = true -> (y <=? x)%num = false
}.

Arguments CoherentOrder N {ops}.

(** Arithmetic without rounding: every number stands for a real, and every
    operation is the operation on reals.  Nothing is said of a division by
    zero. *)
Class ExactNumber (N : Type) {ops : NumberOps N} : Type := {
  val : N -> R;
  val_lit : forall q : Q, val (nlit q) = Q2R q;
  val_ofZ : forall z : Z, val (nofZ z) = IZR z;
  val_add : forall x y : N, val (x + y)%num = (val x + val y)%R;
  val_sub : forall x y : N, val (x - y)%num = (val x - val y)%R;
  val_mul : forall x y : N, val (x * y)%num = (val x * val y)%R;
  val_div : forall x y : N, val y <> 0%R -> val (x / y)%num = (val x / val y)%R;
  val_abs : forall x : N, val (nabs x) = Rabs (val x);
  val_floor : forall x : N,
    exists z : Z, val (nfloor x) = IZR z /\ (IZR z <= val x < IZR z + 1)%R;
  val_ltb : forall x y : N, (x <? y)%num = true <-> (val x < val y)%R;
  val_leb : forall x y : N, (x <=? y)%num = true <-> (val x <= val y)%R
}.

Arguments ExactNumber N {ops}.

(** The conversion [(Integer)x] without rounding: it is defined for the
    numbers whose integer part is an [Integer], and drops the fractional
    part. *)
Class ExactTruncation (N : Type) {ops : NumberOps N} {E : ExactNumber N} : Prop := {
  val_trunc_defined : forall x : N,
    (IZR INTEGER_MIN - 1 < val x < IZR INTEGER_MAX + 1)%R ->
    exists i : Z, ntrunc x = Some i;
  val_trunc_Integer : forall (x : N) (i : Z),
    ntrunc x = Some i -> (INTEGER_MIN <= i <= INTEGER_MAX)%Z;
  val_trunc_nonneg : forall (x : N) (i : Z),
    ntrunc x = Some i -> (0 <= val x)%R -> (IZR i <= val x < IZR i + 1)%R;
  val_trunc_nonpos : forall (x : N) (i : Z),
    ntrunc x = Some i -> (val x <= 0)%R -> (IZR i - 1 < val x <= IZR i)%R
}.

Arguments ExactTruncation N {ops E}.

(** *** The interpolation polynomial *)




(** *** The clamped pan position *)

(** After the spec's words, "pan clamped to [-1,1]": the nearest number
    of that interval. *)
Definition clamped_pan (sum : R) : R := Rmax (-1) (Rmin 1 sum).

(** *** Bounds of the inaccuracy, in exact arithmetic *)

Section InaccuracyBounds.

Context {N : Type} {ops : NumberOps N} {E : ExactNumber N}.

(** The value lies between 0.1 and 1.0, exclusive or inclusive. *)
Definition within (strict : bool) (x : N) : Prop :=
  if strict then (0.1 < val x < 1)%R else (0.1 <= val x <= 1)%R.

(** [randomize] only returns values of the unit range, open or closed. *)
Definition unit_range (randomize : N -> N -> N) (strict : bool) : Prop :=
  forall level x : N,
    if strict then (0 < val (randomize level x) < 1)%R
    else (0 <= val (randomize level x) <= 1)%R.

End InaccuracyBounds.

(** *** The rationals are exact *)

Lemma Q2R_inject_Z (z : Z) : Q2R (inject_Z z) = IZR z.
Proof. unfold Q2R; simpl. lra. Qed.

Lemma Q2R_Qabs (x : Q) : Q2R (Qabs x) = Rabs (Q2R x).
Proof.
  apply Qabs_case; intros Hx; apply Qle_Rle in Hx; rewrite ?Q2R_opp.
  - rewrite Rabs_pos_eq; [reflexivity | unfold Q2R in Hx at 1; simpl in Hx; lra].
  - rewrite Rabs_left1; [reflexivity | unfold Q2R in Hx at 2; simpl in Hx; lra].
Qed.

Lemma Q2R_floor (x : Q) :
  exists z : Z, Q2R (inject_Z (Qfloor x)) = IZR z /\ (IZR z <= Q2R x < IZR z + 1)%R.
Proof.
  exists (Qfloor x). rewrite Q2R_inject_Z. repeat split.
  - rewrite <- Q2R_inject_Z. apply Qle_Rle, Qfloor_le.
  - rewrite <- (plus_IZR _ 1), <- Q2R_inject_Z. apply Qlt_Rlt, Qlt_floor.
Qed.

Lemma Exact_ltb_iff (x y : Q) : Exact.ltb x y = true <-> (Q2R x < Q2R y)%R.
Proof.
  unfold Exact.ltb. rewrite negb_true_iff, <- not_true_iff_false, Qle_bool_iff.
  split; intros Hlt.
  - apply Qlt_Rlt, Qnot_le_lt, Hlt.
  - apply Qlt_not_le, Rlt_Qlt, Hlt.
Qed.

Lemma Exact_leb_iff (x y : Q) : Qle_bool x y = true <-> (Q2R x <= Q2R y)%R.
Proof.
  rewrite Qle_bool_iff. split; [apply Qle_Rle | apply Rle_Qle].
Qed.

Lemma Exact_div (x y : Q) : Q2R y <> 0%R -> Q2R (x / y) = (Q2R x / Q2R y)%R.
Proof.
  intros Hy. apply Q2R_div. intros Hz. apply Hy.
  rewrite (Qeq_eqR _ _ Hz). unfold Q2R; simpl; lra.
Qed.

#[global] Instance Exact_is_exact : ExactNumber Q := {|
  val := Q2R;
  val_lit := fun q => eq_refl;
  val_ofZ := Q2R_inject_Z;
  val_add := Q2R_plus;
  val_sub := Q2R_minus;
  val_mul := Q2R_mult;
  val_div := Exact_div;
  val_abs := Q2R_Qabs;
  val_floor := Q2R_floor;
  val_ltb := Exact_ltb_iff;
  val_leb := Exact_leb_iff
|}.

(** *** The rationals truncate exactly *)

Lemma Integer_of_Z_Some (z i : Z) :
  Integer_of_Z z = Some i <-> z = i /\ (INTEGER_MIN <= i <= INTEGER_MAX)%Z.
Proof.
  unfold Integer_of_Z.
  destruct ((INTEGER_MIN <=? z) && (z <=? INTEGER_MAX))%Z eqn:Hrange.
  - apply andb_true_iff in Hrange. destruct Hrange as [Hlow Hhigh].
    apply Z.leb_le in Hlow, Hhigh.
    split.
    + intros Heq. injection Heq as <-. split; [reflexivity | lia].
    + intros [<- _]. reflexivity.
  - split; [discriminate |]. intros [<- [Hlow Hhigh]].
    apply Z.leb_le in Hlow, Hhigh. rewrite Hlow, Hhigh in Hrange. discriminate.
Qed.

Lemma Exact_integer_part_nonneg (x : Q) :
  (0 <= Q2R x)%R ->
  (IZR (Exact.integer_part x) <= Q2R x < IZR (Exact.integer_part x) + 1)%R.
Proof.
  intros Hx. unfold Exact.integer_part.
  assert (Hnum : (0 <= Qnum x)%Z).
  { assert (H0 : (0 <= x)%Q) by (apply Rle_Qle; unfold Q2R at 1; simpl; lra).
    unfold Qle in H0. simpl in H0. lia. }
  rewrite Z.quot_div_nonneg by lia.
  replace (Qnum x / Z.pos (Qden x))%Z with (Qfloor x) by (destruct x; reflexivity).
  destruct (Q2R_floor x) as [z [Hz Hbounds]].
  rewrite Q2R_inject_Z in Hz. apply eq_IZR in Hz. subst z. exact Hbounds.
Qed.

Lemma Exact_integer_part_opp (x : Q) :
  Exact.integer_part (- x) = (- Exact.integer_part x)%Z.
Proof.
  unfold Exact.integer_part. destruct x as [n d]. simpl.
  apply Z.quot_opp_l. discriminate.
Qed.

Lemma Exact_integer_part_nonpos (x : Q) :
  (Q2R x <= 0)%R ->
  (IZR (Exact.integer_part x) - 1 < Q2R x <= IZR (Exact.integer_part x))%R.
Proof.
  intros Hx.
  assert (Hneg : (0 <= Q2R (- x))%R) by (rewrite Q2R_opp; lra).
  pose proof (@Exact_integer_part_nonneg (- x) Hneg) as Hbounds.
  rewrite Exact_integer_part_opp, Q2R_opp, opp_IZR in Hbounds. lra.
Qed.

Lemma Exact_trunc_defined (x : Q) :
  (IZR INTEGER_MIN - 1 < Q2R x < IZR INTEGER_MAX + 1)%R ->
  exists i : Z, Exact.trunc x = Some i.
Proof.
  intros [Hlow Hhigh]. exists (Exact.integer_part x).
  apply Integer_of_Z_Some. split; [reflexivity |].
  assert (Hmin : INTEGER_MIN = (-2147483648)%Z) by reflexivity.
  assert (Hmax : INTEGER_MAX = 2147483647%Z) by reflexivity.
  rewrite Hmin, Hmax in *.
  destruct (Rle_or_lt 0 (Q2R x)) as [Hnonneg | Hneg].
  - destruct (@Exact_integer_part_nonneg x Hnonneg) as [Hbelow Habove].
    assert (Hpart : (-1 < Exact.integer_part x < 2147483647 + 1)%Z)
      by (split; apply lt_IZR; [| rewrite plus_IZR]; lra).
    lia.
  - assert (Hnonpos : (Q2R x <= 0)%R) by lra.
    destruct (@Exact_integer_part_nonpos x Hnonpos) as [Hbelow Habove].
    assert (Hpart : (-2147483648 - 1 < Exact.integer_part x < 1)%Z)
      by (split; apply lt_IZR; [rewrite minus_IZR |]; lra).
    lia.
Qed.

#[global] Instance Exact_truncates : ExactTruncation Q.
Proof.
  split.
  - exact @Exact_trunc_defined.
  - intros x i Hconverted. apply Integer_of_Z_Some in Hconverted.
    exact (proj2 Hconverted).
  - intros x i Hconverted Hx. apply Integer_of_Z_Some in Hconverted.
    destruct Hconverted as [<- _]. exact (@Exact_integer_part_nonneg x Hx).
  - intros x i Hconverted Hx. apply Integer_of_Z_Some in Hconverted.
    destruct Hconverted as [<- _]. exact (@Exact_integer_part_nonpos x Hx).
Qed.

(** *** Exact arithmetic is coherently ordered, and so are IEEE doubles *)

#[global] Instance ExactNumber_CoherentOrder (N : Type) {ops : NumberOps N}
  (E : ExactNumber N) : CoherentOrder N.
Proof.
  split; intros x y Hlt; apply val_ltb in Hlt.
  - apply val_leb. lra.
  - apply not_true_iff_false. intros Hle. apply val_leb in Hle. lra.
Qed.

Lemma SFcompare_Lt_Gt (a b : spec_float) :
  SFcompare a b = Some Lt -> SFcompare b a = Some Gt.
Proof.
  destruct a as [sa|sa| |sa ma ea], b as [sb|sb| |sb mb eb];
    try destruct sa; try destruct sb; simpl; try discriminate; try reflexivity.
  - pose proof (Pos.compare_cont_antisym ma mb Eq) as Hm; simpl in Hm.
    rewrite (Z.compare_antisym ea eb), <- Hm.
    destruct (ea ?= eb)%Z; simpl; try discriminate; try reflexivity.
    destruct (Pos.compare_cont Eq ma mb); simpl; try discriminate; reflexivity.
  - pose proof (Pos.compare_cont_antisym ma mb Eq) as Hm; simpl in Hm.
    rewrite (Z.compare_antisym ea eb), <- Hm.
    destruct (ea ?= eb)%Z; simpl; try discriminate; try reflexivity.
    destruct (Pos.compare_cont Eq ma mb); simpl; try discriminate; reflexivity.
Qed.

#[global] Instance Binary64_CoherentOrder : CoherentOrder float.
Proof.
  split; intros x y; simpl; rewrite ltb_spec, leb_spec; unfold SFltb, SFleb.
  - destruct (SFcompare (Prim2SF x) (Prim2SF y)) as [[]|]; try discriminate; reflexivity.
  - destruct (SFcompare (Prim2SF x) (Prim2SF y)) as [[]|] eqn:Hc; try discriminate.
    intros _. rewrite (SFcompare_Lt_Gt Hc). reflexivity.
Qed.


(** ** Further parts of the sources *)

(** *** An oscillator's successive lookups *)

Module Phase.

Section Defs.

Context {N : Type} {ops : NumberOps N}.
Variable c : Wavetable.Consts (N:=N).
Variable wt : Wavetable.Wavetable (N:=N).

Import Wavetable.
#[local] Open Scope num_scope.

(** The frequencies for which [Wavetable::lookup] takes neither of its two
    early returns. *)
Definition is_representable (state : WavetableState) (frequency : N) : bool :=
  negb (nabs frequency <? nlit 0.0000001)
  && negb (nabs frequency >? nyquist_frequency state).

(** [lookup(&state, f)] for each [f] in turn, on one state object: the
    samples, in order, and the state that is left. *)
Fixpoint lookups (state : WavetableState) (frequencies : list N)
    : list (option N) * WavetableState :=
  match frequencies with
  | [] => ([], state)
  | f :: rest =>
      let (sample, state) := lookup c wt state f in
      let (later, state) := lookups state rest in
      (sample :: later, state)
  end.

(** The phase that the frequencies add up to: [scale * f] for each
    representable [f]. *)
Fixpoint advance (state : WavetableState) (frequencies : list N) : N :=
  match frequencies with
  | [] => nlit 0.0
  | f :: rest =>
      if is_representable state f
      then scale state * f + advance state rest
      else advance state rest
  end.

(** The table selection of [lookup] is defined: there is one table, or
    [(Integer)max_partials] is defined. *)
Definition selection_defined (state : WavetableState) (frequency : N) : Prop :=
  partials wt = 1%Z \/ ntrunc (max_partials state frequency) <> None.

(** The tables as a construction leaves them: [partials] arrays of [SIZE]
    samples. *)
Definition well_shaped : Prop :=
  (1 <= partials wt)%Z
  /\ length (samples wt) = Z.to_nat (partials wt)
  /\ Forall (fun table => length table = Z.to_nat (SIZE c)) (samples wt).

End Defs.

Section Exact.

Context {N : Type} {ops : NumberOps N} {E : ExactNumber N}.

(** [SIZE] is a power of two, [MASK] is [SIZE - 1], and [SIZE_FLOAT] and
    [SIZE_INV] are [SIZE] and its reciprocal. *)
Definition exact_consts (c : Wavetable.Consts (N:=N)) (bits : Z) : Prop :=
  (0 <= bits)%Z
  /\ Wavetable.SIZE c = (2 ^ bits)%Z
  /\ Wavetable.MASK c = (2 ^ bits - 1)%Z
  /\ val (Wavetable.SIZE_FLOAT c) = IZR (Wavetable.SIZE c)
  /\ val (Wavetable.SIZE_INV c) = (/ IZR (Wavetable.SIZE c))%R.

(** The position lies inside the table. *)
Definition in_table (c : Wavetable.Consts (N:=N))
    (state : Wavetable.WavetableState (N:=N)) : Prop :=
  (0 <= val (Wavetable.sample_index state) < IZR (Wavetable.SIZE c))%R.

(** No stored sample exceeds 1 in absolute value, as after a
    normalization. *)
Definition tables_normalized (wt : Wavetable.Wavetable (N:=N)) : Prop :=
  forall table sample,
    In table (Wavetable.samples wt) -> In sample table -> (Rabs (val sample) <= 1)%R.

(** The two weights of a blend of tables are [w] and [1 - w] with [w] in
    [0, 1]. *)
Definition weights_balanced (state : Wavetable.WavetableState (N:=N)) : Prop :=
  Wavetable.needs_table_interpolation state = true ->
  (0 <= val (fst (Wavetable.table_weights state)) <= 1)%R
  /\ val (snd (Wavetable.table_weights state))
     = (1 - val (fst (Wavetable.table_weights state)))%R.

End Exact.

(** The indices of a state point at tables that exist. *)
Definition tables_selected {N : Type} (wt : Wavetable.Wavetable (N:=N))
    (state : Wavetable.WavetableState (N:=N)) : Prop :=
  (0 <= fst (Wavetable.table_indices state) < Wavetable.partials wt)%Z
  /\ (Wavetable.needs_table_interpolation state = true ->
      (0 <= snd (Wavetable.table_indices state) < Wavetable.partials wt)%Z).

End Phase.

(** *** The rounds that advance an inaccuracy *)

Module Rounds.

(** The number of [update] calls, in a sequence of calls with the given
    rounds, whose round differs from the round of the call before ([last]
    for the first call). *)
Fixpoint changes (last : Z) (rounds : list Z) : nat :=
  match rounds with
  | [] => 0
  | round :: rest =>
      (if (last =? round)%Z then 0 else 1) + changes round rest
  end.

End Rounds.

(** *** The unstable tunings ([src/voice.cpp]) *)

Module VoiceTuning.

Import Voice.

(** [Voice::is_tuning_unstable]: the mask holds one bit for each of the
    twelve inaccurate tunings. *)
Definition is_tuning_unstable (t : Tunings) (tuning : Z) : bool :=
  let mask :=
    Z.lor (Z.lor (Z.lor (Z.lor (Z.lor (Z.lor (Z.lor (Z.lor (Z.lor (Z.lor (Z.lor
      (Z.lor 0
         (Z.shiftl 1 (TUNING_440HZ_12TET_INACCURATE_1 t)))
         (Z.shiftl 1 (TUNING_440HZ_12TET_INACCURATE_2_SYNCED t)))
         (Z.shiftl 1 (TUNING_440HZ_12TET_INACCURATE_3 t)))
         (Z.shiftl 1 (TUNING_440HZ_12TET_INACCURATE_4 t)))
         (Z.shiftl 1 (TUNING_440HZ_12TET_INACCURATE_5_SYNCED t)))
         (Z.shiftl 1 (TUNING_440HZ_12TET_INACCURATE_6 t)))
         (Z.shiftl 1 (TUNING_432HZ_12TET_INACCURATE_1 t)))
         (Z.shiftl 1 (TUNING_432HZ_12TET_INACCURATE_2_SYNCED t)))
         (Z.shiftl 1 (TUNING_432HZ_12TET_INACCURATE_3 t)))
         (Z.shiftl 1 (TUNING_432HZ_12TET_INACCURATE_4 t)))
         (Z.shiftl 1 (TUNING_432HZ_12TET_INACCURATE_5_SYNCED t)))
         (Z.shiftl 1 (TUNING_432HZ_12TET_INACCURATE_6 t)) in
  negb (0 =? Z.land mask (Z.shiftl 1 tuning))%Z.

(** [Voice::is_tuning_synced_unstable] *)
Definition is_tuning_synced_unstable (t : Tunings) (tuning : Z) : bool :=
  let mask :=
    Z.lor (Z.lor (Z.lor
      (Z.lor 0
         (Z.shiftl 1 (TUNING_440HZ_12TET_INACCURATE_2_SYNCED t)))
         (Z.shiftl 1 (TUNING_440HZ_12TET_INACCURATE_5_SYNCED t)))
         (Z.shiftl 1 (TUNING_432HZ_12TET_INACCURATE_2_SYNCED t)))
         (Z.shiftl 1 (TUNING_432HZ_12TET_INACCURATE_5_SYNCED t)) in
  negb (0 =? Z.land mask (Z.shiftl 1 tuning))%Z.

(** The enumerators of the mask of [is_tuning_unstable], and of the mask of
    [is_tuning_synced_unstable]. *)
Definition unstable_tunings (t : Tunings) : list Z :=
  [TUNING_440HZ_12TET_INACCURATE_1 t;
   TUNING_440HZ_12TET_INACCURATE_2_SYNCED t;
   TUNING_440HZ_12TET_INACCURATE_3 t;
   TUNING_440HZ_12TET_INACCURATE_4 t;
   TUNING_440HZ_12TET_INACCURATE_5_SYNCED t;
   TUNING_440HZ_12TET_INACCURATE_6 t;
   TUNING_432HZ_12TET_INACCURATE_1 t;
   TUNING_432HZ_12TET_INACCURATE_2_SYNCED t;
   TUNING_432HZ_12TET_INACCURATE_3 t;
   TUNING_432HZ_12TET_INACCURATE_4 t;
   TUNING_432HZ_12TET_INACCURATE_5_SYNCED t;
   TUNING_432HZ_12TET_INACCURATE_6 t].

Definition synced_unstable_tunings (t : Tunings) : list Z :=
  [TUNING_440HZ_12TET_INACCURATE_2_SYNCED t;
   TUNING_440HZ_12TET_INACCURATE_5_SYNCED t;
   TUNING_432HZ_12TET_INACCURATE_2_SYNCED t;
   TUNING_432HZ_12TET_INACCURATE_5_SYNCED t].

(** An enumerator by which the [int] 1 can be shifted. *)
Definition is_shift_count (tuning : Z) : Prop := (0 <= tuning < 31)%Z.

End VoiceTuning.

(** ** Programs and the bank ([src/bank.cpp]) *)

Module Bank.

Import Wavetable (bind).

#[local] Notation "x <- e ;; k" := (bind e (fun x => k))
  (at level 61, e at next level, right associativity).

(** A [std::string], as the list of its characters. *)
Definition text : Type := list Ascii.ascii.

(** The character and string literals of the sources. *)
Module Literals.

Import Ascii String.
#[local] Open Scope char_scope.
#[local] Open Scope string_scope.

Definition SPACE : ascii := " ".

Definition TILDE : ascii := "~".

Definition OPENING_BRACKET : ascii := "[".

Definition CLOSING_BRACKET : ascii := "]".

Definition BACKSLASH : ascii := ascii_of_nat 92.

Definition CR : ascii := ascii_of_nat 13.

Definition LF : ascii := ascii_of_nat 10.

Definition DOT : ascii := ".".

Definition ELLIPSIS : text := list_ascii_of_string "...".

Definition SECTION_LINE : text := list_ascii_of_string "[js80p]".

Definition NAME_KEY : text := list_ascii_of_string "NAME = ".

End Literals.

Import Literals.

(** [s.substr(pos)] and [s.erase(pos)] throw [std::out_of_range] when [pos]
    exceeds the length: no result. *)
Definition substr (s : text) (pos : nat) : option text :=
  if (length s <? pos)%nat then None else Some (skipn pos s).

Definition erase (s : text) (pos : nat) : option text :=
  if (length s <? pos)%nat then None else Some (firstn pos s).

Section Defs.

(** [Program::NAME_MAX_LENGTH] and [Bank::NUMBER_OF_PROGRAMS] are given in
    [bank.hpp], which is not among the sources: they are parameters, both
    positive.  Whether [char] is signed is left to the compiler. *)
Variable NAME_MAX_LENGTH : Z.
Variable NUMBER_OF_PROGRAMS : nat.
Variable char_is_signed : bool.

(** The value of a [char] in a comparison. *)
Definition char_value (c : Ascii.ascii) : Z :=
  let code := Z.of_nat (Ascii.nat_of_ascii c) in
  if char_is_signed && (127 <? code)%Z then (code - 256)%Z else code.

(** [Program::is_allowed_char] *)
Definition is_allowed_char (c : Ascii.ascii) : bool :=
  (char_value c <=? char_value TILDE)%Z
  && (char_value SPACE <=? char_value c)%Z
  && negb (Ascii.eqb c OPENING_BRACKET)
  && negb (Ascii.eqb c BACKSLASH)
  && negb (Ascii.eqb c CLOSING_BRACKET).

(** The first loop of [Program::sanitize]: [filtered] holds the [next]
    characters written so far; the loop ends at the end of the name, or at
    the [break]. *)
Fixpoint filter_name (name : text) (filtered : text) : text :=
  match name with
  | [] => filtered
  | c :: rest =>
      if is_allowed_char c
         && ((0 <? Z.of_nat (length filtered))%Z || negb (Ascii.eqb c SPACE))
      then
        let filtered := filtered ++ [c] in
        if (NAME_MAX_LENGTH <? Z.of_nat (length filtered))%Z
        then filtered
        else filter_name rest filtered
      else filter_name rest filtered
  end.

(** The second loop, seen from the last character written: spaces are
    replaced by NUL as long as the character at [next] is a space. *)
Fixpoint strip_spaces (reversed : text) : text :=
  match reversed with
  | c :: rest => if Ascii.eqb c SPACE then strip_spaces rest else reversed
  | [] => []
  end.

(** [Program::sanitize], for an object with the given [default_name].  The
    string built from the buffer ends at the first NUL, which is where the
    characters that were kept end. *)
Definition sanitize (default_name : text) (name : text) : option text :=
  let filtered := filter_name name [] in
  let sanitized := rev (strip_spaces (rev filtered)) in
  if (NAME_MAX_LENGTH <=? Z.of_nat (length sanitized))%Z then
    sanitized <- erase sanitized 20 ;;
    Some (sanitized ++ ELLIPSIS)
  else if (length sanitized =? 0)%nat then Some default_name
  else Some sanitized.

Record Program : Type := {
  name : text;
  default_name : text;
  serialized : text;
  params_start : nat
}.

(** [Program::set_name_without_update] *)
Definition set_name_without_update (p : Program) (new_name : text)
    : option Program :=
  sanitized <- sanitize (default_name p) new_name ;;
  Some {| name := sanitized;
          default_name := default_name p;
          serialized := serialized p;
          params_start := params_start p |}.

(** The prefix that [Program::update] builds. *)
Definition header (name : text) : text :=
  SECTION_LINE ++ [CR; LF] ++ NAME_KEY ++ name ++ [CR; LF].

(** [Program::update] *)
Definition update (p : Program) : option Program :=
  let prefix := header (name p) in
  let new_params_start := length prefix in
  params <- substr (serialized p) (params_start p) ;;
  Some {| name := name p;
          default_name := default_name p;
          serialized := prefix ++ params;
          params_start := new_params_start |}.

(** [Program::set_name] *)
Definition set_name (p : Program) (new_name : text) : option Program :=
  p <- set_name_without_update p new_name ;;
  update p.

(** The default constructor [Program::Program()]. *)
Definition make : option Program :=
  update {| name := []; default_name := []; serialized := []; params_start := 0 |}.

(** [Program::get_name], [Program::serialize], [Program::is_blank] *)
Definition get_name (p : Program) : text := name p.

Definition serialize (p : Program) : text := serialized p.

Definition is_blank (p : Program) : bool :=
  (params_start p =? length (serialized p))%nat.

(** The parameter lines that a program stores after its header. *)
Definition params (p : Program) : text := skipn (params_start p) (serialized p).

Record Bank : Type := {
  programs : list Program;
  current_program_index : nat
}.

(** [Bank::operator[]]: the array has [NUMBER_OF_PROGRAMS] elements. *)
Definition at_program (b : Bank) (index : nat) : option Program :=
  if (NUMBER_OF_PROGRAMS <=? index)%nat
  then nth_error (programs b) (NUMBER_OF_PROGRAMS - 1)
  else nth_error (programs b) index.

(** [Bank::get_current_program_index], [Bank::set_current_program_index] *)
Definition get_current_program_index (b : Bank) : nat := current_program_index b.

Definition set_current_program_index (b : Bank) (new_index : nat) : Bank :=
  if (NUMBER_OF_PROGRAMS <=? new_index)%nat
  then {| programs := programs b; current_program_index := NUMBER_OF_PROGRAMS - 1 |}
  else {| programs := programs b; current_program_index := new_index |}.

End Defs.

End Bank.

(** *** Names as [sanitize] leaves them *)

Module Names.

Import Bank Bank.Literals.

Section Defs.

Variable NAME_MAX_LENGTH : Z.
Variable char_is_signed : bool.

(** Printable ASCII without the brackets and the backslash. *)
Definition is_printable (c : Ascii.ascii) : Prop :=
  (32 <= Ascii.nat_of_ascii c <= 126)%nat
  /\ c <> OPENING_BRACKET /\ c <> BACKSLASH /\ c <> CLOSING_BRACKET.

(** A name that is not empty, holds only allowed characters, neither starts
    nor ends with a space, and is either shorter than [NAME_MAX_LENGTH] or
    twenty characters followed by three dots. *)
Definition clean (s : text) : Prop :=
  s <> []
  /\ Forall (fun c => is_allowed_char char_is_signed c = true) s
  /\ hd SPACE s <> SPACE
  /\ last s SPACE <> SPACE
  /\ ((Z.of_nat (length s) < NAME_MAX_LENGTH)%Z
      \/ exists start, length start = 20%nat /\ s = start ++ ELLIPSIS).

End Defs.

End Names.

(** *** Inputs for the programs *)

Module BankInputs.

Import Ascii String.
#[local] Open Scope string_scope.

(** A name as a user may type it, and what is left of it. *)
Definition typed_name : Bank.text := list_ascii_of_string "  [Lead] Saw 1  ".

Definition kept_name : Bank.text := list_ascii_of_string "Lead Saw 1".

(** A program with one parameter line after the 21 characters of its
    header. *)
Definition stored_program : Bank.Program :=
  {| Bank.name := list_ascii_of_string "Old";
     Bank.default_name := list_ascii_of_string "Blank Slot 1";
     Bank.serialized :=
       (Bank.header (list_ascii_of_string "Old")
        ++ list_ascii_of_string "MIX = 0.5"
        ++ [Bank.Literals.CR; Bank.Literals.LF])%list;
     Bank.params_start := 21 |}.

End BankInputs.

(** *** A bank of two programs *)

Module BankOfTwo.

Definition bank : Bank.Bank :=
  {| Bank.programs := [BankInputs.stored_program; BankInputs.stored_program];
     Bank.current_program_index := 0 |}.

End BankOfTwo.

(** ** The volume applier ([src/voice.cpp], class [Voice::VolumeApplier]) *)

Module VolumeApplier.

Import Wavetable (at_index, bind).
Import Voice (for_loop, store).

#[local] Notation "x <- e ;; k" := (bind e (fun x => k))
  (at level 61, e at next level, right associativity).

Section Defs.

Context {N : Type} {ops : NumberOps N}.
#[local] Open Scope num_scope.

(** What [render] reads: the number of channels and the rendered input of
    the filter base class, and what [initialize_rendering] leaves for the
    volume and the velocity (a buffer pointer is [None] when it is
    [NULL]). *)
Record VolumeApplier : Type := {
  channels : Z;
  input_buffer : list (list N);
  volume_buffer : option (list N);
  volume_value : N;
  velocity_buffer : option (list N);
  velocity_value : N
}.

(** [VolumeApplier::render] *)
Definition render (a : VolumeApplier) (round first_sample_index last_sample_index : Z)
    (buffer : list (list N)) : option (list (list N)) :=
  match volume_buffer a with
  | None =>
      match velocity_buffer a with
      | None =>
          for_loop 0 (channels a)
            (fun c buffer =>
               input <- at_index (input_buffer a) c ;;
               for_loop first_sample_index last_sample_index
                 (fun i buffer =>
                    x <- at_index input i ;;
                    store buffer c i (velocity_value a * volume_value a * x))
                 buffer)
            buffer
      | Some velocity_buffer =>
          for_loop 0 (channels a)
            (fun c buffer =>
               input <- at_index (input_buffer a) c ;;
               for_loop first_sample_index last_sample_index
                 (fun i buffer =>
                    velocity <- at_index velocity_buffer i ;;
                    x <- at_index input i ;;
                    store buffer c i (velocity * volume_value a * x))
                 buffer)
            buffer
      end
  | Some volume_buffer =>
      match velocity_buffer a with
      | None =>
          for_loop 0 (channels a)
            (fun c buffer =>
               input <- at_index (input_buffer a) c ;;
               for_loop first_sample_index last_sample_index
                 (fun i buffer =>
                    volume <- at_index volume_buffer i ;;
                    x <- at_index input i ;;
                    store buffer c i (velocity_value a * volume * x))
                 buffer)
            buffer
      | Some velocity_buffer =>
          for_loop 0 (channels a)
            (fun c buffer =>
               input <- at_index (input_buffer a) c ;;
               for_loop first_sample_index last_sample_index
                 (fun i buffer =>
                    velocity <- at_index velocity_buffer i ;;
                    volume <- at_index volume_buffer i ;;
                    x <- at_index input i ;;
                    store buffer c i (velocity * volume * x))
                 buffer)
            buffer
      end
  end.

(** *** The product, for the statement about [render] *)

(** A constant value, or the sample of a buffer. *)
Definition value_at (buffer : option (list N)) (value : N) (i : Z) : option N :=
  match buffer with
  | None => Some value
  | Some samples => at_index samples i
  end.

(** [buffer[c][i]] *)
Definition sample (buffer : list (list N)) (c i : Z) : option N :=
  row <- at_index buffer c ;; at_index row i.

(** The velocity times the volume times the input, at the sample [i] of
    an input channel, and of the channel [c]. *)
Definition applied_to (a : VolumeApplier) (input : list N) (i : Z) : option N :=
  velocity <- value_at (velocity_buffer a) (velocity_value a) i ;;
  volume <- value_at (volume_buffer a) (volume_value a) i ;;
  x <- at_index input i ;;
  Some (velocity * volume * x).

Definition applied (a : VolumeApplier) (c i : Z) : option N :=
  input <- at_index (input_buffer a) c ;; applied_to a input i.

(** One body of the inner loop for the four branches of [render]. *)
Definition sample_body (a : VolumeApplier) (c : Z) (input : list N) (i : Z)
    (buffer : list (list N)) : option (list (list N)) :=
  velocity <- value_at (velocity_buffer a) (velocity_value a) i ;;
  volume <- value_at (volume_buffer a) (volume_value a) i ;;
  x <- at_index input i ;;
  store buffer c i (velocity * volume * x).

(** One body of the loop over the channels. *)
Definition channel_body (a : VolumeApplier) (first last : Z) (c : Z)
    (buffer : list (list N)) : option (list (list N)) :=
  input <- at_index (input_buffer a) c ;;
  for_loop first last (sample_body a c input) buffer.

(** The block lies inside every array that [render] reads or writes. *)
Definition block_inside (a : VolumeApplier) (first last : Z)
    (buffer : list (list N)) : Prop :=
  (0 <= first <= last)%Z
  /\ (0 <= channels a <= Z.of_nat (length (input_buffer a)))%Z
  /\ (channels a <= Z.of_nat (length buffer))%Z
  /\ (forall c row, (0 <= c < channels a)%Z -> at_index (input_buffer a) c = Some row ->
        (last <= Z.of_nat (length row))%Z)
  /\ (forall c row, (0 <= c < channels a)%Z -> at_index buffer c = Some row ->
        (last <= Z.of_nat (length row))%Z)
  /\ (forall samples, volume_buffer a = Some samples ->
        (last <= Z.of_nat (length samples))%Z)
  /\ (forall samples, velocity_buffer a = Some samples ->
        (last <= Z.of_nat (length samples))%Z).

End Defs.

End VolumeApplier.

(** *** Inputs for the volume applier *)

Module VolumeInputs.

(** Two channels of four samples, a constant volume of 0.5 and a velocity
    that falls during the block. *)
Definition exact_applier : VolumeApplier.VolumeApplier (N:=Q) :=
  {| VolumeApplier.channels := 2;
     VolumeApplier.input_buffer := [[1; 2; 3; 4]; [5; 6; 7; 8]]%Q;
     VolumeApplier.volume_buffer := None;
     VolumeApplier.volume_value := 0.5%Q;
     VolumeApplier.velocity_buffer := Some [1; 0.5; 0.25; 0]%Q;
     VolumeApplier.velocity_value := 1%Q |}.

End VolumeInputs.

(** ** Frequency updates of a sounding voice ([src/voice.cpp]) *)

Module VoiceFrequency.

Import Voice.

Section Defs.

Context {N : Type} {ops : NumberOps N}.
#[local] Open Scope num_scope.

(** What these methods ask the oscillator and its frequency parameter,
    whose classes are not among the sources. *)
Record Oscillator : Type := {
  is_on : bool;
  has_events : bool;
  frequency_has_events : bool;
  frequency_is_ramping : bool;
  remaining_time_from_linear_ramp : N;
  frequency_value : N
}.

Variable e : Env (N:=N).

(** [Math::is_close] of the absent [dsp/math.hpp]. *)
Variable Math_is_close : N -> N -> bool.

(** [Voice::is_oscillator_starting_or_stopping_or_expecting_glide] *)
Definition is_oscillator_starting_or_stopping_or_expecting_glide (o : Oscillator)
    : bool :=
  negb (is_on o)
  || has_events o
  || (frequency_has_events o && negb (frequency_is_ramping o)).

(** [Voice::update_note_frequency_for_realtime_mts_esp] *)
Definition update_note_frequency_for_realtime_mts_esp (o : Oscillator) (v : Voice)
    : Voice :=
  if is_oscillator_starting_or_stopping_or_expecting_glide o then v
  else
    let new_frequency := per_channel_frequencies e (channel v) (note v) in
    let remaining := remaining_time_from_linear_ramp o in
    if (remaining <? nlit 0.000001)
       && Math_is_close new_frequency (frequency_value o)
    then v
    else
      let ramp_duration := std_max (nlit 0.003) remaining in
      call v [cancel_events_at oscillator_frequency (nlit 0.0);
              schedule_linear_ramp oscillator_frequency ramp_duration
                new_frequency].

(** [synced_inaccuracy.update(round)] on the object the voice refers to. *)
Definition update_synced_inaccuracy (v : Voice) (round : Z) : Voice :=
  with_lifecycle v (state v) (note_id v) (note v) (channel v) (inaccuracy v)
    (Inaccuracy.update (Math_randomize e) (synced_inaccuracy v) round) (calls v).

(** [Voice::update_unstable_note_frequency<is_synced>] *)
Definition update_unstable_note_frequency (is_synced : bool) (o : Oscillator)
    (v : Voice) (round : Z) : Voice :=
  if is_oscillator_starting_or_stopping_or_expecting_glide o then v
  else
    let remaining := remaining_time_from_linear_ramp o in
    if remaining >? nlit 0.0 then v
    else
      let v :=
        if is_synced then update_synced_inaccuracy v round
        else update_inaccuracy e v in
      let tuning := param_tuning e in
      let new_frequency :=
        calculate_inaccurate_note_frequency e v tuning (note v) (channel v) in
      if Math_is_close new_frequency (frequency_value o) then v
      else
        let ramp_duration :=
          if is_synced
          then nlit 0.3 + nlit 1.7 * Inaccuracy.get_inaccuracy (synced_inaccuracy v)
          else nlit 0.3 + nlit 1.7 * inaccuracy v in
        call v [cancel_events_at oscillator_frequency (nlit 0.0);
                schedule_linear_ramp oscillator_frequency ramp_duration
                  new_frequency].

End Defs.

End VoiceFrequency.

(** ** The partials that a table adds up *)

Module Synthesis.

Section Defs.

Context {N : Type} {ops : NumberOps N} {E : ExactNumber N}.
Variable c : Wavetable.Consts (N:=N).

(** The sum of [coefficient * sines[(j * frequency) & MASK]] over the
    coefficients, the first one for [frequency], the next one for
    [frequency + 1], and so on. *)
Fixpoint partial_sum (coefficients : list N) (frequency j : Z) : R :=
  match coefficients with
  | [] => 0%R
  | coefficient :: rest =>
      (val coefficient * val (Wavetable.sine c (j * frequency))
       + partial_sum rest (frequency + 1) j)%R
  end.

End Defs.

End Synthesis.

(** ** The standard wavetables ([src/synth/wavetable.cpp]) *)

Module StandardWavetables.

Section Defs.

Context {N : Type} {ops : NumberOps N}.
#[local] Open Scope num_scope.

(** [Wavetable::PARTIALS], [Math::PI] and [Math::sin] are given in headers
    that are not among the sources; [negate] is the unary minus of
    [Number]. *)
Variable PARTIALS : Z.
Variable Math_PI : N.
Variable Math_sin : N -> N.
Variable negate : N -> N.

(** What one round of the loop of the constructor stores at the index [i]
    of its four arrays. *)
Record Coefficients : Type := {
  sawtooth : N;
  inverse_sawtooth : N;
  triangle : N;
  square : N
}.

Definition coefficients_at (i : Z) : Coefficients :=
  let plus_or_minus_one :=
    if (Z.land i 1 =? 1)%Z then nlit (-1.0) else nlit 1.0 in
  let i_pi := nofZ (i + 1) * Math_PI in
  let two_over_i_pi := nlit 2.0 / i_pi in
  let sawtooth := plus_or_minus_one * two_over_i_pi in
  {| sawtooth := sawtooth;
     inverse_sawtooth := negate sawtooth;
     triangle := nlit 8.0 * Math_sin (i_pi / nlit 2.0) / (i_pi * i_pi);
     square := (nofZ 1 + plus_or_minus_one) * two_over_i_pi |}.

(** The values of [i] in [for (Integer i = 0; i != Wavetable::PARTIALS; ++i)]. *)
Definition indices : list Z := map Z.of_nat (seq 0 (Z.to_nat PARTIALS)).

(** The five coefficient arrays. *)
Definition sine_coefficients : list N := [nlit 1.0].

Definition sawtooth_coefficients : list N :=
  map (fun i => sawtooth (coefficients_at i)) indices.

Definition inverse_sawtooth_coefficients : list N :=
  map (fun i => inverse_sawtooth (coefficients_at i)) indices.

Definition triangle_coefficients : list N :=
  map (fun i => triangle (coefficients_at i)) indices.

Definition square_coefficients : list N :=
  map (fun i => square (coefficients_at i)) indices.

(** The wavetables that the constructor builds from them. *)
Variable c : Wavetable.Consts (N:=N).

Definition sine_wt : option Wavetable.Wavetable :=
  Wavetable.make c sine_coefficients.

Definition sawtooth_wt : option Wavetable.Wavetable :=
  Wavetable.make c sawtooth_coefficients.

Definition inverse_sawtooth_wt : option Wavetable.Wavetable :=
  Wavetable.make c inverse_sawtooth_coefficients.

Definition triangle_wt : option Wavetable.Wavetable :=
  Wavetable.make c triangle_coefficients.

Definition square_wt : option Wavetable.Wavetable :=
  Wavetable.make c square_coefficients.

End Defs.

End StandardWavetables.

(** *** Inputs for the standard wavetables and the frequency updates *)

Module StandardInputs.

(** Rational stand-ins for [Math::PI] and [Math::sin], and four partials
    on the tables of four samples. *)
Definition exact_PI : Q := 3.14.

Definition exact_sin (x : Q) : Q := x - x * x * x / 6.

Definition exact_square : Wavetable.Wavetable (N:=Q) :=
  Inputs.built
    (StandardWavetables.square_wt 4 exact_PI exact_sin Qopp Inputs.exact_consts).

(** An oscillator that is on, with no event pending and no ramp running,
    at 300 Hz; and a closeness test that never holds. *)
Definition exact_oscillator : VoiceFrequency.Oscillator (N:=Q) :=
  {| VoiceFrequency.is_on := true;
     VoiceFrequency.has_events := false;
     VoiceFrequency.frequency_has_events := false;
     VoiceFrequency.frequency_is_ramping := false;
     VoiceFrequency.remaining_time_from_linear_ramp := 0%Q;
     VoiceFrequency.frequency_value := 300%Q |}.

Definition never_close (a b : Q) : bool := false.

End StandardInputs.

(** ** Importing a program ([src/bank.cpp]) *)

Module ProgramImport.

Import Wavetable (bind).
Import Bank Bank.Literals.

#[local] Notation "x <- e ;; k" := (bind e (fun x => k))
  (at level 61, e at next level, right associativity).

(** [strncmp(a, b, n) == 0], for strings without NUL. *)
Fixpoint text_eqb (a b : text) : bool :=
  match a, b with
  | [], [] => true
  | x :: a, y :: b => Ascii.eqb x y && text_eqb a b
  | _, _ => false
  end.

Definition strncmp_is_zero (a b : text) (n : nat) : bool :=
  text_eqb (firstn n a) (firstn n b).

Definition NAME : text := firstn 4 NAME_KEY.

Section Defs.

Variable NAME_MAX_LENGTH : Z.
Variable char_is_signed : bool.

(** The functions of [Serializer], which is not among the sources:
    [parse_section_name] gives the section name when the line is a section
    header; [parse_line_until_value] gives the parameter name, the suffix
    and the rest of the line, where its iterator stops;
    [skipping_remaining_whitespace_or_comment_reaches_the_end] moves the
    iterator further, to the rest that is returned here. *)
Variable parse_section_name : text -> option text.
Variable is_js80p_section_start : text -> bool.
Variable parse_line_until_value : text -> option (text * text * text).
Variable skipping_remaining_whitespace_or_comment : text -> text.

(** The local variables of [import_without_update] that live across the
    rounds of its loop. *)
Record Scan : Type := {
  program_name : text;
  serialized_params : text;
  is_js80p_section : bool;
  found_program_name : bool
}.

Definition initial : Scan :=
  {| program_name := [];
     serialized_params := [];
     is_js80p_section := false;
     found_program_name := false |}.

(** The value of a [NAME] line: the second branch of the loop is taken when
    the line parses as a parameter whose name is [NAME] and whose suffix is
    empty, and the name is what follows the skipped whitespace. *)
Definition name_value (line : text) : option text :=
  match parse_line_until_value line with
  | Some (param_name, suffix, rest) =>
      if strncmp_is_zero param_name NAME 8 && strncmp_is_zero suffix [] 4
      then Some (skipping_remaining_whitespace_or_comment rest)
      else None
  | None => None
  end.

(** The loop of [import_without_update(it, end)]: the variables when the
    loop is left, and the lines from [it] on. *)
Fixpoint scan (lines : list text) (s : Scan) : Scan * list text :=
  match lines with
  | [] => (s, [])
  | line :: rest =>
      match parse_section_name line with
      | Some section_name =>
          if is_js80p_section s then (s, lines)
          else
            scan rest
              {| program_name := [];
                 serialized_params := [];
                 is_js80p_section := is_js80p_section_start section_name;
                 found_program_name := found_program_name s |}
      | None =>
          if is_js80p_section s then
            match name_value line with
            | Some value =>
                scan rest
                  {| program_name := value;
                     serialized_params := serialized_params s;
                     is_js80p_section := is_js80p_section s;
                     found_program_name := true |}
            | None =>
                scan rest
                  {| program_name := program_name s;
                     serialized_params := serialized_params s ++ line ++ [CR; LF];
                     is_js80p_section := is_js80p_section s;
                     found_program_name := found_program_name s |}
            end
          else scan rest s
      end
  end.

Definition with_serialized (p : Program) (serialized : text) : Program :=
  {| name := name p;
     default_name := default_name p;
     serialized := serialized;
     params_start := 0 |}.

(** [Program::import_without_update(it, end)] *)
Definition import_without_update (p : Program) (lines : list text)
    : option Program * list text :=
  let (s, rest) := scan lines initial in
  if is_js80p_section s then
    (p <- (if found_program_name s
           then set_name_without_update NAME_MAX_LENGTH char_is_signed p
                  (program_name s)
           else Some p) ;;
     Some (with_serialized p (serialized_params s)),
     rest)
  else
    (p <- set_name_without_update NAME_MAX_LENGTH char_is_signed p [] ;;
     Some (with_serialized p []),
     rest).

(** [Program::import(it, end)] *)
Definition import (p : Program) (lines : list text) : option Program * list text :=
  let (imported, rest) := import_without_update p lines in
  (p <- imported ;; update p, rest).

(** *** A program section, line by line *)

Definition is_header (line : text) : bool :=
  match parse_section_name line with
  | Some _ => true
  | None => false
  end.

Definition starts_js80p_section (line : text) : bool :=
  match parse_section_name line with
  | Some section_name => is_js80p_section_start section_name
  | None => false
  end.

(** The lines that follow the first header of a js80p section. *)
Fixpoint after_section_start (lines : list text) : option (list text) :=
  match lines with
  | [] => None
  | line :: rest =>
      if starts_js80p_section line then Some rest else after_section_start rest
  end.

(** The lines up to the next header, and the lines from that header on. *)
Fixpoint section_body (lines : list text) : list text :=
  match lines with
  | [] => []
  | line :: rest => if is_header line then [] else line :: section_body rest
  end.

Fixpoint after_section (lines : list text) : list text :=
  match lines with
  | [] => []
  | line :: rest => if is_header line then lines else after_section rest
  end.

(** The value of the last [NAME] line, or the one found before the
    lines. *)
Definition last_name (body : list text) (found : option text) : option text :=
  fold_left (fun found line =>
               match name_value line with
               | Some value => Some value
               | None => found
               end) body found.

Definition given_name (body : list text) : option text := last_name body None.

(** The other lines, each followed by a line break. *)
Definition kept_params (body : list text) : text :=
  concat (map (fun line => line ++ [CR; LF])
              (filter (fun line => match name_value line with
                                   | Some _ => false
                                   | None => true
                                   end) body)).

End Defs.

End ProgramImport.

(** *** Inputs for the import *)

Module ImportInputs.

Import Ascii String.
#[local] Open Scope string_scope.

(** Stand-ins for the functions of [Serializer]: a header is a line in
    brackets, and a name line starts with [NAME = ]. *)
Definition parse_section_name (line : Bank.text) : option Bank.text :=
  match line with
  | c :: rest =>
      if Ascii.eqb c Bank.Literals.OPENING_BRACKET then Some (removelast rest)
      else None
  | nil => None
  end.

Definition is_js80p_section_start (section_name : Bank.text) : bool :=
  ProgramImport.text_eqb section_name (list_ascii_of_string "js80p").

Definition parse_line_until_value (line : Bank.text)
    : option (Bank.text * Bank.text * Bank.text) :=
  if ProgramImport.text_eqb (firstn 7 line) Bank.Literals.NAME_KEY
  then Some (ProgramImport.NAME, nil, skipn 7 line)
  else None.

Definition skipping_remaining_whitespace_or_comment (rest : Bank.text) : Bank.text :=
  rest.

(** A patch of one section, followed by the header of another one. *)
Definition patch : list Bank.text :=
  (list_ascii_of_string "[js80p]"
   :: list_ascii_of_string "NAME = Saw"
   :: list_ascii_of_string "MIX = 0.5"
   :: list_ascii_of_string "[other]"
   :: nil)%list.

End ImportInputs.

(** * Properties *)

Unset Implicit Arguments.

(** ** Lookup: degenerate frequencies *)

Section LookupDegenerate.

Context {N : Type} {ops : NumberOps N}.
Variable c : Wavetable.Consts (N:=N).
Variable wt : Wavetable.Wavetable (N:=N).

Import Wavetable.
#[local] Open Scope num_scope.

Lemma lookup_near_zero (state : WavetableState) (f : N) :
  (nabs f <? nlit 0.0000001) = true ->
  lookup c wt state f = (Some (nlit 1.0), state).
Proof.
  intros Hdc. unfold lookup. rewrite Hdc. reflexivity.
Qed.

Lemma lookup_beyond_nyquist (state : WavetableState) (f : N) :
  (nabs f <? nlit 0.0000001) = false ->
  (nabs f >? nyquist_frequency state) = true ->
  lookup c wt state f = (Some (nlit 0.0), state).
Proof.
  intros Hdc Hny. unfold lookup. rewrite Hdc, Hny. reflexivity.
Qed.

(** C1, as amended.  [lookup] returns 1.0 whenever [|f| < 1e-7]; it returns
    0.0 whenever [|f|] exceeds the Nyquist frequency of the state and [|f|]
    is not below 1e-7.  The near-zero test is made first. *)
Theorem lookup_degenerate_sample (state : WavetableState) (f : N) :
  ((nabs f <? nlit 0.0000001) = true ->
   fst (lookup c wt state f) = Some (nlit 1.0))
  /\
  ((nabs f <? nlit 0.0000001) = false ->
   (nabs f >? nyquist_frequency state) = true ->
   fst (lookup c wt state f) = Some (nlit 0.0)).
Proof.
  split.
  - intros Hdc. rewrite (lookup_near_zero state f Hdc). reflexivity.
  - intros Hdc Hny. rewrite (lookup_beyond_nyquist state f Hdc Hny). reflexivity.
Qed.

(** C10.  When [lookup] takes a degenerate branch ([|f| < 1e-7], or [|f|]
    above the Nyquist frequency), the state is returned as it was:
    [sample_index] and every other field are unchanged.  The sample is then
    one of the two constants. *)
Theorem lookup_degenerate_keeps_state (state : WavetableState) (f : N) :
  (nabs f <? nlit 0.0000001) = true \/ (nabs f >? nyquist_frequency state) = true ->
  snd (lookup c wt state f) = state
  /\ (fst (lookup c wt state f) = Some (nlit 1.0)
      \/ fst (lookup c wt state f) = Some (nlit 0.0)).
Proof.
  intros Hdeg.
  destruct (nabs f <? nlit 0.0000001) eqn:Hdc.
  - rewrite (lookup_near_zero state f Hdc). split; [reflexivity | left; reflexivity].
  - destruct Hdeg as [Hfalse | Hny]; [discriminate |].
    rewrite (lookup_beyond_nyquist state f Hdc Hny).
    split; [reflexivity | right; reflexivity].
Qed.

End LookupDegenerate.

(** C1: the witness.  At 44.1 kHz the sine wavetable gives 1.0 at 0 Hz and
    0.0 at 30 kHz. *)
Lemma lookup_degenerate_sample_witness :
  fst (Wavetable.lookup Inputs.binary64_consts Inputs.binary64_sine
         Inputs.binary64_cd_state 0%float) = Some (nlit 1.0)
  /\ fst (Wavetable.lookup Inputs.binary64_consts Inputs.binary64_sine
            Inputs.binary64_cd_state 30000%float) = Some (nlit 0.0).
Proof.
  split.
  - apply (proj1 (lookup_degenerate_sample Inputs.binary64_consts
                    Inputs.binary64_sine Inputs.binary64_cd_state 0%float)).
    vm_compute. reflexivity.
  - apply (proj2 (lookup_degenerate_sample Inputs.binary64_consts
                    Inputs.binary64_sine Inputs.binary64_cd_state 30000%float)).
    + vm_compute. reflexivity.
    + vm_compute. reflexivity.
Defined.

(** C1: where the two conditions overlap, the specification's second
    sentence does not hold.  With a Nyquist
    frequency of 0 Hz, the frequency 1e-8 Hz exceeds it, and [lookup] returns
    1.0, not 0.0. *)
Lemma lookup_beyond_nyquist_returns_one :
  (nabs 0.00000001%float >? Wavetable.nyquist_frequency (Inputs.binary64_state 0%float))%num
  = true
  /\ fst (Wavetable.lookup Inputs.binary64_consts Inputs.binary64_sine
            (Inputs.binary64_state 0%float) 0.00000001%float) = Some 1%float
  /\ fst (Wavetable.lookup Inputs.binary64_consts Inputs.binary64_sine
            (Inputs.binary64_state 0%float) 0.00000001%float) <> Some 0%float.
Proof.
  split; [vm_compute; reflexivity |].
  assert (Hone : fst (Wavetable.lookup Inputs.binary64_consts Inputs.binary64_sine
                        (Inputs.binary64_state 0%float) 0.00000001%float)
                 = Some 1%float)
    by (rewrite lookup_near_zero; vm_compute; reflexivity).
  split; [exact Hone |].
  rewrite Hone. intros Heq.
  apply (f_equal (fun o => match o with
                           | Some x => PrimFloat.eqb x 1%float
                           | None => false
                           end)) in Heq.
  vm_compute in Heq. discriminate.
Qed.

(** C10: the witness.  A lookup at 0 Hz leaves the 44.1 kHz state as it is. *)
Lemma lookup_degenerate_keeps_state_witness :
  snd (Wavetable.lookup Inputs.binary64_consts Inputs.binary64_sine
         Inputs.binary64_cd_state 0%float) = Inputs.binary64_cd_state
  /\ (fst (Wavetable.lookup Inputs.binary64_consts Inputs.binary64_sine
             Inputs.binary64_cd_state 0%float) = Some (nlit 1.0)
      \/ fst (Wavetable.lookup Inputs.binary64_consts Inputs.binary64_sine
                Inputs.binary64_cd_state 0%float) = Some (nlit 0.0)).
Proof.
  apply (lookup_degenerate_keeps_state Inputs.binary64_consts Inputs.binary64_sine
           Inputs.binary64_cd_state 0%float).
  left. vm_compute. reflexivity.
Defined.

(** ** Lookup: representable frequencies *)

Section LookupRepresentable.

Context {N : Type} {ops : NumberOps N} {O : CoherentOrder N}.
Variable c : Wavetable.Consts (N:=N).
Variable wt : Wavetable.Wavetable (N:=N).

Import Wavetable.
#[local] Open Scope num_scope.








(** In exact arithmetic [(Integer)max_partials] is defined when
    [max_partials] is below 2^31, and only then. *)
Lemma max_partials_conversion (E : ExactNumber N) (T : ExactTruncation N)
    (state : WavetableState) (f : N) :
  (nlit 0.0000001 <=? nabs f) = true ->
  (nabs f <=? nyquist_frequency state) = true ->
  ((val (max_partials state f) < 2 ^ 31)%R ->
   exists converted : Z,
     ntrunc (max_partials state f) = Some converted
     /\ (IZR converted <= val (max_partials state f) < IZR converted + 1)%R)
  /\ ((2 ^ 31 <= val (max_partials state f))%R ->
      ntrunc (max_partials state f) = None).
Proof.
  intros Hlo Hhi.
  apply val_leb in Hlo, Hhi. rewrite val_lit in Hlo.
  assert (Hsmall : (0 < Q2R 0.0000001)%R) by (unfold Q2R; simpl; lra).
  assert (Hpositive : (1 <= val (max_partials state f))%R).
  { unfold max_partials. rewrite val_div by lra.
    apply (Rmult_le_reg_r (val (nabs f))); [lra |].
    unfold Rdiv. rewrite Rmult_assoc, Rinv_l by lra. lra. }
  assert (Hmax : IZR INTEGER_MAX = (2 ^ 31 - 1)%R).
  { unfold INTEGER_MAX. rewrite minus_IZR, (pow_IZR 2 31). reflexivity. }
  assert (Hmin : IZR INTEGER_MIN = (- 2 ^ 31)%R).
  { unfold INTEGER_MIN. rewrite opp_IZR, (pow_IZR 2 31). reflexivity. }
  split.
  - intros Hbelow.
    destruct (val_trunc_defined (x:=max_partials state f))
      as [converted Hconverted].
    { rewrite Hmax, Hmin. lra. }
    exists converted. split; [exact Hconverted |].
    apply (val_trunc_nonneg Hconverted). lra.
  - intros Habove.
    destruct (ntrunc (max_partials state f)) as [converted |] eqn:Hconverted;
      [exfalso | reflexivity].
    pose proof (val_trunc_Integer Hconverted) as [_ Hrange].
    assert (Hnonneg : (0 <= val (max_partials state f))%R) by lra.
    pose proof (val_trunc_nonneg Hconverted Hnonneg) as [_ Hupper].
    apply IZR_le in Hrange. rewrite Hmax in Hrange. lra.
Qed.





End LookupRepresentable.





(** ** Inaccuracy *)

Section InaccuracyRounds.

Context {N : Type} {ops : NumberOps N}.
Variable randomize : N -> N -> N.

Import Inaccuracy.
#[local] Open Scope num_scope.

Lemma update_sets_round (i : Inaccuracy) (round : Z) :
  last_update_round (update randomize i round) = round.
Proof.
  unfold update. destruct (last_update_round i =? round)%Z eqn:Hsame; simpl.
  - apply Z.eqb_eq, Hsame.
  - reflexivity.
Qed.

Lemma update_current_round (i : Inaccuracy) :
  update randomize i (last_update_round i) = i.
Proof.
  unfold update. rewrite Z.eqb_refl. reflexivity.
Qed.

Lemma update_new_round (i : Inaccuracy) (round : Z) :
  last_update_round i <> round ->
  update randomize i round
  = {| seed := seed i;
       inaccuracy := calculate_new_inaccuracy randomize (inaccuracy i);
       last_update_round := round |}.
Proof.
  intros Hnew. unfold update.
  destruct (last_update_round i =? round)%Z eqn:Hsame; [| reflexivity].
  apply Z.eqb_eq in Hsame. contradiction.
Qed.


End InaccuracyRounds.

Section InaccuracyRange.

Context {N : Type} {ops : NumberOps N} {E : ExactNumber N}.
Variable randomize : N -> N -> N.

Import Inaccuracy.
#[local] Open Scope R_scope.

Lemma val_calculate_new_inaccuracy (x : N) :
  val (calculate_new_inaccuracy randomize x)
  = 0.1 + 0.9 * val (randomize (nlit 1.0) x).
Proof.
  unfold calculate_new_inaccuracy.
  rewrite val_add, val_mul, !val_lit. unfold Q2R; simpl. lra.
Qed.

Lemma calculate_new_inaccuracy_within (strict : bool) (x : N) :
  unit_range randomize strict ->
  within strict (calculate_new_inaccuracy randomize x).
Proof.
  intros Hunit. specialize (Hunit (nlit 1.0) x).
  unfold within. rewrite val_calculate_new_inaccuracy.
  destruct strict; lra.
Qed.

Lemma update_within (strict : bool) (i : Inaccuracy) (round : Z) :
  unit_range randomize strict ->
  within strict (inaccuracy i) ->
  within strict (inaccuracy (update randomize i round)).
Proof.
  intros Hunit Hi. unfold update.
  destruct (last_update_round i =? round)%Z; simpl.
  - exact Hi.
  - apply calculate_new_inaccuracy_within, Hunit.
Qed.

Lemma updates_within (strict : bool) (rounds : list Z) (i : Inaccuracy) :
  unit_range randomize strict ->
  within strict (inaccuracy i) ->
  within strict (inaccuracy (updates randomize i rounds)).
Proof.
  intros Hunit. revert i. unfold updates.
  induction rounds as [| round rounds IH]; intros i Hi; simpl.
  - exact Hi.
  - apply IH, update_within; assumption.
Qed.

Lemma updates_advance_within (strict : bool) (rounds : list Z) (i : Inaccuracy) :
  unit_range randomize strict ->
  (exists round, In round rounds /\ round <> last_update_round i) ->
  within strict (inaccuracy (updates randomize i rounds)).
Proof.
  intros Hunit. revert i.
  induction rounds as [| round rounds IH]; intros i [r [Hin Hr]].
  - destruct Hin.
  - change (updates randomize i (round :: rounds))
      with (updates randomize (update randomize i round) rounds).
    destruct (Z.eq_dec (last_update_round i) round) as [Hsame | Hnew].
    + subst round. rewrite update_current_round.
      apply IH. exists r. split; [| exact Hr].
      destruct Hin as [Heq | Hin]; [congruence | exact Hin].
    + apply updates_within; [exact Hunit |].
      rewrite (update_new_round randomize i round Hnew). simpl.
      apply calculate_new_inaccuracy_within, Hunit.
Qed.

Lemma updates_unchanged (rounds : list Z) (i : Inaccuracy) :
  (forall round, In round rounds -> round = last_update_round i) ->
  updates randomize i rounds = i.
Proof.
  revert i. induction rounds as [| round rounds IH]; intros i Hall.
  - reflexivity.
  - change (updates randomize i (round :: rounds))
      with (updates randomize (update randomize i round) rounds).
    rewrite (Hall round (or_introl eq_refl)), update_current_round.
    apply IH. intros r Hr. apply Hall. right. exact Hr.
Qed.

(** C7, as amended.  Every call of [update] with a round other than
    [last_update_round] applies exactly
    [next = 0.1 + 0.9 * randomize(1.0, prev)].  In exact arithmetic, with
    [randomize] in the unit range [0, 1]: once a sequence of updates holds a
    round other than the initial -1, [get_inaccuracy()] lies in the closed
    interval [0.1, 1.0]; if no update has advanced the value it is still the
    seed; hence it always lies in [0.1, 1.0] when the seed does.  With
    [randomize] strictly between 0 and 1 the bounds are strict. *)
Theorem inaccuracy_recurrence_and_range (strict : bool) (seed : N) (rounds : list Z) :
  unit_range randomize strict ->
  (forall (i : Inaccuracy) (round : Z),
     last_update_round i <> round ->
     get_inaccuracy (update randomize i round)
     = (nlit 0.1 + nlit 0.9 * randomize (nlit 1.0) (get_inaccuracy i))%num)
  /\ ((exists round, In round rounds /\ round <> (-1)%Z) ->
      within strict (get_inaccuracy (updates randomize (make seed) rounds)))
  /\ ((forall round, In round rounds -> round = (-1)%Z) ->
      get_inaccuracy (updates randomize (make seed) rounds) = seed)
  /\ (within strict seed ->
      within strict (get_inaccuracy (updates randomize (make seed) rounds))).
Proof.
  intros Hunit. repeat split.
  - intros i round Hnew. rewrite (update_new_round randomize i round Hnew).
    reflexivity.
  - intros Hadv. apply updates_advance_within; assumption.
  - intros Hnone. rewrite updates_unchanged by exact Hnone. reflexivity.
  - intros Hseed. apply updates_within; assumption.
Qed.

End InaccuracyRange.

Lemma exact_randomize_unit (strict : bool) :
  unit_range (E:=Exact_is_exact) Inputs.exact_randomize strict.
Proof.
  intros level x.
  assert (Hrange : (0.25 <= Q2R (Inputs.exact_randomize level x) < 0.75)%R).
  { unfold Inputs.exact_randomize. cbv zeta.
    rewrite Q2R_plus, Q2R_mult, Q2R_minus.
    destruct (Q2R_floor (x * 7919 + level)) as [z [Hz Hbounds]]. rewrite Hz.
    replace (Q2R 0.25) with 0.25%R by (unfold Q2R; simpl; lra).
    replace (Q2R 0.5) with 0.5%R by (unfold Q2R; simpl; lra).
    lra. }
  destruct strict; cbn [val Exact_is_exact]; lra.
Qed.

(** C7: the witness.  From the seed 0.5, the rounds 0, 0, 1 leave a value
    strictly between 0.1 and 1.0. *)
Lemma inaccuracy_recurrence_and_range_witness :
  within (E:=Exact_is_exact) true
    (Inaccuracy.get_inaccuracy
       (Inaccuracy.updates Inputs.exact_randomize (Inaccuracy.make 0.5%Q)
          [0; 0; 1]%Z)).
Proof.
  destruct (inaccuracy_recurrence_and_range Inputs.exact_randomize true 0.5%Q
              [0; 0; 1]%Z (exact_randomize_unit true)) as (_ & Hadvanced & _).
  apply Hadvanced.
  exists 0%Z. split; [left; reflexivity | discriminate].
Defined.

(** C7: the open interval is left in two ways, seen here in double
    precision.
    Whatever [randomize] is, [update(-1)] on a new object advances nothing,
    and [get_inaccuracy()] is the seed, 0.05, which is not above 0.1.  And
    when [randomize] returns 1.0, which lies in the unit range, the
    recurrence gives exactly 1.0, which is not below 1.0. *)
Lemma inaccuracy_outside_open_interval :
  (fun randomize : float -> float -> float =>
     Inaccuracy.get_inaccuracy
       (Inaccuracy.updates randomize (Inaccuracy.make 0.05%float) [(-1)%Z]))
  = (fun _ => 0.05%float)
  /\ (nlit 0.1 <? 0.05%float)%num = false
  /\ Inaccuracy.get_inaccuracy
       (Inaccuracy.updates (fun _ _ => 1%float) (Inaccuracy.make 0.5%float) [0%Z])
     = 1%float
  /\ (1%float <? nlit 1.0)%num = false.
Proof.
  repeat split; vm_compute; reflexivity.
Qed.

(** ** Phase wraparound *)

Section WrapAround.

Context {N : Type} {ops : NumberOps N} {E : ExactNumber N}.
Variable c : Wavetable.Consts (N:=N).

Import Wavetable.
#[local] Open Scope R_scope.

Hypothesis SIZE_positive : (0 < SIZE c)%Z.
Hypothesis SIZE_FLOAT_exact : val (SIZE_FLOAT c) = IZR (SIZE c).
Hypothesis SIZE_INV_exact : val (SIZE_INV c) = / IZR (SIZE c).

Lemma SIZE_real_positive : 0 < IZR (SIZE c).
Proof. apply IZR_lt. exact SIZE_positive. Qed.

(** The result is the index minus a whole number of table lengths, the
    whole number being the floor of [index / SIZE]. *)
Lemma wrap_around_floor (x : N) :
  exists z : Z,
    IZR z <= val x / IZR (SIZE c) < IZR z + 1
    /\ val (wrap_around c x) = val x - IZR z * IZR (SIZE c).
Proof.
  unfold wrap_around.
  destruct (val_floor (x * SIZE_INV c)%num) as [z [Hz Hbounds]].
  exists z. rewrite val_sub, val_mul, Hz, SIZE_FLOAT_exact.
  rewrite val_mul, SIZE_INV_exact in Hbounds.
  split; [exact Hbounds | reflexivity].
Qed.

Lemma floor_unique (r : R) (a b : Z) :
  IZR a <= r < IZR a + 1 -> IZR b <= r < IZR b + 1 -> a = b.
Proof.
  intros Ha Hb.
  assert (Hab : (a < b + 1)%Z) by (apply lt_IZR; rewrite plus_IZR; lra).
  assert (Hba : (b < a + 1)%Z) by (apply lt_IZR; rewrite plus_IZR; lra).
  lia.
Qed.

(** C8, as amended.  Evaluated without rounding, [wrap_around(x)] is the
    floor-based modulo: it is [x - floor(x / SIZE) * SIZE], it lies in
    [0, SIZE) for negative [x] too, and it takes the same value on [x] and on
    [x + k * SIZE] for every integer [k]. *)
Theorem wrap_around_exact (x : N) :
  0 <= val (wrap_around c x) < IZR (SIZE c)
  /\ (exists z : Z,
        IZR z <= val x / IZR (SIZE c) < IZR z + 1
        /\ val (wrap_around c x) = val x - IZR z * IZR (SIZE c))
  /\ (forall (k : Z) (y : N),
        val y = val x + IZR k * IZR (SIZE c) ->
        val (wrap_around c y) = val (wrap_around c x)).
Proof.
  pose proof SIZE_real_positive as Hsize.
  destruct (wrap_around_floor x) as [z [Hz Hx]].
  assert (Hscaled : IZR z * IZR (SIZE c) <= val x < (IZR z + 1) * IZR (SIZE c)).
  { replace (val x) with (val x / IZR (SIZE c) * IZR (SIZE c)) by (field; lra).
    split.
    - apply Rmult_le_compat_r; lra.
    - apply Rmult_lt_compat_r; lra. }
  split; [rewrite Hx; lra |].
  split; [exists z; split; assumption |].
  intros k y Hy.
  destruct (wrap_around_floor y) as [z' [Hz' Hy']].
  assert (Hshift : val y / IZR (SIZE c) = val x / IZR (SIZE c) + IZR k)
    by (rewrite Hy; field; lra).
  assert (Heq : z' = (z + k)%Z).
  { apply (floor_unique (val y / IZR (SIZE c))); [exact Hz' |].
    rewrite plus_IZR, Hshift. lra. }
  rewrite Hy', Hx, Hy, Heq, plus_IZR. ring.
Qed.

End WrapAround.

(** The constants for tables of [2^bits] samples meet the three hypotheses
    in every exact arithmetic. *)
Lemma consts_of_size_exact {N : Type} {ops : NumberOps N} {E : ExactNumber N}
    (bits : Z) (scale : N) :
  (0 <= bits)%Z ->
  (0 < Wavetable.SIZE (Wavetable.consts_of_size bits scale))%Z
  /\ val (Wavetable.SIZE_FLOAT (Wavetable.consts_of_size bits scale))
     = IZR (Wavetable.SIZE (Wavetable.consts_of_size bits scale))
  /\ val (Wavetable.SIZE_INV (Wavetable.consts_of_size bits scale))
     = (/ IZR (Wavetable.SIZE (Wavetable.consts_of_size bits scale)))%R.
Proof.
  intros Hbits. simpl.
  assert (Hpos : (0 < 2 ^ bits)%Z) by (apply Z.pow_pos_nonneg; lia).
  assert (Hreal : (0 < IZR (2 ^ bits))%R) by (apply IZR_lt; exact Hpos).
  split; [exact Hpos |].
  split; [apply val_ofZ |].
  rewrite val_div, val_lit, val_ofZ by (rewrite val_ofZ; lra).
  unfold Q2R; simpl. field. lra.
Qed.

(** C8: the witness.  With four samples per table, [wrap_around(-2.5)] is
    1.5, as it is for [-2.5 + 3 * 4]. *)
Lemma wrap_around_exact_witness :
  (0 <= Q2R (Wavetable.wrap_around Inputs.exact_consts (-2.5)%Q) < 4)%R
  /\ Q2R (Wavetable.wrap_around Inputs.exact_consts 9.5%Q)
     = Q2R (Wavetable.wrap_around Inputs.exact_consts (-2.5)%Q).
Proof.
  assert (Hpos : (0 < Wavetable.SIZE Inputs.exact_consts)%Z) by reflexivity.
  assert (Hfloat : val (Wavetable.SIZE_FLOAT Inputs.exact_consts)
                   = IZR (Wavetable.SIZE Inputs.exact_consts))
    by (simpl; unfold Q2R; simpl; lra).
  assert (Hinv : val (Wavetable.SIZE_INV Inputs.exact_consts)
                 = (/ IZR (Wavetable.SIZE Inputs.exact_consts))%R)
    by (simpl; unfold Q2R; simpl; lra).
  destruct (wrap_around_exact Inputs.exact_consts Hpos Hfloat Hinv (-2.5)%Q)
    as (Hrange & _ & Hperiod).
  split; [exact Hrange |].
  apply (Hperiod 3%Z 9.5%Q). simpl. unfold Q2R; simpl. lra.
Defined.

(** C8: in double precision neither the range nor the periodicity holds.
    For the index -1e-20 the
    floor is -1 and the sum [-1e-20 + SIZE] rounds to [SIZE]: the result is
    not below [SIZE].  That is so for 1024 samples per table and for every
    power of two up to 2^20.  And [wrap_around(0.1 + 1024)] differs from
    [wrap_around(0.1)], the sum having been rounded. *)
Lemma wrap_around_reaches_size :
  Wavetable.wrap_around Inputs.binary64_consts (-1e-20)%float = 1024%float
  /\ (Wavetable.wrap_around Inputs.binary64_consts (-1e-20)%float
      <? Wavetable.SIZE_FLOAT Inputs.binary64_consts)%num = false
  /\ forallb
       (fun bits =>
          let c := Wavetable.consts_of_size bits 0.125%float in
          negb (Wavetable.wrap_around c (-1e-20)%float <? Wavetable.SIZE_FLOAT c)%num)
       (map Z.of_nat (seq 0 21)) = true
  /\ PrimFloat.eqb
       (Wavetable.wrap_around Inputs.binary64_consts (0.1 + 1 * 1024)%float)
       (Wavetable.wrap_around Inputs.binary64_consts 0.1%float) = false.
Proof.
  repeat split; vm_compute; reflexivity.
Qed.

(** What reaching [SIZE] leads to in double precision.  From the 44.1 kHz
    state, a lookup at 1 Hz and one at -1.0000000000000002 Hz leave
    [sample_index = 1024]; the next lookup reads [samples[0][1024]], which
    is outside the table. *)
Lemma lookup_reads_past_table :
  let after_1 := snd (Wavetable.lookup Inputs.binary64_consts Inputs.binary64_sine
                        Inputs.binary64_cd_state 1%float) in
  let after_2 := snd (Wavetable.lookup Inputs.binary64_consts Inputs.binary64_sine
                        after_1 (-1.0000000000000002)%float) in
  Wavetable.sample_index after_2 = 1024%float
  /\ fst (Wavetable.lookup Inputs.binary64_consts Inputs.binary64_sine
            after_2 440%float) = None.
Proof.
  split; vm_compute; reflexivity.
Qed.

(** ** Normalization *)

Section Construction.

Context {N : Type} {ops : NumberOps N}.
Variable c : Wavetable.Consts (N:=N).

Import Wavetable.

(** The constructor succeeds on every coefficient array that is not empty. *)
Lemma make_defined (coefficients : list N) :
  coefficients <> [] ->
  make c coefficients
  = Some {| partials := Z.of_nat (length coefficients);
            samples := map (map (fun sample =>
                                   (sample / peak true (tables c coefficients))%num))
                           (tables c coefficients) |}.
Proof.
  intros Hnonempty. unfold make, update_coefficients. simpl partials.
  destruct coefficients as [| c0 rest]; [contradiction |].
  replace (Z.of_nat (length (c0 :: rest)) <? 1)%Z with false
    by (symmetry; apply Z.ltb_ge; simpl length; lia).
  rewrite Z.ltb_irrefl, Nat2Z.id, firstn_all. reflexivity.
Qed.

End Construction.

(** *** Double precision: a wavetable of silence *)

Lemma SFcompare_refl (a : spec_float) :
  a <> S754_nan -> SFcompare a a = Some Eq.
Proof.
  destruct a as [s|s| |s m e]; intros Hnan; try destruct s; simpl;
    try reflexivity; try contradiction;
    rewrite Z.compare_refl, Pos.compare_cont_refl; reflexivity.
Qed.

Lemma is_nan_Prim2SF (x : float) :
  PrimFloat.is_nan x = true -> Prim2SF x = S754_nan.
Proof.
  unfold PrimFloat.is_nan. rewrite negb_true_iff, eqb_spec. unfold SFeqb.
  intros Hcmp.
  destruct (Prim2SF x) as [s|s| |s m e] eqn:Hx; try reflexivity;
    rewrite SFcompare_refl in Hcmp by discriminate; discriminate.
Qed.

(** A NaN is below no bound, whatever the bound. *)
Lemma nan_exceeds_every_bound (x bound : float) :
  PrimFloat.is_nan x = true -> (nabs x <=? bound)%num = false.
Proof.
  intros Hnan. simpl. rewrite leb_spec, abs_spec, (is_nan_Prim2SF x Hnan).
  reflexivity.
Qed.

(** C3: the code at the failing input.  [Wavetable({0.0}, 1)] is a valid
    construction (one finite coefficient).  Every sample of its table is
    0.0, the peak [max] stays 0.0, and the normalization divides 0.0 by 0.0:
    all 1024 stored samples are NaN, and [|sample| <= bound] holds for no
    bound. *)
Theorem normalization_of_silence_is_nan :
  exists wt : Wavetable.Wavetable (N:=float),
    Wavetable.make Inputs.binary64_consts [0%float] = Some wt
    /\ Wavetable.partials wt = 1%Z
    /\ Wavetable.peak true (Wavetable.tables Inputs.binary64_consts [0%float])
       = 0%float
    /\ map (@length float) (Wavetable.samples wt) = [1024%nat]
    /\ forall table sample bound,
         In table (Wavetable.samples wt) -> In sample table ->
         PrimFloat.is_nan sample = true /\ (nabs sample <=? bound)%num = false.
Proof.
  eexists. split; [vm_compute; reflexivity |].
  split; [reflexivity |].
  split; [vm_compute; reflexivity |].
  split; [vm_compute; reflexivity |].
  intros table sample bound Htable Hsample.
  assert (Hnan : PrimFloat.is_nan sample = true).
  { destruct Htable as [Htable | []]. subst table.
    revert sample Hsample. apply forallb_forall. vm_compute. reflexivity. }
  split; [exact Hnan | apply nan_exceeds_every_bound, Hnan].
Qed.

(** The same for every table size, every table of finite sines and every
    array of zeros. *)
Section Silence.

Variable c : Wavetable.Consts (N:=float).
Hypothesis sines_finite : Forall Binary64.is_finite_valued (Wavetable.sines c).

Import Wavetable.

Lemma zero_times_finite (a s : float) :
  Binary64.is_zero_valued a -> Binary64.is_finite_valued s ->
  Binary64.is_zero_valued (a * s)%float.
Proof.
  unfold Binary64.is_zero_valued, Binary64.is_finite_valued.
  rewrite mul_spec.
  destruct (Prim2SF a), (Prim2SF s); simpl; intros Ha Hs;
    try contradiction; exact I.
Qed.

Lemma zero_plus_zero (a b : float) :
  Binary64.is_zero_valued a -> Binary64.is_zero_valued b ->
  Binary64.is_zero_valued (a + b)%float.
Proof.
  unfold Binary64.is_zero_valued. rewrite add_spec.
  destruct (Prim2SF a) as [sa | | |], (Prim2SF b) as [sb | | |]; simpl;
    intros Ha Hb; try contradiction.
  destruct sa, sb; exact I.
Qed.

Lemma zero_over_zero (x : float) :
  Binary64.is_zero_valued x -> PrimFloat.is_nan (x / 0)%float = true.
Proof.
  unfold Binary64.is_zero_valued. intros Hx.
  unfold PrimFloat.is_nan. rewrite eqb_spec, div_spec.
  destruct (Prim2SF x); try contradiction. reflexivity.
Qed.

Lemma track_max_of_zero (x : float) :
  Binary64.is_zero_valued x -> track_max true 0%float x = 0%float.
Proof.
  unfold Binary64.is_zero_valued, track_max. intros Hx. simpl.
  rewrite ltb_spec, abs_spec.
  destruct (Prim2SF x); try contradiction. reflexivity.
Qed.

Lemma sine_finite (k : Z) : Binary64.is_finite_valued (sine c k).
Proof.
  unfold sine.
  destruct (nth_in_or_default (Z.to_nat (Z.land k (MASK c))) (sines c) (nlit 0))
    as [Hin | Hdefault].
  - exact (proj1 (Forall_forall _ _) sines_finite _ Hin).
  - rewrite Hdefault. exact I.
Qed.

Lemma next_table_of_zeros (previous : list float) (ci : float) (frequency : Z) :
  Forall Binary64.is_zero_valued previous ->
  Binary64.is_zero_valued ci ->
  Forall Binary64.is_zero_valued (next_table c previous ci frequency).
Proof.
  intros Hprevious Hci. unfold next_table. apply Forall_forall. intros x Hx.
  apply in_map_iff in Hx. destruct Hx as [[j p] [Hx Hin]]. subst x.
  apply in_combine_r in Hin. simpl.
  apply zero_plus_zero.
  - exact (proj1 (Forall_forall _ _) Hprevious _ Hin).
  - apply zero_times_finite; [exact Hci | apply sine_finite].
Qed.

Lemma more_tables_of_zeros (coefficients : list float) :
  Forall Binary64.is_zero_valued coefficients ->
  forall (previous : list float) (frequency : Z),
    Forall Binary64.is_zero_valued previous ->
    Forall (Forall Binary64.is_zero_valued)
           (more_tables c previous frequency coefficients).
Proof.
  induction 1 as [| ci rest Hci Hrest IH]; intros previous frequency Hprevious;
    simpl; constructor.
  - apply next_table_of_zeros; assumption.
  - apply IH. apply next_table_of_zeros; assumption.
Qed.

Lemma tables_of_zeros (coefficients : list float) :
  Forall Binary64.is_zero_valued coefficients ->
  Forall (Forall Binary64.is_zero_valued) (tables c coefficients).
Proof.
  intros Hzeros. destruct Hzeros as [| c0 rest Hc0 Hrest]; [constructor |].
  assert (Hfirst : Forall Binary64.is_zero_valued (first_table c c0 1)).
  { unfold first_table. apply Forall_forall. intros x Hx.
    apply in_map_iff in Hx. destruct Hx as [j [Hx _]]. subst x.
    apply zero_times_finite; [exact Hc0 | apply sine_finite]. }
  simpl. constructor; [exact Hfirst |].
  apply more_tables_of_zeros; assumption.
Qed.

Lemma peak_of_zeros (ts : list (list float)) :
  Forall (Forall Binary64.is_zero_valued) ts -> peak true ts = 0%float.
Proof.
  unfold peak. change (nlit 0.0) with 0%float.
  induction ts as [| t ts IH]; intros Hts; [reflexivity |].
  inversion Hts as [| ? ? Ht Hts']; subst. simpl.
  replace (fold_left (track_max true) t 0%float) with 0%float; [apply IH, Hts' |].
  clear IH Hts Hts'. induction t as [| x t IHt]; [reflexivity |].
  inversion Ht as [| ? ? Hx Ht']; subst. simpl.
  rewrite (track_max_of_zero x Hx). apply IHt, Ht'.
Qed.

Lemma silent_wavetable_is_nan (coefficients : list float) (wt : Wavetable) :
  coefficients <> [] ->
  Forall Binary64.is_zero_valued coefficients ->
  make c coefficients = Some wt ->
  forall table sample, In table (samples wt) -> In sample table ->
    PrimFloat.is_nan sample = true.
Proof.
  intros Hnonempty Hzeros Hmake table sample Htable Hsample.
  rewrite (make_defined c coefficients Hnonempty) in Hmake.
  assert (Hwt : samples wt
                = map (map (fun sample => (sample / 0)%float)) (tables c coefficients)).
  { rewrite <- (peak_of_zeros _ (tables_of_zeros coefficients Hzeros)).
    apply (f_equal (fun o => match o with
                             | Some w => samples w
                             | None => []
                             end)) in Hmake.
    symmetry. exact Hmake. }
  rewrite Hwt in Htable.
  apply in_map_iff in Htable. destruct Htable as [raw [Hraw Hin_raw]].
  subst table. apply in_map_iff in Hsample.
  destruct Hsample as [x [Hx Hin_x]]. subst sample.
  apply zero_over_zero.
  pose proof (tables_of_zeros coefficients Hzeros) as Hall.
  exact (proj1 (Forall_forall _ _)
           (proj1 (Forall_forall _ _) Hall _ Hin_raw) _ Hin_x).
Qed.

End Silence.

(** *** Exact arithmetic: a peak other than zero *)

Section NormalizationExact.

Context {N : Type} {ops : NumberOps N} {E : ExactNumber N}.
Variable c : Wavetable.Consts (N:=N).

Import Wavetable.
#[local] Open Scope R_scope.

Lemma val_track_max (max stored : N) :
  val (track_max true max stored) = Rmax (val max) (Rabs (val stored)).
Proof.
  unfold track_max. simpl andb.
  destruct (nabs stored >? max)%num eqn:Hgt.
  - apply val_ltb in Hgt. rewrite val_abs in *. rewrite Rmax_right; lra.
  - assert (Hle : ~ val max < val (nabs stored))
      by (intros Hlt; apply val_ltb in Hlt; congruence).
    rewrite val_abs in Hle. rewrite Rmax_left; lra.
Qed.

Lemma table_max_bounds (table : list N) (max : N) :
  val max <= val (fold_left (track_max true) table max)
  /\ forall sample, In sample table ->
       Rabs (val sample) <= val (fold_left (track_max true) table max).
Proof.
  revert max. induction table as [| s table IH]; intros max; simpl.
  - split; [lra | intros sample []].
  - destruct (IH (track_max true max s)) as [Hmax Hall].
    rewrite val_track_max in Hmax.
    pose proof (Rmax_l (val max) (Rabs (val s))).
    pose proof (Rmax_r (val max) (Rabs (val s))).
    split; [lra |].
    intros sample [Heq | Hin]; [subst sample; lra | apply Hall, Hin].
Qed.

Lemma tables_max_bounds (ts : list (list N)) (max : N) :
  let final :=
    fold_left (fun max table => fold_left (track_max true) table max) ts max in
  val max <= val final
  /\ forall table sample, In table ts -> In sample table ->
       Rabs (val sample) <= val final.
Proof.
  revert max. induction ts as [| t ts IH]; intros max; simpl.
  - split; [lra | intros table sample []].
  - destruct (IH (fold_left (track_max true) t max)) as [Hmax Hall].
    destruct (table_max_bounds t max) as [Hmax_t Hall_t].
    split; [lra |].
    intros table sample [Heq | Hin] Hsample.
    + subst table. specialize (Hall_t sample Hsample). lra.
    + apply (Hall table sample Hin Hsample).
Qed.

Lemma peak_bounds (ts : list (list N)) :
  0 <= val (peak true ts)
  /\ forall table sample, In table ts -> In sample table ->
       Rabs (val sample) <= val (peak true ts).
Proof.
  unfold peak. destruct (tables_max_bounds ts (nlit 0.0)) as [Hmax Hall].
  rewrite val_lit in Hmax. unfold Q2R in Hmax; simpl in Hmax.
  split; [lra | exact Hall].
Qed.

(** In exact arithmetic, a wavetable constructed from at least one
    coefficient, whose tables have a peak other than zero, holds no sample
    above 1 in magnitude. *)
Lemma normalized_samples_bounded (coefficients : list N) (wt : Wavetable) :
  coefficients <> [] ->
  val (peak true (tables c coefficients)) <> 0 ->
  make c coefficients = Some wt ->
  forall table sample, In table (samples wt) -> In sample table ->
    Rabs (val sample) <= 1.
Proof.
  intros Hnonempty Hpeak Hmake table sample Htable Hsample.
  rewrite (make_defined c coefficients Hnonempty) in Hmake.
  injection Hmake as Hwt. subst wt. simpl in Htable.
  apply in_map_iff in Htable. destruct Htable as [raw [Hraw Hin_raw]].
  subst table. apply in_map_iff in Hsample.
  destruct Hsample as [s [Hs Hin_s]]. subst sample.
  destruct (peak_bounds (tables c coefficients)) as [Hnonneg Hall].
  specialize (Hall raw s Hin_raw Hin_s).
  rewrite val_div by exact Hpeak.
  unfold Rdiv. rewrite Rabs_mult, Rabs_inv.
  rewrite (Rabs_pos_eq (val (peak true (tables c coefficients)))) by exact Hnonneg.
  apply (Rmult_le_reg_r (val (peak true (tables c coefficients)))); [lra |].
  rewrite Rmult_assoc, Rinv_l by exact Hpeak. lra.
Qed.

End NormalizationExact.

(** ** Voice lifecycle *)

Section VoiceLifecycle.

Context {N : Type} {ops : NumberOps N}.
Variable e : Voice.Env (N:=N).

Import Voice.

Lemma State_eqb_eq (a b : State) : State_eqb a b = true <-> a = b.
Proof.
  destruct a, b; simpl; split; intros H; try reflexivity; discriminate.
Qed.

(** C2.  [note_on] on a voice whose state is [ON], or with a note at or
    above [Midi::NOTES], returns the voice as it was: [state], [note_id],
    [note], [channel] and everything else are unchanged.  [note_off] with a
    [note_id] or a [note] other than the ones the voice holds returns the
    voice as it was as well, so a voice that is [ON] stays [ON] with the same
    note. *)
Theorem note_on_note_off_noops (v : Voice) (time_offset : N)
    (note_id note channel : Z) (velocity : N) (previous_note : Z) :
  (state v = ON \/ (NOTES e <= note)%Z ->
   note_on e v time_offset note_id note channel velocity previous_note = v)
  /\ (note_id <> get_note_id v \/ note <> get_note v ->
      note_off e v time_offset note_id note velocity = v
      /\ (state v = ON ->
          state (note_off e v time_offset note_id note velocity) = ON
          /\ get_note_id (note_off e v time_offset note_id note velocity)
             = get_note_id v
          /\ get_note (note_off e v time_offset note_id note velocity)
             = get_note v)).
Proof.
  split.
  - intros Hnoop. unfold note_on.
    replace (State_eqb (state v) ON || (NOTES e <=? note)%Z) with true;
      [reflexivity |].
    symmetry. apply orb_true_iff.
    destruct Hnoop as [Hon | Hrange].
    + left. apply State_eqb_eq, Hon.
    + right. apply Z.leb_le, Hrange.
  - intros Hmismatch.
    assert (Hsame : note_off e v time_offset note_id note velocity = v).
    { unfold note_off.
      replace (negb (State_eqb (state v) ON)
               || negb (note_id =? get_note_id v)%Z
               || negb (note =? get_note v)%Z) with true; [reflexivity |].
      symmetry. rewrite !orb_true_iff, !negb_true_iff.
      destruct Hmismatch as [Hid | Hnote].
      - left. right. apply Z.eqb_neq, Hid.
      - right. apply Z.eqb_neq, Hnote. }
    rewrite Hsame. repeat split; assumption.
Qed.

(** The lifecycle fields are untouched by calls on the sub-objects. *)
Lemma call_state (v : Voice (N:=N)) (cs : list (Call (N:=N))) : state (call v cs) = state v.
Proof. reflexivity. Qed.

Lemma call_note_id (v : Voice (N:=N)) (cs : list (Call (N:=N))) :
  Voice.note_id (call v cs) = Voice.note_id v.
Proof. reflexivity. Qed.

Lemma call_note (v : Voice (N:=N)) (cs : list (Call (N:=N))) : Voice.note (call v cs) = Voice.note v.
Proof. reflexivity. Qed.

Lemma call_channel (v : Voice (N:=N)) (cs : list (Call (N:=N))) :
  Voice.channel (call v cs) = Voice.channel v.
Proof. reflexivity. Qed.

Lemma call_inaccuracy (v : Voice (N:=N)) (cs : list (Call (N:=N))) :
  inaccuracy (call v cs) = inaccuracy v.
Proof. reflexivity. Qed.

Lemma set_up_oscillator_frequency_lifecycle (v : Voice) (time_offset : N)
    (note channel previous_note : Z) :
  let v' := set_up_oscillator_frequency e v time_offset note channel previous_note in
  state v' = state v /\ Voice.note_id v' = Voice.note_id v
  /\ Voice.note v' = Voice.note v /\ Voice.channel v' = Voice.channel v
  /\ inaccuracy v' = inaccuracy v.
Proof.
  unfold set_up_oscillator_frequency.
  destruct (nleb (param_portamento_length e) (sampling_period e));
    repeat split; reflexivity.
Qed.

(** The transitions that the no-ops leave out do happen: a released voice
    given a note below [Midi::NOTES] turns [ON] and holds the note, and the
    matching [note_off] releases it. *)
Lemma note_on_starts_note (v : Voice) (time_offset : N)
    (note_id note channel : Z) (velocity : N) (previous_note : Z) :
  state v = OFF -> (note < NOTES e)%Z ->
  let v' := note_on e v time_offset note_id note channel velocity previous_note in
  state v' = ON /\ get_note_id v' = note_id /\ get_note v' = note
  /\ get_channel v' = channel
  /\ get_inaccuracy v'
     = Inaccuracy.calculate_new_inaccuracy (Math_randomize e) (get_inaccuracy v).
Proof.
  intros Hoff Hrange. unfold note_on. rewrite Hoff. simpl State_eqb.
  replace (NOTES e <=? note)%Z with false by (symmetry; apply Z.leb_gt, Hrange).
  simpl orb. cbv zeta.
  match goal with
  | |- context [set_up_oscillator_frequency e ?w ?t ?n ?ch ?p] =>
      destruct (set_up_oscillator_frequency_lifecycle w t n ch p)
        as (Hs & Hi & Hn & Hc & Ha)
  end.
  unfold get_note_id, get_note, get_channel, get_inaccuracy.
  rewrite !call_state, !call_note_id, !call_note, !call_channel, !call_inaccuracy.
  rewrite Hs, Hi, Hn, Hc, Ha. repeat split; reflexivity.
Qed.

Lemma note_off_releases (v : Voice) (time_offset velocity : N) :
  state v = ON ->
  state (note_off e v time_offset (get_note_id v) (get_note v) velocity) = OFF.
Proof.
  intros Hon. unfold note_off. rewrite Hon, !Z.eqb_refl. reflexivity.
Qed.

End VoiceLifecycle.

(** C2: the witness.  The voice that plays the note 60 with the identifier 1
    ignores a second [note_on], and ignores the [note_off] of the
    identifier 2. *)
Lemma note_on_note_off_noops_witness :
  Voice.state Inputs.exact_voice_on = Voice.ON
  /\ Voice.note_on Inputs.exact_env Inputs.exact_voice_on 0%Q 2 61 0 1%Q 60
     = Inputs.exact_voice_on
  /\ Voice.note_off Inputs.exact_env Inputs.exact_voice_on 0.5%Q 2 60 0%Q
     = Inputs.exact_voice_on.
Proof.
  assert (Hon : Voice.state Inputs.exact_voice_on = Voice.ON) by reflexivity.
  split; [exact Hon |].
  split.
  - apply (proj1 (note_on_note_off_noops Inputs.exact_env Inputs.exact_voice_on
                    0%Q 2 61 0 1%Q 60)).
    left. exact Hon.
  - apply (proj2 (note_on_note_off_noops Inputs.exact_env Inputs.exact_voice_on
                    0.5%Q 2 60 0 0%Q 60)).
    left. vm_compute. discriminate.
Defined.

(** ** Rendering: the pan law *)

Section ArrayFacts.

Context {A : Type}.

Import Wavetable (at_index).

Lemma at_index_Some (a : list A) (i : Z) :
  (0 <= i < Z.of_nat (length a))%Z -> exists x, at_index a i = Some x.
Proof.
  intros Hi. unfold at_index.
  replace (i <? 0)%Z with false by (symmetry; apply Z.ltb_ge; lia).
  destruct (nth_error a (Z.to_nat i)) as [x |] eqn:Hnth; [exists x; reflexivity |].
  apply nth_error_None in Hnth. lia.
Qed.

Lemma length_set_nth (a : list A) (i : nat) (value : A) :
  length (Voice.set_nth a i value) = length a.
Proof.
  revert i. induction a as [| x a IH]; intros [| i]; simpl; try reflexivity.
  rewrite IH. reflexivity.
Qed.

Lemma nth_error_set_nth_same (a : list A) (i : nat) (value : A) :
  (i < length a)%nat -> nth_error (Voice.set_nth a i value) i = Some value.
Proof.
  revert i. induction a as [| x a IH]; intros [| i] Hi; simpl in *; try lia.
  - reflexivity.
  - apply IH. lia.
Qed.

Lemma nth_error_set_nth_other (a : list A) (i j : nat) (value : A) :
  i <> j -> nth_error (Voice.set_nth a i value) j = nth_error a j.
Proof.
  revert i j. induction a as [| x a IH]; intros [| i] [| j] Hij; simpl;
    try reflexivity; try contradiction.
  apply IH. intros Heq. apply Hij. rewrite Heq. reflexivity.
Qed.

Lemma at_index_set_nth_same (a : list A) (i : Z) (value : A) :
  (0 <= i < Z.of_nat (length a))%Z ->
  at_index (Voice.set_nth a (Z.to_nat i) value) i = Some value.
Proof.
  intros Hi. unfold at_index.
  replace (i <? 0)%Z with false by (symmetry; apply Z.ltb_ge; lia).
  apply nth_error_set_nth_same. lia.
Qed.

Lemma at_index_set_nth_other (a : list A) (i j : Z) (value : A) :
  (0 <= i)%Z -> i <> j ->
  at_index (Voice.set_nth a (Z.to_nat i) value) j = at_index a j.
Proof.
  intros Hi Hij. unfold at_index.
  destruct (j <? 0)%Z eqn:Hj; [reflexivity |].
  apply Z.ltb_ge in Hj. apply nth_error_set_nth_other. lia.
Qed.

End ArrayFacts.

Section RenderPanLaw.

Context {N : Type} {ops : NumberOps N}.
Variable e : Voice.Env (N:=N).

Import Voice.
Import Wavetable (at_index, bind).

Lemma render_one_body (v : Voice) (round first last : Z) (buffer : list (list N)) :
  render e v round first last buffer = for_loop first last (pan_body e v) buffer.
Proof.
  unfold render, pan_body, panning_input.
  destruct (note_panning_buffer v), (panning_buffer v); reflexivity.
Qed.

Lemma gains_eq (sum : N) :
  gains e sum = (Math_cos e (x_of e sum), Math_sin e (x_of e sum)).
Proof. reflexivity. Qed.

Lemma pan_body_step (v : Voice) (i : Z) (l r : list N) (rest : list (list N))
    (left_sample right_sample : N) :
  stored_sample e v i = Some (left_sample, right_sample) ->
  (0 <= i < Z.of_nat (length l))%Z ->
  (0 <= i < Z.of_nat (length r))%Z ->
  pan_body e v i (l :: r :: rest)
  = Some (set_nth l (Z.to_nat i) left_sample
          :: set_nth r (Z.to_nat i) right_sample :: rest).
Proof.
  intros Hsample Hl Hr. unfold stored_sample in Hsample. unfold pan_body.
  destruct (panning_input (panning_buffer v) (panning_value v) i) as [p |];
    [| discriminate].
  destruct (panning_input (note_panning_buffer v) (note_panning_value v) i)
    as [np |]; [| discriminate].
  cbn [bind] in *. rewrite gains_eq. unfold write_stereo.
  destruct (at_index (volume_applier_buffer v) i) as [mono |]; [| discriminate].
  cbn [bind] in *. injection Hsample as Hleft Hright.
  subst left_sample right_sample.
  destruct (at_index_Some l i Hl) as [xl Hxl].
  destruct (at_index_Some r i Hr) as [xr Hxr].
  unfold store. change (at_index (l :: r :: rest) 0) with (Some l).
  cbn [bind]. rewrite Hxl. cbn [bind].
  change (Z.to_nat 0) with O. cbn [set_nth].
  match goal with
  | |- context [at_index (?x :: r :: rest) 1] =>
      change (at_index (x :: r :: rest) 1) with (Some r)
  end.
  cbn [bind]. rewrite Hxr. reflexivity.
Qed.

Lemma iterate_pan_body (v : Voice) (rest : list (list N)) (count : nat) :
  forall (i : Z) (l r : list N),
    (0 <= i)%Z ->
    (i + Z.of_nat count <= Z.of_nat (length l))%Z ->
    (i + Z.of_nat count <= Z.of_nat (length r))%Z ->
    (forall j, (i <= j < i + Z.of_nat count)%Z -> stored_sample e v j <> None) ->
    exists l' r',
      iterate (pan_body e v) i count (l :: r :: rest) = Some (l' :: r' :: rest)
      /\ length l' = length l /\ length r' = length r
      /\ (forall j, (i <= j < i + Z.of_nat count)%Z ->
            option_map fst (stored_sample e v j) = at_index l' j
            /\ option_map snd (stored_sample e v j) = at_index r' j)
      /\ (forall j, ~ (i <= j < i + Z.of_nat count)%Z ->
            at_index l' j = at_index l j /\ at_index r' j = at_index r j).
Proof.
  induction count as [| count IH]; intros i l r Hi Hl Hr Hdefined.
  - exists l, r. simpl.
    split; [reflexivity |]. split; [reflexivity |]. split; [reflexivity |].
    split; [intros j Hj; lia | intros j Hj; split; reflexivity].
  - destruct (stored_sample e v i) as [[lv rv] |] eqn:Hsample;
      [| exfalso; apply (Hdefined i); [lia | exact Hsample]].
    simpl iterate.
    rewrite (pan_body_step v i l r rest lv rv Hsample) by lia.
    simpl bind.
    destruct (IH (i + 1)%Z (set_nth l (Z.to_nat i) lv) (set_nth r (Z.to_nat i) rv))
      as (l' & r' & Hrun & Hlen_l & Hlen_r & Hin & Hout).
    + lia.
    + rewrite length_set_nth. lia.
    + rewrite length_set_nth. lia.
    + intros j Hj. apply Hdefined. lia.
    + exists l', r'. rewrite length_set_nth in Hlen_l, Hlen_r.
      split; [exact Hrun |]. split; [exact Hlen_l |]. split; [exact Hlen_r |].
      split.
      * intros j Hj. destruct (Z.eq_dec j i) as [Heq | Hne].
        -- subst j. destruct (Hout i ltac:(lia)) as [Hl' Hr'].
           rewrite Hl', Hr', Hsample, !at_index_set_nth_same by lia.
           split; reflexivity.
        -- apply Hin. lia.
      * intros j Hj. destruct (Hout j ltac:(lia)) as [Hl' Hr'].
        rewrite Hl', Hr', !at_index_set_nth_other by lia.
        split; reflexivity.
Qed.

(** Inside the buffers every input of the loop body can be read. *)
Lemma stored_sample_defined (v : Voice) (last j : Z) :
  (last <= Z.of_nat (length (volume_applier_buffer v)))%Z ->
  (forall b, panning_buffer v = Some b -> (last <= Z.of_nat (length b))%Z) ->
  (forall b, note_panning_buffer v = Some b -> (last <= Z.of_nat (length b))%Z) ->
  (0 <= j < last)%Z ->
  exists p np mono,
    panning_input (panning_buffer v) (panning_value v) j = Some p
    /\ panning_input (note_panning_buffer v) (note_panning_value v) j = Some np
    /\ at_index (volume_applier_buffer v) j = Some mono
    /\ stored_sample e v j
       = Some (equal_power e (panning_of (nadd p np)) mono).
Proof.
  intros Hmono Hpan Hnote Hj.
  assert (Hp : exists p, panning_input (panning_buffer v) (panning_value v) j = Some p).
  { unfold panning_input. destruct (panning_buffer v) as [b |].
    - apply at_index_Some. specialize (Hpan b eq_refl). lia.
    - eexists. reflexivity. }
  assert (Hnp : exists np,
             panning_input (note_panning_buffer v) (note_panning_value v) j = Some np).
  { unfold panning_input. destruct (note_panning_buffer v) as [b |].
    - apply at_index_Some. specialize (Hnote b eq_refl). lia.
    - eexists. reflexivity. }
  destruct Hp as [p Hp]. destruct Hnp as [np Hnp].
  destruct (at_index_Some (volume_applier_buffer v) j ltac:(lia)) as [mono Hm].
  exists p, np, mono. unfold stored_sample. rewrite Hp, Hnp. simpl.
  rewrite Hm. simpl. repeat split; reflexivity.
Qed.

(** [std::min(1.0, std::max(sum, -1.0))] by cases: -1.0 for a sum below
    -1.0, the sum itself when it is not below -1.0 but below 1.0, and 1.0
    for every other sum. *)
Lemma panning_of_cases (sum : N) :
  (nltb (nlit (-1.0)) (nlit 1.0) = true ->
   nltb sum (nlit (-1.0)) = true -> panning_of sum = nlit (-1.0))
  /\ (nltb sum (nlit (-1.0)) = false -> nltb sum (nlit 1.0) = true ->
      panning_of sum = sum)
  /\ (nltb sum (nlit (-1.0)) = false -> nltb sum (nlit 1.0) = false ->
      panning_of sum = nlit 1.0).
Proof.
  unfold panning_of, std_min, std_max. split; [| split].
  - intros Hliterals Hlow. rewrite Hlow, Hliterals. reflexivity.
  - intros Hlow Hhigh. rewrite Hlow, Hhigh. reflexivity.
  - intros Hlow Hhigh. rewrite Hlow, Hhigh. reflexivity.
Qed.

(** In exact arithmetic that is the sum clamped to [-1, 1]. *)
Lemma panning_of_clamped (E : ExactNumber N) (sum : N) :
  val (panning_of sum) = clamped_pan (val sum).
Proof.
  unfold panning_of, std_min, std_max, clamped_pan.
  assert (Hone : val (nlit 1.0) = 1%R) by (rewrite val_lit; unfold Q2R; simpl; lra).
  assert (Hminus : val (nlit (-1.0)) = (-1)%R)
    by (rewrite val_lit; unfold Q2R; simpl; lra).
  destruct (nltb sum (nlit (-1.0))) eqn:Hlow.
  - apply val_ltb in Hlow. rewrite Hminus in Hlow.
    replace (nltb (nlit (-1.0)) (nlit 1.0)) with true
      by (symmetry; apply val_ltb; rewrite Hminus, Hone; lra).
    rewrite Hminus, (Rmin_right 1 (val sum)) by lra.
    rewrite Rmax_left by lra. reflexivity.
  - assert (Hsum : (-1 <= val sum)%R).
    { apply Rnot_lt_le. intros Hlt. rewrite <- Hminus in Hlt.
      apply val_ltb in Hlt. congruence. }
    destruct (nltb sum (nlit 1.0)) eqn:Hhigh.
    + apply val_ltb in Hhigh. rewrite Hone in Hhigh.
      rewrite (Rmin_right 1 (val sum)) by lra.
      rewrite Rmax_right by lra. reflexivity.
    + assert (Hge : (1 <= val sum)%R).
      { apply Rnot_lt_le. intros Hlt. rewrite <- Hone in Hlt.
        apply val_ltb in Hlt. congruence. }
      rewrite Hone, (Rmin_left 1 (val sum)) by lra.
      rewrite Rmax_right by lra. reflexivity.
Qed.

(** C9.  For a block [first, last) that lies inside the buffers, and for
    each of the four combinations of constant and buffered panning inputs,
    [render] writes the equal-power pan law: at every [i] of the block the
    left sample is [cos(x) * mono] and the right sample is [sin(x) * mono],
    with [mono = volume_applier_buffer[i]], [x = (pan + 1) * PI_QUARTER] and
    [pan] the sum of the panning parameter and the note panning at [i],
    clamped: -1.0 for a sum below -1.0, the sum itself when it is below 1.0,
    and 1.0 otherwise; in exact arithmetic [max(-1, min(1, sum))].  Samples
    outside the block and other channels are left as they were. *)
Theorem render_equal_power_pan (v : Voice) (round first last : Z)
    (left right : list N) (rest : list (list N)) :
  (0 <= first <= last)%Z ->
  (last <= Z.of_nat (length (volume_applier_buffer v)))%Z ->
  (forall b, panning_buffer v = Some b -> (last <= Z.of_nat (length b))%Z) ->
  (forall b, note_panning_buffer v = Some b -> (last <= Z.of_nat (length b))%Z) ->
  (last <= Z.of_nat (length left))%Z ->
  (last <= Z.of_nat (length right))%Z ->
  exists left' right',
    render e v round first last (left :: right :: rest)
    = Some (left' :: right' :: rest)
    /\ length left' = length left /\ length right' = length right
    /\ (forall i, (first <= i < last)%Z ->
          exists p np mono pan,
            panning_input (panning_buffer v) (panning_value v) i = Some p
            /\ panning_input (note_panning_buffer v) (note_panning_value v) i
               = Some np
            /\ at_index (volume_applier_buffer v) i = Some mono
            /\ at_index left' i = Some (fst (equal_power e pan mono))
            /\ at_index right' i = Some (snd (equal_power e pan mono))
            /\ (nltb (nlit (-1.0)) (nlit 1.0) = true ->
                nltb (nadd p np) (nlit (-1.0)) = true -> pan = nlit (-1.0))
            /\ (nltb (nadd p np) (nlit (-1.0)) = false ->
                nltb (nadd p np) (nlit 1.0) = true -> pan = nadd p np)
            /\ (nltb (nadd p np) (nlit (-1.0)) = false ->
                nltb (nadd p np) (nlit 1.0) = false -> pan = nlit 1.0)
            /\ (forall E : ExactNumber N,
                  val pan = clamped_pan (val p + val np)))
    /\ (forall i, ~ (first <= i < last)%Z ->
          at_index left' i = at_index left i
          /\ at_index right' i = at_index right i).
Proof.
  intros Hblock Hmono Hpan Hnote Hleft Hright.
  assert (Hdefined : forall j, (first <= j < first + Z.of_nat (Z.to_nat (last - first)))%Z ->
                               stored_sample e v j <> None).
  { intros j Hj.
    destruct (stored_sample_defined v last j Hmono Hpan Hnote ltac:(lia))
      as (p & np & mono & _ & _ & _ & Hsample).
    rewrite Hsample. discriminate. }
  destruct (iterate_pan_body v rest (Z.to_nat (last - first)) first left right
              ltac:(lia) ltac:(lia) ltac:(lia) Hdefined)
    as (l' & r' & Hrun & Hlen_l & Hlen_r & Hin & Hout).
  exists l', r'.
  split.
  { rewrite render_one_body. unfold for_loop.
    replace (last <? first)%Z with false by (symmetry; apply Z.ltb_ge; lia).
    exact Hrun. }
  split; [exact Hlen_l |]. split; [exact Hlen_r |].
  split.
  { intros i Hi.
    destruct (stored_sample_defined v last i Hmono Hpan Hnote ltac:(lia))
      as (p & np & mono & Hp & Hnp & Hm & Hsample).
    exists p, np, mono, (panning_of (nadd p np)).
    destruct (Hin i ltac:(lia)) as [Hl' Hr'].
    rewrite Hsample in Hl', Hr'. cbn [option_map] in Hl', Hr'.
    destruct (panning_of_cases (nadd p np)) as (Hbelow & Hinside & Habove).
    split; [exact Hp |]. split; [exact Hnp |]. split; [exact Hm |].
    split; [symmetry; exact Hl' |]. split; [symmetry; exact Hr' |].
    split; [exact Hbelow |]. split; [exact Hinside |]. split; [exact Habove |].
    intros E. rewrite <- val_add. apply panning_of_clamped. }
  intros i Hi. apply Hout. lia.
Qed.

End RenderPanLaw.

(** C9: the witness.  A block of three samples, with a constant panning of
    0.25 and a buffered note panning, is rendered into two channels of four
    samples.  At the index 1 the sum of the inputs is 0.75, which is the pan
    position; at the index 2 it is 1.25, and the pan position is 1.0; the
    sample at the index 0, before the block, is kept. *)
Lemma render_equal_power_pan_witness :
  exists left' right' : list Q,
    Voice.render Inputs.exact_env Inputs.exact_voice 7 1 4
      [[9; 9; 9; 9]; [9; 9; 9; 9]]%Q
    = Some [left'; right']
    /\ Wavetable.at_index left' 0 = Some 9%Q
    /\ Wavetable.at_index left' 1
       = Some (fst (Voice.equal_power Inputs.exact_env (0.25 + 0.5) 0.5))
    /\ Wavetable.at_index right' 1
       = Some (snd (Voice.equal_power Inputs.exact_env (0.25 + 0.5) 0.5))
    /\ Wavetable.at_index left' 2
       = Some (fst (Voice.equal_power Inputs.exact_env 1.0 (-0.5)))
    /\ Wavetable.at_index right' 2
       = Some (snd (Voice.equal_power Inputs.exact_env 1.0 (-0.5))).
Proof.
  destruct (render_equal_power_pan Inputs.exact_env Inputs.exact_voice 7 1 4
              [9; 9; 9; 9]%Q [9; 9; 9; 9]%Q [])
    as (l & r & Hrun & _ & _ & Hin & Hout).
  - lia.
  - simpl. lia.
  - intros b Hb. discriminate Hb.
  - intros b Hb. injection Hb as Hb. subst b. simpl. lia.
  - simpl. lia.
  - simpl. lia.
  - exists l, r. split; [exact Hrun |].
    split; [apply (Hout 0%Z); lia |].
    destruct (Hin 1%Z ltac:(lia))
      as (p1 & np1 & mono1 & pan1 & Hp1 & Hnp1 & Hm1 & Hl1 & Hr1 & _ & Hpan1 & _).
    destruct (Hin 2%Z ltac:(lia))
      as (p2 & np2 & mono2 & pan2 & Hp2 & Hnp2 & Hm2 & Hl2 & Hr2 & _ & _ & Hpan2 & _).
    injection Hp1 as <-. injection Hnp1 as <-. injection Hm1 as <-.
    injection Hp2 as <-. injection Hnp2 as <-. injection Hm2 as <-.
    rewrite (Hpan1 eq_refl eq_refl) in Hl1, Hr1.
    rewrite (Hpan2 eq_refl eq_refl) in Hl2, Hr2.
    repeat split; assumption.
Defined.

(** * Further properties *)

#[local] Set Warnings "-notation-for-abbreviation".

(** ** Construction of the tables *)

Section ConstructedShape.

Context {N : Type} {ops : NumberOps N}.
Variable c : Wavetable.Consts (N:=N).

Import Wavetable.

Lemma length_sample_positions : length (sample_positions c) = Z.to_nat (SIZE c).
Proof. unfold sample_positions. rewrite length_map, length_seq. reflexivity. Qed.

Lemma length_first_table (coefficient : N) (frequency : Z) :
  length (first_table c coefficient frequency) = Z.to_nat (SIZE c).
Proof. unfold first_table. rewrite length_map. apply length_sample_positions. Qed.

Lemma length_next_table (previous : list N) (coefficient : N) (frequency : Z) :
  length previous = Z.to_nat (SIZE c) ->
  length (next_table c previous coefficient frequency) = Z.to_nat (SIZE c).
Proof.
  intros Hprevious. unfold next_table.
  rewrite length_map, length_combine, length_sample_positions, Hprevious.
  apply Nat.min_id.
Qed.

Lemma more_tables_shape (coefficients : list N) :
  forall (previous : list N) (frequency : Z),
    length previous = Z.to_nat (SIZE c) ->
    length (more_tables c previous frequency coefficients) = length coefficients
    /\ Forall (fun table => length table = Z.to_nat (SIZE c))
              (more_tables c previous frequency coefficients).
Proof.
  induction coefficients as [| ci rest IH]; intros previous frequency Hprevious;
    simpl.
  - split; [reflexivity | constructor].
  - destruct (IH (next_table c previous ci (frequency + 1)) (frequency + 1)%Z
                (length_next_table previous ci (frequency + 1) Hprevious))
      as [Hlength Hall].
    split; [rewrite Hlength; reflexivity |].
    constructor; [apply length_next_table, Hprevious | exact Hall].
Qed.

Lemma tables_shape (coefficients : list N) :
  length (tables c coefficients) = length coefficients
  /\ Forall (fun table => length table = Z.to_nat (SIZE c)) (tables c coefficients).
Proof.
  destruct coefficients as [| c0 rest]; simpl.
  - split; [reflexivity | constructor].
  - destruct (more_tables_shape rest (first_table c c0 1) 1 (length_first_table c0 1))
      as [Hlength Hall].
    split; [rewrite Hlength; reflexivity |].
    constructor; [apply length_first_table | exact Hall].
Qed.

Lemma make_nonempty (coefficients : list N) (wt : Wavetable) :
  make c coefficients = Some wt -> coefficients <> [].
Proof.
  intros Hmake Hempty. subst coefficients. discriminate Hmake.
Qed.

Lemma make_well_shaped (coefficients : list N) (wt : Wavetable) :
  make c coefficients = Some wt -> Phase.well_shaped c wt.
Proof.
  intros Hmake.
  pose proof (make_nonempty coefficients wt Hmake) as Hnonempty.
  rewrite (make_defined c coefficients Hnonempty) in Hmake.
  injection Hmake as Hwt. subst wt. unfold Phase.well_shaped.
  cbn [partials samples].
  destruct (tables_shape coefficients) as [Hlength Hall].
  split; [destruct coefficients; [contradiction | simpl length; lia] |].
  split.
  - rewrite length_map, Hlength, Nat2Z.id. reflexivity.
  - apply Forall_forall. intros table Htable.
    apply in_map_iff in Htable. destruct Htable as [raw [Hraw Hin]]. subst table.
    rewrite length_map. exact (proj1 (Forall_forall _ _) Hall raw Hin).
Qed.

(** X1.  From [count >= 1] coefficients the constructor builds exactly
    [count] tables of [SIZE] samples each, with [partials = count].  With no
    coefficient it has no defined result: [update_coefficients] reads
    [coefficients[0]] and writes [samples[0][j]], outside both arrays. *)
Theorem constructed_shape (coefficients : list N) :
  (coefficients = [] -> make c coefficients = None)
  /\ (coefficients <> [] ->
      exists wt,
        make c coefficients = Some wt
        /\ partials wt = Z.of_nat (length coefficients)
        /\ length (samples wt) = length coefficients
        /\ Forall (fun table => length table = Z.to_nat (SIZE c)) (samples wt)).
Proof.
  split.
  - intros Hempty. subst coefficients. reflexivity.
  - intros Hnonempty. eexists. split; [apply make_defined, Hnonempty |].
    destruct (tables_shape coefficients) as [Hlength Hall].
    split; [reflexivity |].
    split; [cbn [samples]; rewrite length_map; exact Hlength |].
    cbn [samples]. apply Forall_forall. intros table Htable.
    apply in_map_iff in Htable. destruct Htable as [raw [Hraw Hin]]. subst table.
    rewrite length_map. exact (proj1 (Forall_forall _ _) Hall raw Hin).
Qed.

End ConstructedShape.

(** ** The peak of the tables is reached *)

Section PeakReached.

Context {N : Type} {ops : NumberOps N} {E : ExactNumber N}.
Variable c : Wavetable.Consts (N:=N).

Import Wavetable.
#[local] Open Scope R_scope.

Lemma table_max_reached (table : list N) (max : N) :
  fold_left (track_max true) table max = max
  \/ exists sample, In sample table
       /\ val (fold_left (track_max true) table max) = Rabs (val sample).
Proof.
  revert max. induction table as [| s table IH]; intros max; simpl.
  - left. reflexivity.
  - destruct (IH (track_max true max s)) as [Hsame | [sample [Hin Hval]]].
    + rewrite Hsame. unfold track_max. simpl andb.
      destruct (nabs s >? max)%num.
      * right. exists s. split; [left; reflexivity | apply val_abs].
      * left. reflexivity.
    + right. exists sample. split; [right; exact Hin | exact Hval].
Qed.

Lemma tables_max_reached (ts : list (list N)) (max : N) :
  let final :=
    fold_left (fun max table => fold_left (track_max true) table max) ts max in
  final = max
  \/ exists table sample,
       In table ts /\ In sample table /\ val final = Rabs (val sample).
Proof.
  revert max. induction ts as [| t ts IH]; intros max; simpl.
  - left. reflexivity.
  - destruct (IH (fold_left (track_max true) t max))
      as [Hsame | [table [sample [Htable [Hsample Hval]]]]].
    + rewrite Hsame.
      destruct (table_max_reached t max) as [Hmax | [sample [Hin Hval]]].
      * left. exact Hmax.
      * right. exists t, sample. repeat split; [left; reflexivity | | ]; assumption.
    + right. exists table, sample. repeat split; [right | | ]; assumption.
Qed.

(** X2.  In exact arithmetic, when the peak of the raw tables is not zero,
    the constructor scales by it: no stored sample exceeds 1 in magnitude,
    and some sample of some table has magnitude exactly 1. *)
Theorem normalized_peak_is_one (coefficients : list N) (wt : Wavetable) :
  make c coefficients = Some wt ->
  val (peak true (tables c coefficients)) <> 0 ->
  (forall table sample, In table (samples wt) -> In sample table ->
     Rabs (val sample) <= 1)
  /\ (exists table sample,
        In table (samples wt) /\ In sample table /\ Rabs (val sample) = 1).
Proof.
  intros Hmake Hpeak.
  assert (Hnonempty : coefficients <> [])
    by (intros Hempty; subst coefficients; discriminate Hmake).
  split.
  - apply (normalized_samples_bounded c coefficients wt Hnonempty Hpeak Hmake).
  - rewrite (make_defined c coefficients Hnonempty) in Hmake.
    injection Hmake as Hwt. subst wt. cbn [samples].
    destruct (peak_bounds (tables c coefficients)) as [Hnonneg _].
    destruct (tables_max_reached (tables c coefficients) (nlit 0.0))
      as [Hzero | [raw [s [Hraw [Hs Hval]]]]].
    + exfalso. apply Hpeak. unfold peak. rewrite Hzero, val_lit.
      unfold Q2R; simpl; lra.
    + fold (peak true (tables c coefficients)) in Hval.
      exists (map (fun sample => (sample / peak true (tables c coefficients))%num) raw),
             (s / peak true (tables c coefficients))%num.
      split.
      { exact (in_map
                 (map (fun sample => (sample / peak true (tables c coefficients))%num))
                 _ raw Hraw). }
      split.
      { exact (in_map
                 (fun sample => (sample / peak true (tables c coefficients))%num)
                 raw s Hs). }
      rewrite val_div by exact Hpeak.
      unfold Rdiv. rewrite Rabs_mult, Rabs_inv, <- Hval.
      rewrite (Rabs_pos_eq _ Hnonneg). apply Rinv_r. exact Hpeak.
Qed.

End PeakReached.

(** X2: the witness.  The three tables built from the coefficients 1, 1, 1
    have the peak 1. *)
Lemma normalized_peak_is_one_witness :
  exists table sample,
    In table (Wavetable.samples Inputs.exact_wavetable)
    /\ In sample table /\ Rabs (Q2R sample) = 1%R.
Proof.
  refine (proj2 (normalized_peak_is_one Inputs.exact_consts [1; 1; 1]%Q
                   Inputs.exact_wavetable eq_refl _)).
  set (p := Wavetable.peak true (Wavetable.tables Inputs.exact_consts [1; 1; 1]%Q)).
  vm_compute in p. subst p. cbn [val Exact_is_exact]. unfold Q2R; simpl. lra.
Defined.

(** ** An update without normalization *)

Section UnnormalizedSilence.

Variable c : Wavetable.Consts (N:=float).

Import Wavetable.

Lemma Forall_firstn_zero (n : nat) (coefficients : list float) :
  Forall Binary64.is_zero_valued coefficients ->
  Forall Binary64.is_zero_valued (firstn n coefficients).
Proof.
  intros Hzeros. revert n.
  induction Hzeros as [| x rest Hx Hrest IH]; intros [| n]; simpl;
    constructor; [exact Hx | apply IH].
Qed.

(** X3.  In double precision, [update_coefficients(coefficients, false)]
    with coefficients that are all zero and a table of finite sines stores
    zeros: without normalization nothing is divided, and no sample is a NaN
    (the constructor, which normalizes, stores only NaN for the same
    coefficients). *)
Theorem unnormalized_silence_is_zero (wt : Wavetable) (coefficients : list float) :
  Forall Binary64.is_finite_valued (sines c) ->
  (1 <= partials wt <= Z.of_nat (length coefficients))%Z ->
  Forall Binary64.is_zero_valued coefficients ->
  exists wt',
    update_coefficients c wt coefficients false = Some wt'
    /\ partials wt' = partials wt
    /\ forall table sample, In table (samples wt') -> In sample table ->
         Binary64.is_zero_valued sample /\ PrimFloat.is_nan sample = false.
Proof.
  intros Hsines Hpartials Hzeros. unfold update_coefficients.
  replace (partials wt <? 1)%Z with false by (symmetry; apply Z.ltb_ge; lia).
  replace (Z.of_nat (length coefficients) <? partials wt)%Z with false
    by (symmetry; apply Z.ltb_ge; lia).
  eexists. split; [reflexivity |]. split; [reflexivity |].
  cbn [samples]. intros table sample Htable Hsample.
  pose proof (tables_of_zeros c Hsines _
                (Forall_firstn_zero (Z.to_nat (partials wt)) coefficients Hzeros))
    as Hall.
  assert (Hzero : Binary64.is_zero_valued sample)
    by exact (proj1 (Forall_forall _ _)
                (proj1 (Forall_forall _ _) Hall table Htable) sample Hsample).
  split; [exact Hzero |].
  unfold Binary64.is_zero_valued in Hzero. unfold PrimFloat.is_nan.
  rewrite eqb_spec. destruct (Prim2SF sample); try contradiction. reflexivity.
Qed.

End UnnormalizedSilence.

Lemma finite_sines_checked (sines : list float) :
  forallb (fun s => match Prim2SF s with
                    | S754_zero _ | S754_finite _ _ _ => true
                    | _ => false
                    end) sines = true ->
  Forall Binary64.is_finite_valued sines.
Proof.
  intros Hall. apply Forall_forall. intros s Hs.
  pose proof (proj1 (forallb_forall _ _) Hall s Hs) as Hfinite.
  cbv beta in Hfinite.
  unfold Binary64.is_finite_valued. destruct (Prim2SF s); try discriminate; exact I.
Qed.

(** X3: the witness.  The sine wavetable of 1024 samples, updated with the
    coefficient 0.0. *)
Lemma unnormalized_silence_is_zero_witness :
  exists wt',
    Wavetable.update_coefficients Inputs.binary64_consts Inputs.binary64_sine
      [0%float] false = Some wt'
    /\ Wavetable.partials wt' = Wavetable.partials Inputs.binary64_sine
    /\ forall table sample, In table (Wavetable.samples wt') -> In sample table ->
         Binary64.is_zero_valued sample /\ PrimFloat.is_nan sample = false.
Proof.
  apply (unnormalized_silence_is_zero Inputs.binary64_consts Inputs.binary64_sine
           [0%float]).
  - apply finite_sines_checked. vm_compute. reflexivity.
  - vm_compute. split; discriminate.
  - constructor; [exact I | constructor].
Defined.

(** ** Lookups stay inside the tables, in exact arithmetic *)

Section LookupSafety.

Context {N : Type} {ops : NumberOps N} {E : ExactNumber N} {T : ExactTruncation N}.
Variable c : Wavetable.Consts (N:=N).
Variable wt : Wavetable.Wavetable (N:=N).
Variable bits : Z.

Hypothesis consts_exact : Phase.exact_consts c bits.
Hypothesis tables_shaped : Phase.well_shaped c wt.

(** [SIZE] is a constant of the type [Integer]. *)
Hypothesis SIZE_is_Integer : (Wavetable.SIZE c <= INTEGER_MAX)%Z.

Import Wavetable.
#[local] Open Scope R_scope.

Lemma SIZE_is_positive : (0 < SIZE c)%Z.
Proof.
  destruct consts_exact as (Hbits & Hsize & _). rewrite Hsize.
  apply Z.pow_pos_nonneg; lia.
Qed.

Lemma wrap_around_in_table (x : N) :
  0 <= val (wrap_around c x) < IZR (SIZE c)
  /\ exists z : Z, val (wrap_around c x) = val x - IZR z * IZR (SIZE c).
Proof.
  destruct consts_exact as (_ & _ & _ & Hfloat & Hinv).
  pose proof SIZE_is_positive as Hpos.
  pose proof (IZR_lt _ _ Hpos) as Hreal.
  destruct (wrap_around_floor c Hfloat Hinv x) as [z [Hz Hx]].
  assert (Hscaled : IZR z * IZR (SIZE c) <= val x < (IZR z + 1) * IZR (SIZE c)).
  { replace (val x) with (val x / IZR (SIZE c) * IZR (SIZE c)) by (field; lra).
    split.
    - apply Rmult_le_compat_r; lra.
    - apply Rmult_lt_compat_r; lra. }
  split; [rewrite Hx; lra | exists z; exact Hx].
Qed.

Lemma masked_index_in_table (k : Z) : (0 <= Z.land k (MASK c) < SIZE c)%Z.
Proof.
  destruct consts_exact as (Hbits & Hsize & Hmask & _).
  rewrite Hmask, Hsize.
  replace (2 ^ bits - 1)%Z with (Z.ones bits) by (rewrite Z.ones_equiv; lia).
  rewrite Z.land_ones by exact Hbits.
  apply Z.mod_pos_bound. apply Z.pow_pos_nonneg; lia.
Qed.

(** A position inside the table is converted, to an index of the table. *)
Lemma truncated_index_in_table (x : N) :
  0 <= val x < IZR (SIZE c) ->
  exists i : Z, ntrunc x = Some i /\ (0 <= i < SIZE c)%Z.
Proof.
  intros Hx.
  assert (Hmax : IZR (SIZE c) <= IZR INTEGER_MAX) by (apply IZR_le; exact SIZE_is_Integer).
  assert (Hmin : IZR INTEGER_MIN <= 0) by (apply IZR_le; unfold INTEGER_MIN; lia).
  destruct (val_trunc_defined (x:=x)) as [i Hi]; [lra |].
  exists i. split; [exact Hi |].
  destruct (val_trunc_nonneg Hi (proj1 Hx)) as [Hlow Hhigh].
  split.
  - assert (H : (-1 < i)%Z) by (apply lt_IZR; lra). lia.
  - apply lt_IZR. lra.
Qed.

Lemma sample_at_defined (i j : Z) :
  (0 <= i < partials wt)%Z -> (0 <= j < SIZE c)%Z ->
  exists table sample,
    sample_at wt i j = Some sample /\ In table (samples wt) /\ In sample table.
Proof.
  intros Hi Hj. destruct tables_shaped as (_ & Hlength & Hall).
  unfold sample_at, at_index.
  replace (i <? 0)%Z with false by (symmetry; apply Z.ltb_ge; lia).
  destruct (nth_error (samples wt) (Z.to_nat i)) as [table |] eqn:Htable;
    [| apply nth_error_None in Htable; rewrite Hlength in Htable; lia].
  pose proof (nth_error_In _ _ Htable) as Hin.
  pose proof (proj1 (Forall_forall _ _) Hall table Hin) as Hrow.
  cbn [bind].
  replace (j <? 0)%Z with false by (symmetry; apply Z.ltb_ge; lia).
  destruct (nth_error table (Z.to_nat j)) as [sample |] eqn:Hsample;
    [| apply nth_error_None in Hsample; rewrite Hrow in Hsample; lia].
  exists table, sample. repeat split; [exact Hin | exact (nth_error_In _ _ Hsample)].
Qed.

Lemma interpolate_defined (state : WavetableState) (frequency position : N) :
  Phase.tables_selected wt state ->
  0 <= val position < IZR (SIZE c) ->
  exists sample, interpolate c wt state frequency position = Some sample.
Proof.
  intros [Hfirst Hsecond] Hposition.
  destruct (truncated_index_in_table position Hposition) as (index & Hindex & H1).
  pose proof (masked_index_in_table (index + 1)) as H2.
  pose proof (masked_index_in_table (Z.land (index + 1) (MASK c) + 1)) as H3.
  unfold interpolate.
  destruct (frequency >=? interpolation_limit state)%num.
  - unfold interpolate_sample_linear. rewrite Hindex. cbn [bind].
    destruct (sample_at_defined _ _ Hfirst H1) as (? & f11 & Hf11 & _).
    destruct (sample_at_defined _ _ Hfirst H2) as (? & f12 & Hf12 & _).
    destruct (needs_table_interpolation state) eqn:Hneeds; simpl negb; cbv iota.
    + specialize (Hsecond eq_refl).
      destruct (sample_at_defined _ _ Hsecond H1) as (? & f21 & Hf21 & _).
      destruct (sample_at_defined _ _ Hsecond H2) as (? & f22 & Hf22 & _).
      rewrite Hf11, Hf12, Hf21, Hf22. cbn [bind]. eexists. reflexivity.
    + rewrite Hf11, Hf12. cbn [bind]. eexists. reflexivity.
  - unfold interpolate_sample_lagrange. rewrite Hindex. cbn [bind].
    destruct (sample_at_defined _ _ Hfirst H1) as (? & f11 & Hf11 & _).
    destruct (sample_at_defined _ _ Hfirst H2) as (? & f12 & Hf12 & _).
    destruct (sample_at_defined _ _ Hfirst H3) as (? & f13 & Hf13 & _).
    rewrite Hf11, Hf12, Hf13. cbn [bind].
    destruct (needs_table_interpolation state) eqn:Hneeds; simpl negb; cbv iota.
    + specialize (Hsecond eq_refl).
      destruct (sample_at_defined _ _ Hsecond H1) as (? & f21 & Hf21 & _).
      destruct (sample_at_defined _ _ Hsecond H2) as (? & f22 & Hf22 & _).
      destruct (sample_at_defined _ _ Hsecond H3) as (? & f23 & Hf23 & _).
      rewrite Hf21, Hf22, Hf23. cbn [bind]. eexists. reflexivity.
    + eexists. reflexivity.
Qed.

(** What [lookup] does for a representable frequency: it moves the
    position and, unless the conversion of [max_partials] is undefined, it
    selects tables that exist and interpolates at the position the state
    had before. *)
Lemma lookup_representable (state after : WavetableState) (f : N)
    (sample : option N) :
  Phase.is_representable state f = true ->
  lookup c wt state f = (sample, after) ->
  sample_index after
  = wrap_around c (sample_index state + scale state * f)%num
  /\ scale after = scale state
  /\ nyquist_frequency after = nyquist_frequency state
  /\ interpolation_limit after = interpolation_limit state
  /\ ((~ Phase.selection_defined wt state f /\ sample = None)
      \/ (Phase.selection_defined wt state f
          /\ sample = interpolate c wt after (nabs f) (sample_index state)
          /\ Phase.tables_selected wt after
          /\ Phase.weights_balanced after)).
Proof.
  intros Hrep Hlookup. unfold Phase.is_representable in Hrep.
  apply andb_true_iff in Hrep. destruct Hrep as [Hdc Hny].
  apply negb_true_iff in Hdc, Hny.
  destruct tables_shaped as (Hpartials & _).
  unfold lookup in Hlookup. cbv zeta in Hlookup. rewrite Hdc, Hny in Hlookup.
  change (nyquist_frequency
            (set_sample_index state
               (wrap_around c (sample_index state + scale state * f)%num)))
    with (nyquist_frequency state) in Hlookup.
  fold (max_partials state f) in Hlookup.
  unfold Phase.tables_selected, Phase.weights_balanced, Phase.selection_defined.
  revert Hlookup.
  destruct (partials wt =? 1)%Z eqn:Hone.
  - apply Z.eqb_eq in Hone. intros Hlookup.
    apply pair_equal_spec in Hlookup. destruct Hlookup as [<- <-].
    repeat (split; [reflexivity |]). right.
    split; [left; exact Hone |]. split; [reflexivity |]. cbn.
    split; [split; [lia | intros Hneeds; discriminate Hneeds] |].
    intros Hneeds; discriminate Hneeds.
  - apply Z.eqb_neq in Hone.
    destruct (ntrunc (max_partials state f)) as [converted |] eqn:Hconverted.
    + match goal with
      | |- context [(?more =? ?fewer)%Z] =>
          set (w := fewer); set (m := more) in *;
          assert (Hm : (0 <= m < partials wt)%Z) by (subst m; lia);
          assert (Hw : (0 <= w < partials wt)%Z) by (subst w; lia);
          clearbody w; clearbody m;
          destruct (m =? w)%Z eqn:Hsel
      end.
      * intros Hlookup. apply pair_equal_spec in Hlookup.
        destruct Hlookup as [<- <-].
        repeat (split; [reflexivity |]). right.
        split; [right; discriminate |]. split; [reflexivity |]. cbn.
        split; [split; [exact Hw | intros Hneeds; discriminate Hneeds] |].
        intros Hneeds; discriminate Hneeds.
      * intros Hlookup. apply pair_equal_spec in Hlookup.
        destruct Hlookup as [<- <-].
        repeat (split; [reflexivity |]). right.
        split; [right; discriminate |]. split; [reflexivity |]. cbn.
        split; [split; [exact Hw | intros _; exact Hm] |].
        intros _.
        destruct (val_floor (max_partials state f)) as [z [Hz Hbounds]].
        rewrite (val_sub (nlit 1.0)), !val_sub, Hz, val_lit.
        unfold Q2R. simpl. split; lra.
    + intros Hlookup. apply pair_equal_spec in Hlookup.
      destruct Hlookup as [<- <-].
      repeat (split; [reflexivity |]). left.
      split; [| reflexivity].
      intros [Hsingle | Hdefined]; [contradiction | apply Hdefined; reflexivity].
Qed.

Lemma lookup_degenerate (state : WavetableState) (f : N) :
  Phase.is_representable state f = false ->
  snd (lookup c wt state f) = state
  /\ (fst (lookup c wt state f) = Some (nlit 1.0)
      \/ fst (lookup c wt state f) = Some (nlit 0.0)).
Proof.
  intros Hrep. unfold Phase.is_representable in Hrep. unfold lookup.
  destruct (nabs f <? nlit 0.0000001)%num.
  - split; [reflexivity | left; reflexivity].
  - destruct (nabs f >? nyquist_frequency state)%num; [| discriminate Hrep].
    split; [reflexivity | right; reflexivity].
Qed.

(** The two tests of [lookup], in exact arithmetic. *)
Lemma representable_bounds (state : WavetableState) (f : N) :
  Phase.is_representable state f = true ->
  (nlit 0.0000001 <=? nabs f)%num = true
  /\ (nabs f <=? nyquist_frequency state)%num = true.
Proof.
  intros Hrep. unfold Phase.is_representable in Hrep.
  apply andb_true_iff in Hrep. destruct Hrep as [Hdc Hny].
  apply negb_true_iff in Hdc, Hny.
  split; apply val_leb; apply Rnot_lt_le; intros Hlt; apply val_ltb in Hlt;
    congruence.
Qed.

(** The table selection is defined with a single table and with a
    [max_partials] below 2^31. *)
Lemma can_select_defined (state : WavetableState) (f : N) :
  Phase.is_representable state f = true ->
  partials wt = 1%Z \/ val (max_partials state f) < 2 ^ 31 ->
  Phase.selection_defined wt state f.
Proof.
  intros Hrep [Hsingle | Hbelow].
  - left. exact Hsingle.
  - right. destruct (representable_bounds state f Hrep) as [Hlo Hhi].
    destruct (proj1 (max_partials_conversion E T state f Hlo Hhi) Hbelow)
      as (converted & Hconverted & _).
    rewrite Hconverted. discriminate.
Qed.

(** X4.  In exact arithmetic, on tables of the constructed shape and with
    [SIZE] a power of two that is an [Integer]: if the position of the state
    lies in [0, SIZE), then [lookup], for any frequency, leaves a position in
    [0, SIZE) again.  It reads only samples that exist, and returns a
    sample, when it takes an early return, when there is a single table,
    and when [max_partials = nyquist / |f|] is below 2^31; with several
    tables and a [max_partials] of 2^31 or more, the conversion
    [(Integer)max_partials] is undefined and no sample is returned. *)
Theorem lookup_stays_in_table (state : WavetableState) (f : N) :
  Phase.in_table c state ->
  Phase.in_table c (snd (lookup c wt state f))
  /\ (Phase.is_representable state f = false
      \/ partials wt = 1%Z
      \/ val (max_partials state f) < 2 ^ 31 ->
      exists sample, fst (lookup c wt state f) = Some sample)
  /\ (Phase.is_representable state f = true ->
      (1 < partials wt)%Z ->
      2 ^ 31 <= val (max_partials state f) ->
      fst (lookup c wt state f) = None).
Proof.
  intros Hin.
  destruct (Phase.is_representable state f) eqn:Hrep.
  - destruct (lookup c wt state f) as [sample after] eqn:Hlookup.
    destruct (lookup_representable state after f sample Hrep Hlookup)
      as (Hposition & _ & _ & _ & Hcases).
    cbn [fst snd]. split; [| split].
    + unfold Phase.in_table. rewrite Hposition. apply wrap_around_in_table.
    + intros [Hfalse | Hselect]; [discriminate Hfalse |].
      pose proof (can_select_defined state f Hrep Hselect) as Hdefined.
      destruct Hcases as [[Hundefined _] | (_ & Hsample & Hselected & _)];
        [contradiction |].
      rewrite Hsample. apply interpolate_defined; assumption.
    + intros _ Hseveral Habove.
      destruct (representable_bounds state f Hrep) as [Hlo Hhi].
      pose proof (proj2 (max_partials_conversion E T state f Hlo Hhi) Habove)
        as Hnone.
      destruct Hcases as [[_ Hsample] | ([Hsingle | Hdefined] & _)].
      * exact Hsample.
      * lia.
      * contradiction.
  - destruct (lookup_degenerate state f Hrep) as [Hstate Hsample].
    split; [rewrite Hstate; exact Hin |]. split.
    + intros _. destruct Hsample as [Hsample | Hsample]; eexists; exact Hsample.
    + intros Hfalse. discriminate Hfalse.
Qed.

(** *** The size of the interpolated samples *)

Lemma Rabs_bounds (a b : R) : Rabs a <= b -> - b <= a <= b.
Proof. unfold Rabs. destruct (Rcase_abs a); lra. Qed.

Lemma linear_weights_bound (t a b : R) :
  0 <= t < 1 -> Rabs a <= 1 -> Rabs b <= 1 ->
  Rabs ((1 - t) * a + t * b) <= 1.
Proof.
  intros Ht Ha Hb. apply Rabs_bounds in Ha, Hb. apply Rabs_le.
  assert (H1 : - (1 - t) <= (1 - t) * a <= 1 - t) by nra.
  assert (H2 : - t <= t * b <= t) by nra.
  lra.
Qed.

Lemma lagrange_weights_bound (t a b d : R) :
  0 <= t < 1 -> Rabs a <= 1 -> Rabs b <= 1 -> Rabs d <= 1 ->
  Rabs (/ 2 * (t * t - t) * a + (1 - t * t) * b + / 2 * (t * t + t) * d)
  <= 5 / 4.
Proof.
  intros Ht Ha Hb Hd. apply Rabs_bounds in Ha, Hb, Hd. apply Rabs_le.
  assert (Hp : 0 <= / 2 * (t - t * t)) by nra.
  assert (Hq : 0 <= 1 - t * t) by nra.
  assert (Hr : 0 <= / 2 * (t * t + t)) by nra.
  assert (H1 : - (/ 2 * (t - t * t)) <= / 2 * (t * t - t) * a
               <= / 2 * (t - t * t)) by nra.
  assert (H2 : - (1 - t * t) <= (1 - t * t) * b <= 1 - t * t) by nra.
  assert (H3 : - (/ 2 * (t * t + t)) <= / 2 * (t * t + t) * d
               <= / 2 * (t * t + t)) by nra.
  assert (H4 : t - t * t <= / 4)
    by (pose proof (Rle_0_sqr (t - / 2)) as Hsqr; unfold Rsqr in Hsqr; lra).
  lra.
Qed.

Lemma blend_weights_bound (w a b bound : R) :
  0 <= w <= 1 -> Rabs a <= bound -> Rabs b <= bound ->
  Rabs (w * a + (1 - w) * b) <= bound.
Proof.
  intros Hw Ha Hb. apply Rabs_bounds in Ha, Hb. apply Rabs_le.
  assert (H1 : - (w * bound) <= w * a <= w * bound) by nra.
  assert (H2 : - ((1 - w) * bound) <= (1 - w) * b <= (1 - w) * bound) by nra.
  lra.
Qed.

Lemma val_half : val (nlit 0.5) = / 2.
Proof. rewrite val_lit. unfold Q2R. simpl. lra. Qed.

Lemma val_one : val (nlit 1.0) = 1.
Proof. rewrite val_lit. unfold Q2R. simpl. lra. Qed.

Lemma val_zero : val (nlit 0.0) = 0.
Proof. rewrite val_lit. unfold Q2R. simpl. lra. Qed.

(** The fractional part, as the sources compute it. *)
Lemma val_fraction (x : N) : 0 <= val (x - nfloor x)%num < 1.
Proof.
  destruct (val_floor x) as [z [Hz Hbounds]]. rewrite val_sub, Hz. lra.
Qed.

Lemma sample_at_bounded (i j : Z) :
  Phase.tables_normalized wt ->
  (0 <= i < partials wt)%Z -> (0 <= j < SIZE c)%Z ->
  exists sample, sample_at wt i j = Some sample /\ Rabs (val sample) <= 1.
Proof.
  intros Hnormalized Hi Hj.
  destruct (sample_at_defined i j Hi Hj) as (table & sample & Hat & Htable & Hin).
  exists sample. split; [exact Hat | exact (Hnormalized table sample Htable Hin)].
Qed.

Lemma interpolate_sample_linear_bounded (state : WavetableState) (position : N) :
  Phase.tables_normalized wt -> Phase.tables_selected wt state ->
  Phase.weights_balanced state ->
  0 <= val position < IZR (SIZE c) ->
  exists sample,
    interpolate_sample_linear c wt state position = Some sample
    /\ Rabs (val sample) <= 1.
Proof.
  intros Hnormalized [Hfirst Hsecond] Hweights Hposition.
  destruct (truncated_index_in_table position Hposition) as (index & Hindex & H1).
  pose proof (masked_index_in_table (index + 1)) as H2.
  pose proof (val_fraction position) as Ht.
  unfold interpolate_sample_linear. rewrite Hindex. cbn [bind].
  destruct (sample_at_bounded _ _ Hnormalized Hfirst H1) as (f11 & Hf11 & B11).
  destruct (sample_at_bounded _ _ Hnormalized Hfirst H2) as (f12 & Hf12 & B12).
  destruct (needs_table_interpolation state) eqn:Hneeds; simpl negb; cbv iota.
  - specialize (Hsecond eq_refl). unfold Phase.weights_balanced in Hweights.
    rewrite Hneeds in Hweights. destruct (Hweights eq_refl) as [Hw Hsum].
    destruct (sample_at_bounded _ _ Hnormalized Hsecond H1) as (f21 & Hf21 & B21).
    destruct (sample_at_bounded _ _ Hnormalized Hsecond H2) as (f22 & Hf22 & B22).
    rewrite Hf11, Hf12, Hf21, Hf22. cbn [bind]. eexists. split; [reflexivity |].
    rewrite !val_add, !val_mul, !val_add, !val_mul, !val_sub, val_one, Hsum.
    rewrite !val_sub in Ht.
    apply blend_weights_bound; [exact Hw | |];
      apply linear_weights_bound; assumption.
  - rewrite Hf11, Hf12. cbn [bind]. eexists. split; [reflexivity |].
    rewrite !val_add, !val_mul, !val_sub, val_one.
    rewrite !val_sub in Ht.
    apply linear_weights_bound; assumption.
Qed.

Lemma interpolate_sample_lagrange_bounded (state : WavetableState) (position : N) :
  Phase.tables_normalized wt -> Phase.tables_selected wt state ->
  Phase.weights_balanced state ->
  0 <= val position < IZR (SIZE c) ->
  exists sample,
    interpolate_sample_lagrange c wt state position = Some sample
    /\ Rabs (val sample) <= 5 / 4.
Proof.
  intros Hnormalized [Hfirst Hsecond] Hweights Hposition.
  destruct (truncated_index_in_table position Hposition) as (index & Hindex & H1).
  pose proof (masked_index_in_table (index + 1)) as H2.
  pose proof (masked_index_in_table (Z.land (index + 1) (MASK c) + 1)) as H3.
  pose proof (val_fraction position) as Ht.
  unfold interpolate_sample_lagrange. rewrite Hindex. cbn [bind].
  destruct (sample_at_bounded _ _ Hnormalized Hfirst H1) as (f11 & Hf11 & B11).
  destruct (sample_at_bounded _ _ Hnormalized Hfirst H2) as (f12 & Hf12 & B12).
  destruct (sample_at_bounded _ _ Hnormalized Hfirst H3) as (f13 & Hf13 & B13).
  rewrite Hf11, Hf12, Hf13. cbn [bind].
  destruct (needs_table_interpolation state) eqn:Hneeds; simpl negb; cbv iota.
  - specialize (Hsecond eq_refl). unfold Phase.weights_balanced in Hweights.
    rewrite Hneeds in Hweights. destruct (Hweights eq_refl) as [Hw Hsum].
    destruct (sample_at_bounded _ _ Hnormalized Hsecond H1) as (f21 & Hf21 & B21).
    destruct (sample_at_bounded _ _ Hnormalized Hsecond H2) as (f22 & Hf22 & B22).
    destruct (sample_at_bounded _ _ Hnormalized Hsecond H3) as (f23 & Hf23 & B23).
    rewrite Hf21, Hf22, Hf23. cbn [bind]. eexists. split; [reflexivity |].
    rewrite !val_add, !val_mul, !val_add, !val_mul, !val_sub, !val_add, !val_mul,
      !val_sub, val_one, val_half, Hsum.
    rewrite !val_sub in Ht.
    apply blend_weights_bound; [exact Hw | |];
      apply lagrange_weights_bound; assumption.
  - eexists. split; [reflexivity |].
    rewrite !val_add, !val_mul, !val_sub, !val_add, !val_mul, !val_sub,
      val_one, val_half.
    rewrite !val_sub in Ht.
    apply lagrange_weights_bound; assumption.
Qed.

(** On tables of the constructed shape whose samples do not exceed 1 in
    absolute value, and from a position in [0, SIZE): where the table
    selection is defined, the sample that [lookup] returns does not exceed
    5/4 in absolute value, and does not exceed 1 when the linear
    interpolation is used. *)
Lemma lookup_sample_bounded (state : WavetableState) (f : N) :
  Phase.tables_normalized wt ->
  Phase.in_table c state ->
  Phase.is_representable state f = false
  \/ partials wt = 1%Z
  \/ val (max_partials state f) < 2 ^ 31 ->
  exists sample,
    fst (lookup c wt state f) = Some sample
    /\ Rabs (val sample) <= 5 / 4
    /\ ((nabs f >=? interpolation_limit state)%num = true ->
        Rabs (val sample) <= 1).
Proof.
  intros Hnormalized Hin Hselect.
  destruct (Phase.is_representable state f) eqn:Hrep.
  - destruct Hselect as [Hfalse | Hselect]; [discriminate Hfalse |].
    pose proof (can_select_defined state f Hrep Hselect) as Hdefined.
    destruct (lookup c wt state f) as [sample after] eqn:Hlookup.
    destruct (lookup_representable state after f sample Hrep Hlookup)
      as (_ & _ & _ & Hlimit & Hcases).
    destruct Hcases as [[Hundefined _] | (_ & Hsample & Hselected & Hweights)];
      [contradiction |].
    cbn [fst]. rewrite Hsample. unfold interpolate. rewrite Hlimit.
    destruct (nabs f >=? interpolation_limit state)%num.
    + destruct (interpolate_sample_linear_bounded after (sample_index state)
                  Hnormalized Hselected Hweights Hin) as (s & Hs & Hbound).
      exists s. split; [exact Hs |]. split; [lra | intros _; exact Hbound].
    + destruct (interpolate_sample_lagrange_bounded after (sample_index state)
                  Hnormalized Hselected Hweights Hin) as (s & Hs & Hbound).
      exists s. split; [exact Hs |].
      split; [exact Hbound | intros Hfalse; discriminate Hfalse].
  - destruct (lookup_degenerate state f Hrep) as [_ [Hsample | Hsample]].
    + exists (nlit 1.0). split; [exact Hsample |]. rewrite val_one, Rabs_R1.
      split; [lra | intros _; lra].
    + exists (nlit 0.0). split; [exact Hsample |]. rewrite val_zero, Rabs_R0.
      split; [lra | intros _; lra].
Qed.

End LookupSafety.

Lemma exact_consts_are_exact : Phase.exact_consts Inputs.exact_consts 2.
Proof.
  unfold Phase.exact_consts. cbn [val Exact_is_exact].
  repeat split; try reflexivity; try lia; unfold Q2R; simpl; lra.
Qed.

Lemma exact_wavetable_well_shaped :
  Phase.well_shaped Inputs.exact_consts Inputs.exact_wavetable.
Proof.
  unfold Phase.well_shaped. vm_compute.
  repeat split; try discriminate; repeat constructor.
Qed.

Lemma exact_SIZE_is_Integer : (Wavetable.SIZE Inputs.exact_consts <= INTEGER_MAX)%Z.
Proof. vm_compute. discriminate. Qed.

(** X4: the witness.  Three tables of four samples, the position 0 and a
    frequency of 10 Hz, for which [max_partials] is 5. *)
Lemma lookup_stays_in_table_witness :
  Phase.in_table Inputs.exact_consts
    (snd (Wavetable.lookup Inputs.exact_consts Inputs.exact_wavetable
            Inputs.exact_state 10%Q))
  /\ exists sample,
       fst (Wavetable.lookup Inputs.exact_consts Inputs.exact_wavetable
              Inputs.exact_state 10%Q) = Some sample.
Proof.
  destruct (lookup_stays_in_table Inputs.exact_consts Inputs.exact_wavetable 2
              exact_consts_are_exact exact_wavetable_well_shaped
              exact_SIZE_is_Integer Inputs.exact_state 10%Q)
    as (Hin & Hsample & _).
  - unfold Phase.in_table. cbn [val Exact_is_exact]. unfold Q2R. simpl. lra.
  - split; [exact Hin |]. apply Hsample. right. right.
    cbn [val Exact_is_exact]. unfold Q2R. simpl. lra.
Defined.

(** ** The phase that successive lookups add up *)

Section PhaseAccumulation.

Context {N : Type} {ops : NumberOps N} {E : ExactNumber N}.
Variable c : Wavetable.Consts (N:=N).
Variable wt : Wavetable.Wavetable (N:=N).

Import Wavetable.
#[local] Open Scope R_scope.

Hypothesis SIZE_positive : (0 < SIZE c)%Z.
Hypothesis SIZE_FLOAT_exact : val (SIZE_FLOAT c) = IZR (SIZE c).
Hypothesis SIZE_INV_exact : val (SIZE_INV c) = / IZR (SIZE c).

(** [lookup] writes neither the scale nor the Nyquist frequency. *)
Lemma lookup_frame (state : WavetableState) (f : N) :
  scale (snd (lookup c wt state f)) = scale state
  /\ nyquist_frequency (snd (lookup c wt state f)) = nyquist_frequency state.
Proof.
  unfold lookup. cbv zeta.
  destruct (nabs f <? nlit 0.0000001)%num; [split; reflexivity |].
  destruct (nabs f >? nyquist_frequency state)%num; [split; reflexivity |].
  destruct (partials wt =? 1)%Z; [split; reflexivity |].
  match goal with
  | |- context [ntrunc ?m] => destruct (ntrunc m); [| split; reflexivity]
  end.
  match goal with
  | |- context [if ?test then _ else _] => destruct test
  end; split; reflexivity.
Qed.

Lemma lookup_position (state : WavetableState) (f : N) :
  sample_index (snd (lookup c wt state f))
  = if Phase.is_representable state f
    then wrap_around c (sample_index state + scale state * f)%num
    else sample_index state.
Proof.
  unfold lookup, Phase.is_representable. cbv zeta.
  destruct (nabs f <? nlit 0.0000001)%num; [reflexivity |].
  destruct (nabs f >? nyquist_frequency state)%num; [reflexivity |].
  destruct (partials wt =? 1)%Z; [reflexivity |].
  match goal with
  | |- context [ntrunc ?m] => destruct (ntrunc m); [| reflexivity]
  end.
  match goal with
  | |- context [if ?test then _ else _] => destruct test
  end; reflexivity.
Qed.

Lemma advance_frame (state other : WavetableState) (frequencies : list N) :
  scale other = scale state ->
  nyquist_frequency other = nyquist_frequency state ->
  Phase.advance other frequencies = Phase.advance state frequencies
  /\ forall f, Phase.is_representable other f = Phase.is_representable state f.
Proof.
  intros Hscale Hnyquist.
  assert (Hrep : forall f,
             Phase.is_representable other f = Phase.is_representable state f).
  { intros f. unfold Phase.is_representable. rewrite Hnyquist. reflexivity. }
  split; [| exact Hrep].
  induction frequencies as [| f rest IH]; [reflexivity |].
  cbn [Phase.advance]. rewrite Hrep, Hscale, IH. reflexivity.
Qed.

Lemma lookups_step (state : WavetableState) (f : N) (rest : list N) :
  snd (Phase.lookups c wt state (f :: rest))
  = snd (Phase.lookups c wt (snd (lookup c wt state f)) rest).
Proof.
  cbn [Phase.lookups].
  destruct (lookup c wt state f) as [sample after]. cbn [snd].
  destruct (Phase.lookups c wt after rest) as [later final].
  reflexivity.
Qed.

(** X5.  In exact arithmetic, a run of lookups on one state (as an
    oscillator does for a block of samples) leaves the scale and the Nyquist
    frequency alone and moves the position by the sum of [scale * f] over
    the frequencies that are neither near zero nor above the Nyquist
    frequency, up to a whole number of table lengths; and the position lies
    in [0, SIZE) if it did before or if one frequency was such a one. *)
Theorem lookups_accumulate_phase (frequencies : list N) (state : WavetableState) :
  let after := snd (Phase.lookups c wt state frequencies) in
  scale after = scale state
  /\ nyquist_frequency after = nyquist_frequency state
  /\ (exists z : Z,
        val (sample_index after)
        = val (sample_index state) + val (Phase.advance state frequencies)
          - IZR z * IZR (SIZE c))
  /\ (Phase.in_table c state
      \/ Exists (fun f => Phase.is_representable state f = true) frequencies ->
      Phase.in_table c after).
Proof.
  cbv zeta. revert state.
  induction frequencies as [| f rest IH]; intros state.
  - cbn [Phase.lookups Phase.advance snd].
    split; [reflexivity |]. split; [reflexivity |]. split.
    + exists 0%Z. rewrite val_lit. unfold Q2R. simpl. lra.
    + intros [Hin | Hsome]; [exact Hin | inversion Hsome].
  - rewrite lookups_step.
    destruct (lookup_frame state f) as [Hscale Hnyquist].
    pose proof (lookup_position state f) as Hposition.
    destruct (IH (snd (lookup c wt state f)))
      as (IHscale & IHnyquist & [z IHz] & IHin).
    destruct (advance_frame state (snd (lookup c wt state f)) rest
                Hscale Hnyquist) as [Hadvance Hrep].
    rewrite Hadvance in IHz.
    split; [rewrite IHscale; exact Hscale |].
    split; [rewrite IHnyquist; exact Hnyquist |].
    cbn [Phase.advance].
    destruct (Phase.is_representable state f) eqn:Hf.
    + destruct (wrap_around_floor c SIZE_FLOAT_exact SIZE_INV_exact
                  (sample_index state + scale state * f)%num) as [k [Hk Hwrap]].
      split.
      * exists (z + k)%Z. rewrite IHz, Hposition, Hwrap.
        rewrite !val_add, plus_IZR. lra.
      * intros _. apply IHin. left. unfold Phase.in_table.
        rewrite Hposition, Hwrap.
        pose proof (IZR_lt _ _ SIZE_positive) as Hreal.
        assert (Hscaled :
                  IZR k * IZR (SIZE c)
                  <= val (sample_index state + scale state * f)%num
                  < (IZR k + 1) * IZR (SIZE c)).
        { replace (val (sample_index state + scale state * f)%num)
            with (val (sample_index state + scale state * f)%num
                  / IZR (SIZE c) * IZR (SIZE c)) by (field; lra).
          split.
          - apply Rmult_le_compat_r; lra.
          - apply Rmult_lt_compat_r; lra. }
        lra.
    + split.
      * exists z. rewrite IHz, Hposition. reflexivity.
      * intros Hbefore. apply IHin. destruct Hbefore as [Hin | Hsome].
        -- left. unfold Phase.in_table. rewrite Hposition. exact Hin.
        -- inversion Hsome as [? ? Hhead | ? ? Htail]; subst.
           ++ rewrite Hf in Hhead. discriminate Hhead.
           ++ right. apply Exists_exists. apply Exists_exists in Htail.
              destruct Htail as [g [Hg Hgrep]]. exists g.
              split; [exact Hg | rewrite Hrep; exact Hgrep].
Qed.

End PhaseAccumulation.

(** ** From the constructor to the samples of an oscillator *)

(** X6.  In exact arithmetic, with [SIZE] a power of two that is an
    [Integer]: a wavetable that the constructor has built and normalized by
    a peak other than zero gives, from any position in [0, SIZE) and for any
    frequency for which the lookup is defined (one of the early returns, a
    single table, or [max_partials = nyquist / |f|] below 2^31), a sample of
    absolute value at most 5/4, and at most 1 when the frequency is at or
    above the interpolation limit (linear interpolation; the Lagrange
    polynomial may overshoot the samples). *)
Theorem constructed_lookup_bounded {N : Type} {ops : NumberOps N}
    {E : ExactNumber N} {T : ExactTruncation N}
    (c : Wavetable.Consts (N:=N)) (bits : Z) (coefficients : list N)
    (wt : Wavetable.Wavetable (N:=N)) (state : Wavetable.WavetableState (N:=N))
    (f : N) :
  Phase.exact_consts c bits ->
  (Wavetable.SIZE c <= INTEGER_MAX)%Z ->
  Wavetable.make c coefficients = Some wt ->
  val (Wavetable.peak true (Wavetable.tables c coefficients)) <> 0%R ->
  Phase.in_table c state ->
  Phase.is_representable state f = false
  \/ Wavetable.partials wt = 1%Z
  \/ (val (Wavetable.max_partials state f) < 2 ^ 31)%R ->
  exists sample,
    fst (Wavetable.lookup c wt state f) = Some sample
    /\ (Rabs (val sample) <= 5 / 4)%R
    /\ ((nabs f >=? Wavetable.interpolation_limit state)%num = true ->
        (Rabs (val sample) <= 1)%R).
Proof.
  intros Hconsts Hsize Hmake Hpeak Hin Hselect.
  apply (lookup_sample_bounded c wt bits Hconsts
           (make_well_shaped c coefficients wt Hmake) Hsize).
  - exact (normalized_samples_bounded c coefficients wt
             (make_nonempty c coefficients wt Hmake) Hpeak Hmake).
  - exact Hin.
  - exact Hselect.
Qed.

Lemma exact_peak_nonzero :
  val (Wavetable.peak true (Wavetable.tables Inputs.exact_consts [1; 1; 1]%Q))
  <> 0%R.
Proof.
  set (p := Wavetable.peak true (Wavetable.tables Inputs.exact_consts [1; 1; 1]%Q)).
  vm_compute in p. subst p. cbn [val Exact_is_exact]. unfold Q2R; simpl. lra.
Qed.

Lemma exact_state_in_table : Phase.in_table Inputs.exact_consts Inputs.exact_state.
Proof.
  unfold Phase.in_table. cbn [val Exact_is_exact]. unfold Q2R. simpl. lra.
Qed.

(** X6: the witness.  At 5 Hz, below the interpolation limit of 6.25 Hz,
    the three tables built from the coefficients 1, 1, 1 are read with the
    Lagrange polynomial. *)
Lemma constructed_lookup_bounded_witness :
  exists sample,
    fst (Wavetable.lookup Inputs.exact_consts Inputs.exact_wavetable
           Inputs.exact_state 5%Q) = Some sample
    /\ (Rabs (Q2R sample) <= 5 / 4)%R.
Proof.
  destruct (constructed_lookup_bounded Inputs.exact_consts 2 [1; 1; 1]%Q
              Inputs.exact_wavetable Inputs.exact_state 5%Q
              exact_consts_are_exact exact_SIZE_is_Integer eq_refl
              exact_peak_nonzero exact_state_in_table)
    as (sample & Hsample & Hbound & _).
  - right. right. cbn [val Exact_is_exact]. unfold Q2R. simpl. lra.
  - exists sample. split; [exact Hsample | exact Hbound].
Defined.

(** X5: the witness.  Four lookups, of which the second (0 Hz) and the
    third (60 Hz, above the Nyquist frequency of 50 Hz) add nothing. *)
Lemma lookups_accumulate_phase_witness :
  let after := snd (Phase.lookups Inputs.exact_consts Inputs.exact_wavetable
                      Inputs.exact_state [10; 0; 60; 20]%Q) in
  (exists z : Z,
     Q2R (Wavetable.sample_index after)
     = (Q2R (Wavetable.sample_index Inputs.exact_state)
        + Q2R (Phase.advance Inputs.exact_state [10; 0; 60; 20]%Q)
        - IZR z * 4)%R)
  /\ Phase.in_table Inputs.exact_consts after.
Proof.
  cbv zeta.
  destruct (lookups_accumulate_phase Inputs.exact_consts Inputs.exact_wavetable
              eq_refl (proj1 (proj2 (proj2 (proj2 exact_consts_are_exact))))
              (proj2 (proj2 (proj2 (proj2 exact_consts_are_exact))))
              [10; 0; 60; 20]%Q Inputs.exact_state)
    as (_ & _ & Hsum & Hin).
  split; [exact Hsum | apply Hin; left; exact exact_state_in_table].
Defined.

(** ** The two interpolations at a whole position *)

Section WholePosition.

Context {N : Type} {ops : NumberOps N} {E : ExactNumber N} {T : ExactTruncation N}.
Variable c : Wavetable.Consts (N:=N).
Variable wt : Wavetable.Wavetable (N:=N).

Import Wavetable.
#[local] Open Scope R_scope.



End WholePosition.


(** ** Inaccuracy: what a sequence of updates computes *)

Section InaccuracySequences.

Context {N : Type} {ops : NumberOps N}.
Variable randomize : N -> N -> N.

Import Inaccuracy.

Lemma updates_cons (i : Inaccuracy) (round : Z) (rounds : list Z) :
  updates randomize i (round :: rounds)
  = updates randomize (update randomize i round) rounds.
Proof. reflexivity. Qed.

Lemma iterate_calculate (n : nat) (x : N) :
  Nat.iter n (calculate_new_inaccuracy randomize)
    (calculate_new_inaccuracy randomize x)
  = Nat.iter (S n) (calculate_new_inaccuracy randomize) x.
Proof.
  induction n as [| n IH]; [reflexivity |].
  change (Nat.iter (S n) (calculate_new_inaccuracy randomize)
            (calculate_new_inaccuracy randomize x))
    with (calculate_new_inaccuracy randomize
            (Nat.iter n (calculate_new_inaccuracy randomize)
               (calculate_new_inaccuracy randomize x))).
  rewrite IH. reflexivity.
Qed.

Lemma last_cons (rounds : list Z) (round other : Z) :
  last (round :: rounds) other = last rounds round.
Proof.
  revert round other. induction rounds as [| next rest IH]; intros round other.
  - reflexivity.
  - change (last (round :: next :: rest) other) with (last (next :: rest) other).
    rewrite (IH next other), (IH next round). reflexivity.
Qed.

(** X8.  A sequence of [update] calls applies the recurrence
    [x -> 0.1 + 0.9 * randomize(1.0, x)] once for every call whose round
    differs from the round of the call before it: equal rounds in a row
    count once, and a round that comes back later counts again.  The object
    ends with the round of the last call and with its seed. *)
Theorem updates_count_round_changes (rounds : list Z) (i : Inaccuracy) :
  get_inaccuracy (updates randomize i rounds)
  = Nat.iter (Rounds.changes (last_update_round i) rounds)
      (fun x => (nlit 0.1 + nlit 0.9 * randomize (nlit 1.0) x)%num)
      (get_inaccuracy i)
  /\ last_update_round (updates randomize i rounds)
     = last rounds (last_update_round i)
  /\ seed (updates randomize i rounds) = seed i.
Proof.
  change (fun x => (nlit 0.1 + nlit 0.9 * randomize (nlit 1.0) x)%num)
    with (calculate_new_inaccuracy randomize).
  unfold get_inaccuracy.
  revert i. induction rounds as [| round rest IH]; intros i.
  - repeat split.
  - rewrite updates_cons.
    destruct (IH (update randomize i round)) as (Hvalue & Hround & Hseed).
    rewrite update_sets_round in Hvalue, Hround.
    cbn [Rounds.changes]. rewrite last_cons.
    destruct (Z.eq_dec (last_update_round i) round) as [Hsame | Hnew].
    + rewrite Hsame, Z.eqb_refl. subst round. cbn [Nat.add].
      rewrite update_current_round in Hvalue, Hround, Hseed.
      rewrite update_current_round. repeat split; assumption.
    + rewrite (proj2 (Z.eqb_neq _ _) Hnew). cbn [Nat.add].
      rewrite (update_new_round randomize i round Hnew) in Hvalue, Hseed, Hround.
      cbn [inaccuracy seed] in Hvalue, Hseed.
      rewrite iterate_calculate in Hvalue.
      rewrite (update_new_round randomize i round Hnew).
      repeat split; assumption.
Qed.

(** X9.  [reset] puts the value back to the seed but keeps the round of the
    last update.  So an object that is reset and then updated with rounds of
    which the first is neither that round nor -1 goes through the states of
    a new object of the same seed; and an [update] with the kept round,
    right after the reset, leaves the seed in place. *)
Theorem reset_replays_from_seed (i : Inaccuracy) (first : Z) (rest : list Z) :
  first <> last_update_round i ->
  first <> (-1)%Z ->
  updates randomize (reset i) (first :: rest)
  = updates randomize (make (seed i)) (first :: rest)
  /\ get_inaccuracy (update randomize (reset i) (last_update_round i)) = seed i.
Proof.
  intros Hlast Hinitial. split.
  - rewrite !updates_cons.
    rewrite (update_new_round randomize (reset i) first)
      by (cbn [reset last_update_round]; congruence).
    rewrite (update_new_round randomize (make (seed i)) first)
      by (cbn [make last_update_round]; congruence).
    reflexivity.
  - change (last_update_round i) with (last_update_round (reset i)) at 1.
    rewrite update_current_round. reflexivity.
Qed.

End InaccuracySequences.

(** X9: the witness.  An object of seed 0.5 that has seen the rounds 0 and
    1 is reset; the rounds 2, 2, 3 then give what they give on a new
    object. *)
Lemma reset_replays_from_seed_witness :
  let used := Inaccuracy.updates Inputs.exact_randomize (Inaccuracy.make 0.5%Q)
                [0; 1]%Z in
  Inaccuracy.updates Inputs.exact_randomize (Inaccuracy.reset used) [2; 2; 3]%Z
  = Inaccuracy.updates Inputs.exact_randomize
      (Inaccuracy.make (Inaccuracy.seed used)) [2; 2; 3]%Z.
Proof.
  cbv zeta.
  apply (proj1 (reset_replays_from_seed Inputs.exact_randomize
                  (Inaccuracy.updates Inputs.exact_randomize
                     (Inaccuracy.make 0.5%Q) [0; 1]%Z)
                  2 [2; 3]%Z ltac:(vm_compute; discriminate) ltac:(discriminate))).
Defined.

(** ** Voice: the values scheduled at a note's start *)

Section VoiceRanges.

Context {N : Type} {ops : NumberOps N} {E : ExactNumber N}.
Variable e : Voice.Env (N:=N).

Import Voice.
#[local] Open Scope R_scope.

Lemma val_std_max (a b : N) : val (std_max a b) = Rmax (val a) (val b).
Proof.
  unfold std_max. destruct (a <? b)%num eqn:Hlt.
  - apply val_ltb in Hlt. rewrite Rmax_right by lra. reflexivity.
  - assert (Hge : ~ val a < val b)
      by (intros H; apply val_ltb in H; congruence).
    rewrite Rmax_left by lra. reflexivity.
Qed.

Lemma val_std_min (a b : N) : val (std_min a b) = Rmin (val a) (val b).
Proof.
  unfold std_min. destruct (b <? a)%num eqn:Hlt.
  - apply val_ltb in Hlt. rewrite Rmin_right by lra. reflexivity.
  - assert (Hge : ~ val b < val a)
      by (intros H; apply val_ltb in H; congruence).
    rewrite Rmin_left by lra. reflexivity.
Qed.

Lemma val_literal_one : val (nlit 1.0) = 1.
Proof. rewrite val_lit. unfold Q2R. simpl. lra. Qed.

Lemma val_literal_minus_one : val (nlit (-1.0)) = -1.
Proof. rewrite val_lit. unfold Q2R. simpl. lra. Qed.

(** X10.  In exact arithmetic, with the velocity sensitivity in the range
    [0, 2] of its parameter and a raw velocity in [0, 1],
    [calculate_note_velocity] stays in [0, 1], the range of the
    [note_velocity] parameter; the full velocity 1 is kept whatever the
    sensitivity, and a sensitivity above 1 never raises a velocity. *)
Theorem note_velocity_in_range (raw_velocity : N) :
  0 <= val (param_velocity_sensitivity e) <= 2 ->
  0 <= val raw_velocity <= 1 ->
  0 <= val (calculate_note_velocity e raw_velocity) <= 1
  /\ (val raw_velocity = 1 -> val (calculate_note_velocity e raw_velocity) = 1)
  /\ (1 < val (param_velocity_sensitivity e) ->
      val (calculate_note_velocity e raw_velocity) <= val raw_velocity).
Proof.
  intros Hs Hv. unfold calculate_note_velocity. cbv zeta.
  set (s := param_velocity_sensitivity e) in *.
  destruct (s <=? nlit 1.0)%num eqn:Hlow.
  - apply val_leb in Hlow. rewrite val_literal_one in Hlow.
    rewrite val_add, val_sub, val_mul, val_literal_one.
    split; [nra |]. split; [intros H1; rewrite H1; lra | intros Hhigh; lra].
  - assert (Hhigh : 1 < val s).
    { destruct (Rlt_le_dec 1 (val s)) as [Hlt | Hle]; [exact Hlt |].
      rewrite <- val_literal_one in Hle. apply val_leb in Hle. congruence. }
    rewrite val_add, val_mul, !val_sub, !val_mul, val_literal_one.
    set (x := val raw_velocity) in *.
    assert (Hsqr : 0 <= x * x <= x) by nra.
    assert (Hfourth : 0 <= x * x * (x * x) <= x) by nra.
    split; [nra |]. split; [intros H1; rewrite H1; lra | intros _; nra].
Qed.

(** X11.  In exact arithmetic, the note panning is the clamped position of
    the note, in [-1, 1], times the width: its magnitude does not exceed
    that of the width, so with a width in [-1, 1] it lies in the range of
    the [note_panning] parameter. *)
Theorem note_panning_within_width (note : Z) :
  Rabs (val (calculate_note_panning e note)) <= Rabs (val (param_width e))
  /\ (-1 <= val (param_width e) <= 1 ->
      -1 <= val (calculate_note_panning e note) <= 1).
Proof.
  unfold calculate_note_panning.
  rewrite val_mul, val_std_min, val_std_max, val_literal_one,
    val_literal_minus_one.
  match goal with
  | |- context [Rmin 1 (Rmax (-1) ?x)] => set (position := Rmin 1 (Rmax (-1) x))
  end.
  assert (Hposition : -1 <= position <= 1).
  { subst position. split.
    - apply Rmin_glb; [lra | apply Rmax_l].
    - apply Rmin_l. }
  assert (Hbound : Rabs (position * val (param_width e))
                   <= Rabs (val (param_width e))).
  { rewrite Rabs_mult.
    assert (Habs : Rabs position <= 1) by (apply Rabs_le; exact Hposition).
    pose proof (Rabs_pos (val (param_width e))) as Hwidth. nra. }
  split; [exact Hbound |].
  intros Hwidth.
  assert (Habs : Rabs (val (param_width e)) <= 1) by (apply Rabs_le; exact Hwidth).
  apply Rabs_bounds. lra.
Qed.

End VoiceRanges.

(** X10: the witness.  A sensitivity of 1 and a velocity of 0.5. *)
Lemma note_velocity_in_range_witness :
  (0 <= Q2R (Voice.calculate_note_velocity Inputs.exact_env 0.5%Q) <= 1)%R.
Proof.
  refine (proj1 (note_velocity_in_range Inputs.exact_env 0.5%Q _ _));
    cbn [val Exact_is_exact]; unfold Q2R; simpl; lra.
Defined.

(** ** Voice: the unstable tunings *)

Section TuningMasks.

Import Voice VoiceTuning.

Lemma bit_test (mask tuning : Z) :
  (0 <= tuning)%Z ->
  negb (0 =? Z.land mask (Z.shiftl 1 tuning))%Z = Z.testbit mask tuning.
Proof.
  intros Htuning. rewrite Z.shiftl_1_l.
  destruct (Z.testbit mask tuning) eqn:Hbit.
  - apply negb_true_iff, Z.eqb_neq. intros Hzero.
    assert (Hset : Z.testbit (Z.land mask (2 ^ tuning)) tuning = true).
    { rewrite Z.land_spec, Hbit, Z.pow2_bits_true by exact Htuning. reflexivity. }
    rewrite <- Hzero, Z.bits_0 in Hset. discriminate Hset.
  - apply negb_false_iff, Z.eqb_eq. symmetry. apply Z.bits_inj'.
    intros n Hn. rewrite Z.land_spec, Z.bits_0.
    destruct (Z.eq_dec n tuning) as [Hsame | Hother].
    + subst n. rewrite Hbit. reflexivity.
    + rewrite (Z.pow2_bits_false tuning n) by congruence.
      apply andb_false_r.
Qed.

Lemma bit_of_shift (enumerator tuning : Z) :
  (0 <= enumerator)%Z ->
  Z.testbit (Z.shiftl 1 enumerator) tuning = (tuning =? enumerator)%Z.
Proof.
  intros Henumerator. rewrite Z.shiftl_1_l, Z.pow2_bits_eqb by exact Henumerator.
  apply Z.eqb_sym.
Qed.

Variable t : Tunings.

Hypothesis enumerators_valid : Forall is_shift_count (unstable_tunings t).

Lemma is_tuning_unstable_membership (tuning : Z) :
  is_shift_count tuning ->
  is_tuning_unstable t tuning = existsb (Z.eqb tuning) (unstable_tunings t).
Proof.
  intros [Htuning _]. unfold is_tuning_unstable. cbv zeta.
  rewrite bit_test by exact Htuning.
  unfold unstable_tunings in *.
  repeat match goal with
         | H : Forall _ (_ :: _) |- _ =>
             let Hhead := fresh "Hhead" in
             inversion H as [| ? ? Hhead ?]; subst; clear H; destruct Hhead as [Hhead _]
         end.
  rewrite !Z.lor_spec, Z.bits_0, !bit_of_shift by assumption.
  cbn [existsb orb]. rewrite orb_false_r, !orb_assoc. reflexivity.
Qed.

Lemma is_tuning_synced_unstable_membership (tuning : Z) :
  is_shift_count tuning ->
  is_tuning_synced_unstable t tuning
  = existsb (Z.eqb tuning) (synced_unstable_tunings t).
Proof.
  intros [Htuning _]. unfold is_tuning_synced_unstable. cbv zeta.
  rewrite bit_test by exact Htuning.
  unfold unstable_tunings in *.
  repeat match goal with
         | H : Forall _ (_ :: _) |- _ =>
             let Hhead := fresh "Hhead" in
             inversion H as [| ? ? Hhead ?]; subst; clear H; destruct Hhead as [Hhead _]
         end.
  rewrite !Z.lor_spec, Z.bits_0, !bit_of_shift by assumption.
  unfold synced_unstable_tunings.
  cbn [existsb orb]. rewrite orb_false_r, !orb_assoc. reflexivity.
Qed.

(** X12.  For enumerators by which 1 can be shifted, the two bit masks are
    membership tests: [is_tuning_unstable] holds exactly for the twelve
    inaccurate tunings and [is_tuning_synced_unstable] exactly for the four
    synced ones, which are all unstable.  For every other tuning
    [calculate_inaccurate_note_frequency] returns the frequency of the
    table, undetuned. *)
Theorem unstable_tunings_are_the_inaccurate_ones {N : Type} {ops : NumberOps N}
    (e : Env (N:=N)) (v : Voice.Voice (N:=N)) (tuning note channel : Z) :
  tunings e = t ->
  is_shift_count tuning ->
  (is_tuning_unstable t tuning = true <-> In tuning (unstable_tunings t))
  /\ (is_tuning_synced_unstable t tuning = true
      <-> In tuning (synced_unstable_tunings t))
  /\ (is_tuning_synced_unstable t tuning = true ->
      is_tuning_unstable t tuning = true)
  /\ (is_tuning_unstable t tuning = false ->
      calculate_inaccurate_note_frequency e v tuning note channel
      = frequencies e tuning note).
Proof.
  intros Htunings Htuning.
  assert (Hmember : forall l, existsb (Z.eqb tuning) l = true <-> In tuning l).
  { intros l. rewrite existsb_exists. split.
    - intros [x [Hx Heq]]. apply Z.eqb_eq in Heq. subst x. exact Hx.
    - intros Hin. exists tuning. split; [exact Hin | apply Z.eqb_refl]. }
  rewrite (is_tuning_unstable_membership tuning Htuning).
  rewrite (is_tuning_synced_unstable_membership tuning Htuning).
  split; [apply Hmember |]. split; [apply Hmember |]. split.
  - rewrite !Hmember. unfold synced_unstable_tunings, unstable_tunings.
    cbn [In]. intuition auto.
  - intros Hstable. unfold unstable_tunings in Hstable. cbn [existsb] in Hstable.
    repeat match type of Hstable with
           | (_ || _)%bool = false =>
               let Hhead := fresh "Hhead" in
               apply orb_false_iff in Hstable; destruct Hstable as [Hhead Hstable]
           end.
    unfold calculate_inaccurate_note_frequency. cbv zeta. rewrite Htunings.
    repeat match goal with
           | H : (tuning =? _)%Z = false |- _ => rewrite H; clear H
           end.
    reflexivity.
Qed.

End TuningMasks.

Lemma exact_tunings_valid :
  Forall VoiceTuning.is_shift_count (VoiceTuning.unstable_tunings Inputs.exact_tunings).
Proof. repeat constructor; vm_compute; discriminate. Qed.

(** X12: the witness.  The tuning 5 is a synced one; the tuning 13 is none
    of the twelve. *)
Lemma unstable_tunings_are_the_inaccurate_ones_witness :
  VoiceTuning.is_tuning_synced_unstable Inputs.exact_tunings 5 = true
  /\ VoiceTuning.is_tuning_unstable Inputs.exact_tunings 5 = true
  /\ Voice.calculate_inaccurate_note_frequency Inputs.exact_env Inputs.exact_voice
       13 60 0
     = Voice.frequencies Inputs.exact_env 13 60.
Proof.
  destruct (unstable_tunings_are_the_inaccurate_ones Inputs.exact_tunings
              exact_tunings_valid Inputs.exact_env Inputs.exact_voice 5 60 0
              eq_refl ltac:(unfold VoiceTuning.is_shift_count; lia))
    as (_ & Hsynced & Himplies & _).
  destruct (unstable_tunings_are_the_inaccurate_ones Inputs.exact_tunings
              exact_tunings_valid Inputs.exact_env Inputs.exact_voice 13 60 0
              eq_refl ltac:(unfold VoiceTuning.is_shift_count; lia))
    as (Hunstable & _ & _ & Hstable).
  assert (Hfive : VoiceTuning.is_tuning_synced_unstable Inputs.exact_tunings 5 = true).
  { apply Hsynced. vm_compute. tauto. }
  split; [exact Hfive |]. split; [exact (Himplies Hfive) |].
  apply Hstable.
  destruct (VoiceTuning.is_tuning_unstable Inputs.exact_tunings 13) eqn:Hbit;
    [| reflexivity].
  pose proof (proj1 Hunstable eq_refl) as Hin. vm_compute in Hin.
  repeat (destruct Hin as [Hin | Hin]; [discriminate Hin |]). destruct Hin.
Defined.

(** ** Voice: what the lifecycle methods schedule *)

Section VoiceSchedules.

Context {N : Type} {ops : NumberOps N}.
Variable e : Voice.Env (N:=N).

Import Voice.

Lemma calls_call (v : Voice (N:=N)) (cs : list (Call (N:=N))) :
  calls (call v cs) = calls v ++ cs.
Proof. reflexivity. Qed.

Lemma guard_below_notes (note : Z) :
  (note < NOTES e)%Z -> (NOTES e <=? note)%Z = false.
Proof. intros Hnote. apply Z.leb_gt. exact Hnote. Qed.

Lemma set_up_oscillator_frequency_calls (v : Voice) (time_offset : N)
    (note channel previous_note : Z) :
  exists added,
    calls (set_up_oscillator_frequency e v time_offset note channel previous_note)
    = calls v ++ added
    /\ Forall (fun c => match c with
                        | cancel_events_at oscillator_frequency _
                        | schedule_value oscillator_frequency _ _
                        | schedule_linear_ramp oscillator_frequency _ _ => True
                        | _ => False
                        end) added.
Proof.
  unfold set_up_oscillator_frequency. cbv zeta.
  destruct (param_portamento_length e <=? sampling_period e)%num.
  - eexists. rewrite !calls_call, <- app_assoc. split; [reflexivity |].
    repeat constructor.
  - eexists. rewrite !calls_call, <- app_assoc. split; [reflexivity |].
    repeat constructor.
Qed.

Lemma note_on_calls (v : Voice) (time_offset : N) (note_id note channel : Z)
    (velocity : N) (previous_note : Z) :
  state v = OFF -> (note < NOTES e)%Z ->
  exists added,
    calls (note_on e v time_offset note_id note channel velocity previous_note)
    = calls v ++ added
    /\ In (oscillator_start time_offset) added
    /\ (forall t, In (oscillator_start t) added -> t = time_offset)
    /\ (forall t, ~ In (oscillator_stop t) added).
Proof.
  intros Hoff Hnote. unfold note_on. rewrite Hoff, (guard_below_notes note Hnote).
  simpl orb. cbv iota zeta.
  match goal with
  | |- context [set_up_oscillator_frequency e ?w ?t ?n ?ch ?p] =>
      destruct (set_up_oscillator_frequency_calls w t n ch p)
        as (frequency_calls & Hcalls & Hfrequency);
      set (tuned := set_up_oscillator_frequency e w t n ch p) in *
  end.
  rewrite calls_call, Hcalls, calls_call. cbn [calls update_inaccuracy
    save_note_info set_state with_lifecycle]. rewrite <- !app_assoc.
  eexists. split; [reflexivity |].
  assert (Hnone : forall c, In c frequency_calls ->
                            (forall t, c <> oscillator_start t)
                            /\ (forall t, c <> oscillator_stop t)).
  { intros c Hc. pose proof (proj1 (Forall_forall _ _) Hfrequency c Hc) as Hkind.
    split; intros t Heq; subst c; exact Hkind. }
  unfold when.
  split; [| split].
  - rewrite !in_app_iff. cbn.
    repeat first [left; reflexivity | right].
  - intros t Hin.
    repeat (apply in_app_or in Hin; destruct Hin as [Hin | Hin]);
      try (destruct (IS_CARRIER e)); try (destruct (IS_MODULATOR e));
      try (exfalso; exact (proj1 (Hnone _ Hin) t eq_refl));
      cbn in Hin;
      repeat (destruct Hin as [Hin | Hin]; [try discriminate Hin |]);
      try contradiction; try congruence.
  - intros t Hin.
    repeat (apply in_app_or in Hin; destruct Hin as [Hin | Hin]);
      try (destruct (IS_CARRIER e)); try (destruct (IS_MODULATOR e));
      try (exact (proj2 (Hnone _ Hin) t eq_refl));
      cbn in Hin;
      repeat (destruct Hin as [Hin | Hin]; [try discriminate Hin |]);
      try contradiction; try congruence.
Qed.

Lemma cancel_note_smoothly_calls (v : Voice) (time_offset : N) :
  state (cancel_note_smoothly e v time_offset) = OFF
  /\ get_inaccuracy (cancel_note_smoothly e v time_offset) = get_inaccuracy v
  /\ exists added,
       calls (cancel_note_smoothly e v time_offset) = calls v ++ added
       /\ (forall t, In (oscillator_stop t) added
                     <-> t = (time_offset + SMOOTH_NOTE_CANCELLATION_DURATION e)%num)
       /\ (forall t, ~ In (oscillator_start t) added).
Proof.
  unfold cancel_note_smoothly. cbv zeta.
  split; [reflexivity |]. split; [reflexivity |].
  eexists. rewrite calls_call. split; [reflexivity |].
  unfold when.
  split.
  - intros t. destruct (IS_CARRIER e), (IS_MODULATOR e); cbn;
      intuition (try discriminate; try congruence).
  - intros t. destruct (IS_CARRIER e), (IS_MODULATOR e); cbn;
      intuition discriminate.
Qed.

(** X13.  [retrigger] of a note below [Midi::NOTES] starts the note whatever
    the state of the voice was, unlike [note_on]: the voice ends [ON] with
    the new identifier, note and channel and an advanced inaccuracy.  The
    oscillator is stopped and started, and at no other time than
    [time_offset + SMOOTH_NOTE_CANCELLATION_DURATION].  A note at or above
    [Midi::NOTES] leaves the voice as it was. *)
Theorem retrigger_restarts (v : Voice) (time_offset : N)
    (note_id note channel : Z) (velocity : N) (previous_note : Z) :
  let v' := retrigger e v time_offset note_id note channel velocity previous_note in
  let restart := (time_offset + SMOOTH_NOTE_CANCELLATION_DURATION e)%num in
  ((NOTES e <= note)%Z -> v' = v)
  /\ ((note < NOTES e)%Z ->
      state v' = ON /\ get_note_id v' = note_id /\ get_note v' = note
      /\ get_channel v' = channel
      /\ get_inaccuracy v'
         = Inaccuracy.calculate_new_inaccuracy (Math_randomize e) (get_inaccuracy v)
      /\ exists added,
           calls v' = calls v ++ added
           /\ (forall t, In (oscillator_stop t) added <-> t = restart)
           /\ (forall t, In (oscillator_start t) added <-> t = restart)).
Proof.
  cbv zeta. unfold retrigger. split.
  - intros Hhigh. rewrite (proj2 (Z.leb_le _ _) Hhigh). reflexivity.
  - intros Hnote. rewrite (guard_below_notes note Hnote).
    destruct (cancel_note_smoothly_calls v time_offset)
      as (Hoff & Hinaccuracy & cancelled & Hcancelled & Hstop & Hnostart).
    set (released := cancel_note_smoothly e v time_offset) in *.
    set (restart := (time_offset + SMOOTH_NOTE_CANCELLATION_DURATION e)%num) in *.
    destruct (note_on_starts_note e released restart note_id note channel velocity
                previous_note Hoff Hnote) as (Hon & Hid & Hn & Hch & Hin).
    destruct (note_on_calls released restart note_id note channel velocity
                previous_note Hoff Hnote)
      as (started & Hstarted & Hstart & Honly & Hnostop).
    split; [exact Hon |]. split; [exact Hid |]. split; [exact Hn |].
    split; [exact Hch |].
    split; [rewrite Hin, Hinaccuracy; reflexivity |].
    exists (cancelled ++ started).
    rewrite Hstarted, Hcancelled, app_assoc. split; [reflexivity |].
    split; intros t; rewrite in_app_iff; split.
    + intros [Hin_c | Hin_s]; [apply Hstop, Hin_c | destruct (Hnostop t Hin_s)].
    + intros Ht. left. apply Hstop, Ht.
    + intros [Hin_c | Hin_s]; [destruct (Hnostart t Hin_c) | apply Honly, Hin_s].
    + intros Ht. right. subst t. exact Hstart.
Qed.

(** X14.  [cancel_note] releases a voice at once: a voice that was [ON] ends
    [OFF] with its identifier, note and channel cleared and its oscillator
    stopped at the time 0.0, and no envelope is started, ended or cancelled.
    A voice that was not [ON] is left as it was, so a second [cancel_note]
    does nothing. *)
Theorem cancel_note_clears (v : Voice) :
  is_released (cancel_note e v) = true
  /\ cancel_note e (cancel_note e v) = cancel_note e v
  /\ (state v <> ON -> cancel_note e v = v)
  /\ (state v = ON ->
      get_note_id (cancel_note e v) = 0%Z /\ get_note (cancel_note e v) = 0%Z
      /\ get_channel (cancel_note e v) = 0%Z
      /\ exists added,
           calls (cancel_note e v) = calls v ++ added
           /\ In (oscillator_stop (nlit 0.0)) added
           /\ Forall (fun c => match c with
                               | cancel_events _ | oscillator_cancel_events
                               | oscillator_stop _ => True
                               | _ => False
                               end) added).
Proof.
  assert (Hreleased : is_released (cancel_note e v) = true).
  { unfold cancel_note, is_released. destruct (state v) eqn:Hstate; cbn.
    - reflexivity.
    - rewrite Hstate. reflexivity. }
  split; [exact Hreleased |]. split; [| split].
  - unfold is_released in Hreleased.
    unfold cancel_note at 1.
    destruct (state (cancel_note e v)); [discriminate Hreleased | reflexivity].
  - intros Hoff. unfold cancel_note.
    destruct (state v); [contradiction | reflexivity].
  - intros Hon. unfold cancel_note. rewrite Hon. cbn [State_eqb negb]. cbv iota zeta.
    repeat (split; [reflexivity |]).
    eexists. rewrite calls_call. split; [reflexivity |].
    unfold when. split.
    + destruct (IS_CARRIER e), (IS_MODULATOR e); cbn; tauto.
    + destruct (IS_CARRIER e), (IS_MODULATOR e); cbn; repeat constructor.
Qed.

(** X16.  [glide_to] with a portamento longer than 0.000001 s moves a
    sounding note without restarting it: the state is kept, the identifier,
    note and channel are replaced, the inaccuracy is advanced, the oscillator
    is neither started nor stopped, and every ramp that is scheduled lasts
    the portamento length.  With a shorter portamento it is [retrigger]; a
    note at or above [Midi::NOTES] leaves the voice as it was. *)
Theorem glide_to_keeps_sounding (v : Voice) (time_offset : N)
    (note_id note channel : Z) (velocity : N) (previous_note : Z) :
  let v' := glide_to e v time_offset note_id note channel velocity previous_note in
  ((NOTES e <= note)%Z -> v' = v)
  /\ ((note < NOTES e)%Z ->
      (param_portamento_length e <=? nlit 0.000001)%num = true ->
      v' = retrigger e v time_offset note_id note channel velocity previous_note)
  /\ ((note < NOTES e)%Z ->
      (param_portamento_length e <=? nlit 0.000001)%num = false ->
      state v' = state v /\ get_note_id v' = note_id /\ get_note v' = note
      /\ get_channel v' = channel
      /\ get_inaccuracy v'
         = Inaccuracy.calculate_new_inaccuracy (Math_randomize e) (get_inaccuracy v)
      /\ exists added,
           calls v' = calls v ++ added
           /\ Forall (fun c => match c with
                               | update_envelope _ t => t = time_offset
                               | cancel_events_at _ t => t = time_offset
                               | schedule_linear_ramp _ duration _ =>
                                   duration = param_portamento_length e
                               | _ => False
                               end) added).
Proof.
  cbv zeta. unfold glide_to. split; [| split].
  - intros Hhigh. rewrite (proj2 (Z.leb_le _ _) Hhigh). reflexivity.
  - intros Hnote Hshort. rewrite (guard_below_notes note Hnote), Hshort.
    reflexivity.
  - intros Hnote Hlong. rewrite (guard_below_notes note Hnote), Hlong.
    repeat (split; [reflexivity |]).
    eexists. rewrite !calls_call. cbn [calls update_inaccuracy save_note_info
      with_lifecycle]. rewrite <- app_assoc. split; [reflexivity |].
    unfold when.
    destruct (IS_CARRIER e), (IS_MODULATOR e); cbn; repeat constructor.
Qed.

End VoiceSchedules.

(** X13: the witness.  The voice that plays the note 60 is retriggered with
    the note 64. *)
Lemma retrigger_restarts_witness :
  Voice.state (Voice.retrigger Inputs.exact_env Inputs.exact_voice_on 0%Q 2 64 0
                 1%Q 60) = Voice.ON
  /\ Voice.get_note (Voice.retrigger Inputs.exact_env Inputs.exact_voice_on 0%Q 2 64
                       0 1%Q 60) = 64%Z.
Proof.
  destruct (proj2 (retrigger_restarts Inputs.exact_env Inputs.exact_voice_on 0%Q 2
                     64 0 1%Q 60) ltac:(vm_compute; reflexivity))
    as (Hon & _ & Hnote & _).
  split; [exact Hon | exact Hnote].
Defined.

(** ** Voice: when a released note stops *)

Section VoiceRelease.

Context {N : Type} {ops : NumberOps N} {E : ExactNumber N}.
Variable e : Voice.Env (N:=N).

Import Voice.
#[local] Open Scope R_scope.

(** X15.  In exact arithmetic, the matching [note_off] of a sounding voice
    stops the oscillator, and at no other time than [time_offset] plus the
    longest of the release times that [end_envelope] returns for the
    oscillator amplitude and the volume, and for a modulator the subharmonic
    amplitude too: the oscillator is not stopped before any of these
    envelopes has ended, nor later than the last of them.  The pending
    oscillator events are cancelled from the same time on. *)
Theorem note_off_stops_after_envelopes (v : Voice) (time_offset velocity : N) :
  state v = ON ->
  let v' := note_off e v time_offset (get_note_id v) (get_note v) velocity in
  let amplitude_end := val (end_envelope_result e oscillator_amplitude time_offset) in
  let subharmonic_end :=
    val (end_envelope_result e oscillator_subharmonic_amplitude time_offset) in
  let volume_end := val (end_envelope_result e volume time_offset) in
  exists (off_after : N) (added : list Call),
    calls v' = calls v ++ added
    /\ (forall t, In (oscillator_stop t) added <-> t = off_after)
    /\ (forall t, In (oscillator_cancel_events_at t) added <-> t = off_after)
    /\ val off_after
       = val time_offset
         + (if IS_MODULATOR e
            then Rmax (Rmax amplitude_end subharmonic_end) volume_end
            else Rmax amplitude_end volume_end)
    /\ val time_offset + amplitude_end <= val off_after
    /\ val time_offset + volume_end <= val off_after
    /\ (IS_MODULATOR e = true ->
        val time_offset + subharmonic_end <= val off_after).
Proof.
  intros Hon. cbv zeta. unfold note_off.
  rewrite Hon, !Z.eqb_refl. cbn [State_eqb negb orb]. cbv iota zeta.
  set (amplitude_end := end_envelope_result e oscillator_amplitude time_offset).
  set (subharmonic_end :=
         end_envelope_result e oscillator_subharmonic_amplitude time_offset).
  set (volume_end := end_envelope_result e volume time_offset).
  unfold IS_CARRIER, when.
  destruct (IS_MODULATOR e); cbn [negb].
  - exists (time_offset
            + std_max (std_max amplitude_end subharmonic_end) volume_end)%num.
    eexists. rewrite !calls_call. cbn [calls set_state with_lifecycle].
    rewrite !calls_call, <- !app_assoc.
    split; [reflexivity |].
    split; [intros t; cbn; intuition (try discriminate; try congruence) |].
    split; [intros t; cbn; intuition (try discriminate; try congruence) |].
    rewrite val_add, !val_std_max.
    pose proof (Rmax_l (Rmax (val amplitude_end) (val subharmonic_end))
                  (val volume_end)) as H1.
    pose proof (Rmax_r (Rmax (val amplitude_end) (val subharmonic_end))
                  (val volume_end)) as H2.
    pose proof (Rmax_l (val amplitude_end) (val subharmonic_end)) as H3.
    pose proof (Rmax_r (val amplitude_end) (val subharmonic_end)) as H4.
    split; [reflexivity |].
    repeat split; try intros _; lra.
  - exists (time_offset + std_max amplitude_end volume_end)%num.
    eexists. rewrite !calls_call. cbn [calls set_state with_lifecycle].
    rewrite !calls_call, <- !app_assoc.
    split; [reflexivity |].
    split; [intros t; cbn; intuition (try discriminate; try congruence) |].
    split; [intros t; cbn; intuition (try discriminate; try congruence) |].
    rewrite val_add, !val_std_max.
    pose proof (Rmax_l (val amplitude_end) (val volume_end)) as H1.
    pose proof (Rmax_r (val amplitude_end) (val volume_end)) as H2.
    split; [reflexivity |].
    repeat split; try (intros Hfalse; discriminate Hfalse); lra.
Qed.

End VoiceRelease.

(** X15: the witness.  The voice that plays the note 60 is released at
    0.5 s; every envelope of the surroundings ends after 0.1 s, and the
    oscillator is stopped at 0.6 s. *)
Lemma note_off_stops_after_envelopes_witness :
  exists (off_after : Q) (added : list Voice.Call),
    Voice.calls (Voice.note_off Inputs.exact_env Inputs.exact_voice_on 0.5%Q
                   (Voice.get_note_id Inputs.exact_voice_on)
                   (Voice.get_note Inputs.exact_voice_on) 0%Q)
    = Voice.calls Inputs.exact_voice_on ++ added
    /\ In (Voice.oscillator_stop off_after) added
    /\ (Q2R off_after = Q2R 0.5 + Rmax (Q2R 0.1) (Q2R 0.1))%R.
Proof.
  destruct (note_off_stops_after_envelopes Inputs.exact_env Inputs.exact_voice_on
              0.5%Q 0%Q eq_refl)
    as (off_after & added & Hcalls & Hstop & _ & Hexact & _).
  exists off_after, added.
  split; [exact Hcalls |]. split; [apply Hstop; reflexivity | exact Hexact].
Defined.

(** ** Program names ([src/bank.cpp]) *)

Section ProgramNames.

Variable NAME_MAX_LENGTH : Z.
Variable char_is_signed : bool.

Hypothesis name_length : (20 <= NAME_MAX_LENGTH)%Z.

Import Bank Bank.Literals Names.

Notation allowed := (fun c => is_allowed_char char_is_signed c = true).
Notation filter_name := (Bank.filter_name NAME_MAX_LENGTH char_is_signed).
Notation sanitize := (Bank.sanitize NAME_MAX_LENGTH char_is_signed).
Notation clean := (Names.clean NAME_MAX_LENGTH char_is_signed).

Lemma is_allowed_char_printable (c : Ascii.ascii) :
  is_allowed_char char_is_signed c = true <-> is_printable c.
Proof.
  unfold is_allowed_char, is_printable, char_value.
  rewrite !andb_true_iff, !negb_true_iff, !Ascii.eqb_neq, !Z.leb_le.
  pose proof (Ascii.nat_ascii_bounded c) as Hbound.
  change (Ascii.nat_of_ascii TILDE) with 126%nat.
  change (Ascii.nat_of_ascii SPACE) with 32%nat.
  destruct char_is_signed; cbn [andb].
  - change (127 <? Z.of_nat 126)%Z with false.
    change (127 <? Z.of_nat 32)%Z with false. cbv iota.
    destruct (127 <? Z.of_nat (Ascii.nat_of_ascii c))%Z eqn:Hhigh.
    + apply Z.ltb_lt in Hhigh. split; intros H; exfalso; lia.
    + apply Z.ltb_ge in Hhigh. split; intros H; repeat split; try tauto; lia.
  - split; intros H; repeat split; try tauto; lia.
Qed.

Lemma dot_is_allowed : Forall allowed ELLIPSIS.
Proof.
  repeat constructor; apply is_allowed_char_printable; unfold is_printable;
    (split; [cbn; lia | repeat split; discriminate]).
Qed.

Lemma filter_name_allowed (name filtered : text) :
  Forall allowed filtered -> Forall allowed (filter_name name filtered).
Proof.
  revert filtered. induction name as [| c rest IH]; intros filtered Hfiltered.
  - exact Hfiltered.
  - cbn [Bank.filter_name].
    destruct (is_allowed_char char_is_signed c) eqn:Hc; cbn [andb];
      [| apply IH, Hfiltered].
    destruct ((0 <? Z.of_nat (length filtered))%Z || negb (Ascii.eqb c SPACE))%bool;
      [| apply IH, Hfiltered].
    assert (Hmore : Forall allowed (filtered ++ [c])).
    { apply Forall_app. split; [exact Hfiltered | repeat constructor; exact Hc]. }
    destruct (NAME_MAX_LENGTH <? Z.of_nat (length (filtered ++ [c])))%Z;
      [exact Hmore | apply IH, Hmore].
Qed.

Lemma filter_name_start (name filtered : text) :
  filtered = [] \/ hd SPACE filtered <> SPACE ->
  filter_name name filtered = [] \/ hd SPACE (filter_name name filtered) <> SPACE.
Proof.
  revert filtered. induction name as [| c rest IH]; intros filtered Hfiltered.
  - exact Hfiltered.
  - cbn [Bank.filter_name].
    destruct (is_allowed_char char_is_signed c); cbn [andb];
      [| apply IH, Hfiltered].
    destruct ((0 <? Z.of_nat (length filtered))%Z || negb (Ascii.eqb c SPACE))%bool
      eqn:Hkeep; [| apply IH, Hfiltered].
    assert (Hmore : filtered ++ [c] = [] \/ hd SPACE (filtered ++ [c]) <> SPACE).
    { right. destruct filtered as [| first others].
      - cbn in Hkeep. apply negb_true_iff, Ascii.eqb_neq in Hkeep. exact Hkeep.
      - destruct Hfiltered as [Hempty | Hfirst]; [discriminate Hempty | exact Hfirst]. }
    destruct (NAME_MAX_LENGTH <? Z.of_nat (length (filtered ++ [c])))%Z;
      [exact Hmore | apply IH, Hmore].
Qed.

(** A name of allowed characters that does not start with a space is
    copied as it is, up to [NAME_MAX_LENGTH + 1] characters. *)
Lemma filter_name_copies (name filtered : text) :
  Forall allowed name ->
  filtered <> [] \/ hd SPACE name <> SPACE ->
  (Z.of_nat (length filtered) <= NAME_MAX_LENGTH)%Z ->
  filter_name name filtered
  = filtered ++ firstn (Z.to_nat (NAME_MAX_LENGTH + 1) - length filtered) name.
Proof.
  revert filtered. induction name as [| c rest IH];
    intros filtered Hname Hstart Hlength.
  - cbn [Bank.filter_name]. rewrite firstn_nil, app_nil_r. reflexivity.
  - cbn [Bank.filter_name].
    inversion Hname as [| ? ? Hc Hrest]; subst. rewrite Hc. cbn [andb].
    assert (Hkeep : ((0 <? Z.of_nat (length filtered))%Z
                     || negb (Ascii.eqb c SPACE))%bool = true).
    { destruct filtered as [| first others].
      - destruct Hstart as [Hnonempty | Hfirst]; [contradiction |].
        cbn. apply negb_true_iff, Ascii.eqb_neq. exact Hfirst.
      - reflexivity. }
    rewrite Hkeep.
    replace (Z.to_nat (NAME_MAX_LENGTH + 1) - length filtered)%nat
      with (S (Z.to_nat NAME_MAX_LENGTH - length filtered)) by lia.
    cbn [firstn].
    rewrite length_app. cbn [length].
    destruct (NAME_MAX_LENGTH <? Z.of_nat (length filtered + 1))%Z eqn:Hfull.
    + apply Z.ltb_lt in Hfull.
      replace (Z.to_nat NAME_MAX_LENGTH - length filtered)%nat with 0%nat by lia.
      reflexivity.
    + apply Z.ltb_ge in Hfull.
      rewrite (IH (filtered ++ [c]) Hrest).
      * rewrite <- app_assoc, length_app. cbn [length app].
        replace (Z.to_nat (NAME_MAX_LENGTH + 1) - (length filtered + 1))%nat
          with (Z.to_nat NAME_MAX_LENGTH - length filtered)%nat by lia.
        reflexivity.
      * left. destruct filtered; discriminate.
      * rewrite length_app. cbn [length]. lia.
Qed.

Lemma strip_spaces_suffix (reversed : text) :
  exists spaces, reversed = repeat SPACE spaces ++ strip_spaces reversed.
Proof.
  induction reversed as [| c rest [spaces IH]].
  - exists 0%nat. reflexivity.
  - cbn [strip_spaces]. destruct (Ascii.eqb c SPACE) eqn:Hc.
    + apply Ascii.eqb_eq in Hc. subst c. exists (S spaces).
      cbn [repeat app]. rewrite <- IH. reflexivity.
    + exists 0%nat. reflexivity.
Qed.

Lemma strip_spaces_start (reversed : text) :
  strip_spaces reversed = [] \/ hd SPACE (strip_spaces reversed) <> SPACE.
Proof.
  induction reversed as [| c rest IH].
  - left. reflexivity.
  - cbn [strip_spaces]. destruct (Ascii.eqb c SPACE) eqn:Hc; [exact IH |].
    right. apply Ascii.eqb_neq in Hc. exact Hc.
Qed.

Lemma strip_spaces_kept (reversed : text) :
  hd SPACE reversed <> SPACE -> strip_spaces reversed = reversed.
Proof.
  destruct reversed as [| c rest]; [reflexivity |].
  intros Hc. cbn [strip_spaces]. apply Ascii.eqb_neq in Hc. cbn [hd] in Hc.
  rewrite Hc. reflexivity.
Qed.

Lemma last_is_hd_rev (s : text) : last s SPACE = hd SPACE (rev s).
Proof.
  induction s as [| c rest IH] using rev_ind; [reflexivity |].
  rewrite last_last, rev_unit. reflexivity.
Qed.

(** What the two loops leave: a prefix of the filtered characters, without
    a space at either end. *)
Lemma stripped_name (name : text) :
  let sanitized := rev (strip_spaces (rev (filter_name name []))) in
  Forall allowed sanitized
  /\ (sanitized = [] \/ (hd SPACE sanitized <> SPACE /\ last sanitized SPACE <> SPACE)).
Proof.
  cbv zeta.
  set (filtered := filter_name name []).
  assert (Hallowed : Forall allowed filtered)
    by (apply filter_name_allowed; constructor).
  assert (Hstart : filtered = [] \/ hd SPACE filtered <> SPACE)
    by (apply filter_name_start; left; reflexivity).
  destruct (strip_spaces_suffix (rev filtered)) as [spaces Hsuffix].
  set (kept := strip_spaces (rev filtered)) in *.
  assert (Hfiltered : filtered = rev kept ++ repeat SPACE spaces).
  { rewrite <- (rev_involutive filtered), Hsuffix, rev_app_distr.
    rewrite rev_repeat. reflexivity. }
  split.
  - rewrite Hfiltered in Hallowed. apply Forall_app in Hallowed. tauto.
  - destruct (rev kept) as [| first others] eqn:Hkept; [left; reflexivity |].
    right. split.
    + destruct Hstart as [Hempty | Hfirst].
      * rewrite Hempty in Hfiltered. discriminate Hfiltered.
      * rewrite Hfiltered in Hfirst. exact Hfirst.
    + rewrite <- Hkept, last_is_hd_rev, rev_involutive.
      destruct (strip_spaces_start (rev filtered)) as [Hempty | Hlast].
      * fold kept in Hempty. rewrite Hempty in Hkept. discriminate Hkept.
      * exact Hlast.
Qed.

Lemma sanitize_gives_clean_name_or_default (default_name name : text) :
  exists sanitized,
    sanitize default_name name = Some sanitized
    /\ (sanitized = default_name \/ clean sanitized).
Proof.
  unfold Bank.sanitize. cbv zeta.
  destruct (stripped_name name) as [Hallowed Hends]. cbv zeta in Hallowed, Hends.
  set (sanitized := rev (strip_spaces (rev (filter_name name [])))) in *.
  destruct (NAME_MAX_LENGTH <=? Z.of_nat (length sanitized))%Z eqn:Hlong.
  - apply Z.leb_le in Hlong. unfold erase.
    replace (length sanitized <? 20)%nat with false
      by (symmetry; apply Nat.ltb_ge; lia).
    cbn [Wavetable.bind]. eexists. split; [reflexivity |]. right.
    assert (Hlength : length (firstn 20 sanitized) = 20%nat)
      by (apply firstn_length_le; lia).
    assert (Hall : Forall allowed (firstn 20 sanitized ++ ELLIPSIS)).
    { apply Forall_app. split; [| exact dot_is_allowed].
      rewrite <- (firstn_skipn 20 sanitized) in Hallowed.
      apply Forall_app in Hallowed. tauto. }
    destruct sanitized as [| first others]; [cbn in Hlong; lia |].
    destruct Hends as [Hempty | [Hfirst _]]; [discriminate Hempty |].
    unfold Names.clean. split; [discriminate |]. split; [exact Hall |].
    split; [exact Hfirst |]. split.
    + rewrite last_is_hd_rev, rev_app_distr. cbn. discriminate.
    + right. exists (firstn 20 (first :: others)).
      split; [exact Hlength | reflexivity].
  - apply Z.leb_gt in Hlong.
    destruct (length sanitized =? 0)%nat eqn:Hempty.
    + eexists. split; [reflexivity | left; reflexivity].
    + apply Nat.eqb_neq in Hempty. eexists. split; [reflexivity |]. right.
      destruct Hends as [Hnil | [Hfirst Hlast]];
        [rewrite Hnil in Hempty; contradiction |].
      unfold Names.clean.
      split; [intros Hnil; rewrite Hnil in Hempty; contradiction |].
      split; [exact Hallowed |]. split; [exact Hfirst |].
      split; [exact Hlast | left; exact Hlong].
Qed.

Lemma clean_name_is_printable (s : text) : clean s -> Forall is_printable s.
Proof.
  intros (_ & Hallowed & _).
  apply Forall_forall. intros c Hc. apply is_allowed_char_printable.
  exact (proj1 (Forall_forall _ _) Hallowed c Hc).
Qed.

(** X17.  With [NAME_MAX_LENGTH >= 20], [sanitize] throws for no input, and
    what it returns is the default name of the object or a clean name: not
    empty, of printable ASCII without brackets and backslash (so without
    line breaks), with no space at either end, and either shorter than
    [NAME_MAX_LENGTH] or the first twenty characters followed by three
    dots. *)
Theorem sanitize_gives_clean_name (default_name name : text) :
  exists sanitized,
    sanitize default_name name = Some sanitized
    /\ (sanitized = default_name
        \/ (clean sanitized /\ Forall is_printable sanitized)).
Proof.
  destruct (sanitize_gives_clean_name_or_default default_name name)
    as (sanitized & Hsanitized & Hkind).
  exists sanitized. split; [exact Hsanitized |].
  destruct Hkind as [Hsame | Hclean]; [left; exact Hsame | right].
  split; [exact Hclean | apply clean_name_is_printable, Hclean].
Qed.

(** A clean name is returned as it is, whatever the default name. *)
Lemma clean_name_is_kept (default_name s : text) :
  clean s -> sanitize default_name s = Some s.
Proof.
  intros (Hnonempty & Hallowed & Hfirst & Hlast & Hlength).
  assert (Hstrip : forall u, last u SPACE <> SPACE ->
                             rev (strip_spaces (rev u)) = u).
  { intros u Hu. rewrite last_is_hd_rev in Hu.
    rewrite (strip_spaces_kept (rev u) Hu). apply rev_involutive. }
  unfold Bank.sanitize. cbv zeta.
  rewrite (filter_name_copies s [] Hallowed (or_intror Hfirst))
    by (cbn; lia).
  cbn [app length]. rewrite Nat.sub_0_r.
  destruct Hlength as [Hshort | [start [Hstart Hs]]].
  - rewrite firstn_all2 by lia. rewrite (Hstrip s Hlast).
    replace (NAME_MAX_LENGTH <=? Z.of_nat (length s))%Z with false
      by (symmetry; apply Z.leb_gt; exact Hshort).
    destruct s; [contradiction | reflexivity].
  - assert (Hdots : exists dots,
               firstn (Z.to_nat (NAME_MAX_LENGTH + 1)) s = start ++ DOT :: dots
               /\ last (start ++ DOT :: dots) SPACE <> SPACE
               /\ length dots
                  = (Nat.min 23 (Z.to_nat (NAME_MAX_LENGTH + 1)) - 21)%nat).
    { subst s. rewrite firstn_app, Hstart.
      rewrite (firstn_all2 start) by lia.
      remember (Z.to_nat (NAME_MAX_LENGTH + 1) - 20)%nat as n eqn:Hn.
      destruct n as [| [| [| n]]]; [lia | | |].
      - exists []. split; [reflexivity |]. split.
        + rewrite last_is_hd_rev, rev_app_distr. cbn. discriminate.
        + cbn [length]. lia.
      - exists [DOT]. split; [reflexivity |]. split.
        + rewrite last_is_hd_rev, rev_app_distr. cbn. discriminate.
        + cbn [length]. lia.
      - exists [DOT; DOT].
        split; [rewrite firstn_all2 by (cbn; lia); reflexivity |]. split.
        + rewrite last_is_hd_rev, rev_app_distr. cbn. discriminate.
        + cbn [length]. lia. }
    destruct Hdots as (dots & Hcopy & Hend & Hcount).
    rewrite Hcopy, (Hstrip _ Hend).
    assert (Hsize : length (start ++ DOT :: dots)
                    = Nat.min 23 (Z.to_nat (NAME_MAX_LENGTH + 1)))
      by (rewrite length_app, Hstart; cbn [length]; lia).
    destruct (NAME_MAX_LENGTH <=? Z.of_nat (length (start ++ DOT :: dots)))%Z
      eqn:Hlong.
    + unfold erase.
      replace (length (start ++ DOT :: dots) <? 20)%nat with false
        by (symmetry; apply Nat.ltb_ge; lia).
      cbn [Wavetable.bind].
      rewrite firstn_app, Hstart, (firstn_all2 start) by lia.
      rewrite Nat.sub_diag. cbn [firstn]. rewrite app_nil_r, Hs. reflexivity.
    + apply Z.leb_gt in Hlong.
      assert (Hall : firstn (Z.to_nat (NAME_MAX_LENGTH + 1)) s = s).
      { apply firstn_all2. rewrite Hs, length_app, Hstart.
        change (length ELLIPSIS) with 3%nat. lia. }
      rewrite <- Hcopy, Hall.
      destruct s; [contradiction | reflexivity].
Qed.

(** X18.  A program object's default name is what [sanitize] made of the
    given one while the default name was still empty.  With that default
    name, [sanitize] returns the default name unchanged, and it is
    idempotent: sanitizing a sanitized name changes nothing. *)
Theorem sanitize_is_idempotent (given : text) :
  exists default_name,
    sanitize [] given = Some default_name
    /\ sanitize default_name default_name = Some default_name
    /\ forall name sanitized,
         sanitize default_name name = Some sanitized ->
         sanitize default_name sanitized = Some sanitized.
Proof.
  destruct (sanitize_gives_clean_name_or_default [] given)
    as (default_name & Hgiven & Hkind).
  exists default_name. split; [exact Hgiven |].
  assert (Hdefault : sanitize default_name default_name = Some default_name).
  { destruct Hkind as [Hempty | Hclean].
    - subst default_name. unfold Bank.sanitize. cbn.
      replace (NAME_MAX_LENGTH <=? 0)%Z with false
        by (symmetry; apply Z.leb_gt; lia).
      reflexivity.
    - apply clean_name_is_kept, Hclean. }
  split; [exact Hdefault |].
  intros name sanitized Hname.
  destruct (sanitize_gives_clean_name_or_default default_name name)
    as (result & Hresult & Hresult_kind).
  rewrite Hname in Hresult. injection Hresult as Hresult. subst result.
  destruct Hresult_kind as [Hsame | Hclean].
  - rewrite Hsame. exact Hdefault.
  - apply clean_name_is_kept, Hclean.
Qed.

End ProgramNames.

(** X17: the witness.  With 24 for [NAME_MAX_LENGTH], brackets and the
    spaces at both ends are dropped. *)
Lemma sanitize_gives_clean_name_witness :
  exists sanitized,
    Bank.sanitize 24 true [] BankInputs.typed_name = Some sanitized
    /\ (sanitized = []
        \/ (Names.clean 24 true sanitized /\ Forall Names.is_printable sanitized)).
Proof.
  apply (sanitize_gives_clean_name 24 true). lia.
Defined.

(** X18: the witness.  The default name made of the typed name is kept by
    a second [sanitize]. *)
Lemma sanitize_is_idempotent_witness :
  exists default_name,
    Bank.sanitize 24 true [] BankInputs.typed_name = Some default_name
    /\ Bank.sanitize 24 true default_name default_name = Some default_name.
Proof.
  destruct (sanitize_is_idempotent 24 true ltac:(lia) BankInputs.typed_name)
    as (default_name & Hgiven & Hkept & _).
  exists default_name. split; [exact Hgiven | exact Hkept].
Defined.

(** ** Programs: the stored text *)

Section ProgramText.

Import Bank Bank.Literals.

Lemma substr_defined (s : text) (pos : nat) :
  (pos <= length s)%nat -> substr s pos = Some (skipn pos s).
Proof.
  intros Hpos. unfold substr.
  replace (length s <? pos)%nat with false by (symmetry; apply Nat.ltb_ge; exact Hpos).
  reflexivity.
Qed.

Lemma skipn_header (prefix rest : text) : skipn (length prefix) (prefix ++ rest) = rest.
Proof.
  rewrite skipn_app, skipn_all, Nat.sub_diag. reflexivity.
Qed.

Lemma update_defined (p : Program) :
  (params_start p <= length (serialized p))%nat ->
  update p
  = Some {| name := name p;
            default_name := default_name p;
            serialized := header (name p) ++ params p;
            params_start := length (header (name p)) |}.
Proof.
  intros Hstart. unfold update, params. cbv zeta.
  rewrite (substr_defined _ _ Hstart). reflexivity.
Qed.

(** X19.  [update] rewrites the two header lines in front of the parameter
    lines and keeps the parameter lines: on a program whose [params_start]
    lies inside its text, the new text is the header of the name followed
    by the old parameter lines, [params_start] is the length of the header,
    the program is blank exactly if it was, and a second [update] changes
    nothing.  With [params_start] beyond the text, [substr] throws. *)
Theorem update_keeps_params (p : Program) :
  ((params_start p <= length (serialized p))%nat ->
   exists p',
     update p = Some p'
     /\ serialize p' = header (name p) ++ params p
     /\ params_start p' = length (header (name p))
     /\ params p' = params p
     /\ get_name p' = get_name p
     /\ default_name p' = default_name p
     /\ is_blank p' = is_blank p
     /\ update p' = Some p')
  /\ ((length (serialized p) < params_start p)%nat -> update p = None).
Proof.
  split.
  - intros Hstart. rewrite (update_defined p Hstart).
    eexists. split; [reflexivity |].
    unfold serialize, get_name, is_blank.
    assert (Hparams : params {| name := name p;
                                default_name := default_name p;
                                serialized := header (name p) ++ params p;
                                params_start := length (header (name p)) |}
                      = params p).
    { unfold params at 1. cbn [serialized params_start]. apply skipn_header. }
    cbn [serialized params_start name Bank.default_name].
    split; [reflexivity |]. split; [reflexivity |]. split; [exact Hparams |].
    split; [reflexivity |]. split; [reflexivity |]. split.
    + rewrite length_app. unfold params.
      destruct (params_start p =? length (serialized p))%nat eqn:Hblank.
      * apply Nat.eqb_eq in Hblank. rewrite Hblank, skipn_all. cbn [length].
        apply Nat.eqb_eq. lia.
      * apply Nat.eqb_neq in Hblank. apply Nat.eqb_neq.
        rewrite length_skipn. lia.
    + rewrite update_defined
        by (cbn [serialized params_start]; rewrite length_app; lia).
      rewrite Hparams. reflexivity.
  - intros Hbeyond. unfold update, substr. cbv zeta.
    replace (length (serialized p) <? params_start p)%nat with true
      by (symmetry; apply Nat.ltb_lt; exact Hbeyond).
    reflexivity.
Qed.

Variable NAME_MAX_LENGTH : Z.
Variable char_is_signed : bool.

Hypothesis name_length : (20 <= NAME_MAX_LENGTH)%Z.

Lemma printable_is_no_line_break (s : text) :
  Forall Names.is_printable s ->
  ~ In CR s /\ ~ In LF s /\ ~ In OPENING_BRACKET s /\ ~ In CLOSING_BRACKET s.
Proof.
  intros Hs.
  assert (Hnot : forall c, ~ Names.is_printable c -> ~ In c s).
  { intros c Hc Hin. apply Hc. exact (proj1 (Forall_forall _ _) Hs c Hin). }
  repeat split; apply Hnot; unfold Names.is_printable; cbn; intros H;
    try lia; tauto.
Qed.

(** X20.  [set_name] on a program whose [params_start] lies inside its text
    and whose default name is printable: the program gets the sanitized
    name, its text becomes the line [[js80p]], the line [NAME = ] with that
    name, and the parameter lines as they were, and it is blank exactly if
    it was.  The name holds no line break and no bracket, so the header is
    these two lines whatever was given. *)
Theorem set_name_rewrites_header (p : Program) (new_name : text) :
  (params_start p <= length (serialized p))%nat ->
  Forall Names.is_printable (default_name p) ->
  exists p',
    set_name NAME_MAX_LENGTH char_is_signed p new_name = Some p'
    /\ sanitize NAME_MAX_LENGTH char_is_signed (default_name p) new_name
       = Some (get_name p')
    /\ serialize p'
       = SECTION_LINE ++ [CR; LF] ++ NAME_KEY ++ get_name p' ++ [CR; LF] ++ params p
    /\ is_blank p' = is_blank p
    /\ ~ In CR (get_name p') /\ ~ In LF (get_name p')
    /\ ~ In OPENING_BRACKET (get_name p') /\ ~ In CLOSING_BRACKET (get_name p').
Proof.
  intros Hstart Hdefault.
  destruct (sanitize_gives_clean_name_or_default NAME_MAX_LENGTH char_is_signed
              name_length (default_name p) new_name)
    as (sanitized & Hsanitized & Hkind).
  assert (Hprintable : Forall Names.is_printable sanitized).
  { destruct Hkind as [Hsame | Hclean]; [rewrite Hsame; exact Hdefault |].
    exact (clean_name_is_printable NAME_MAX_LENGTH char_is_signed sanitized Hclean). }
  unfold set_name, set_name_without_update. rewrite Hsanitized.
  cbn [Wavetable.bind].
  rewrite update_defined by exact Hstart.
  eexists. split; [reflexivity |].
  unfold get_name, serialize, is_blank, params.
  cbn [name serialized params_start].
  split; [reflexivity |]. split.
  - unfold header. rewrite <- !app_assoc. reflexivity.
  - split; [| apply printable_is_no_line_break, Hprintable].
    rewrite length_app.
    destruct (params_start p =? length (serialized p))%nat eqn:Hblank.
    + apply Nat.eqb_eq in Hblank. rewrite Hblank, skipn_all. cbn [length].
      apply Nat.eqb_eq. lia.
    + apply Nat.eqb_neq in Hblank. apply Nat.eqb_neq.
      rewrite length_skipn. lia.
Qed.

End ProgramText.

(** X20: the witness.  The stored program with two header lines and one
    parameter line is renamed. *)
Lemma set_name_rewrites_header_witness :
  exists p',
    Bank.set_name 24 true BankInputs.stored_program BankInputs.typed_name = Some p'
    /\ Bank.serialize p'
       = Bank.Literals.SECTION_LINE ++ [Bank.Literals.CR; Bank.Literals.LF]
         ++ Bank.Literals.NAME_KEY ++ Bank.get_name p'
         ++ [Bank.Literals.CR; Bank.Literals.LF]
         ++ Bank.params BankInputs.stored_program.
Proof.
  destruct (set_name_rewrites_header 24 true ltac:(lia) BankInputs.stored_program
              BankInputs.typed_name)
    as (p' & Hset & _ & Htext & _).
  - vm_compute. lia.
  - repeat constructor; vm_compute; try lia; try discriminate.
  - exists p'. split; [exact Hset | exact Htext].
Defined.

(** ** The bank: indices *)

Section BankIndices.

Variable NUMBER_OF_PROGRAMS : nat.

Import Bank.

(** X21.  A bank of [NUMBER_OF_PROGRAMS >= 1] programs gives a program for
    every index: an index that is too large stands for the last program.
    [set_current_program_index] stores an index below [NUMBER_OF_PROGRAMS],
    and the program at the stored index is the program at the given one. *)
Theorem bank_indices_are_clamped (b : Bank) (index : nat) :
  (1 <= NUMBER_OF_PROGRAMS)%nat ->
  length (programs b) = NUMBER_OF_PROGRAMS ->
  let chosen := set_current_program_index NUMBER_OF_PROGRAMS b index in
  (exists p, at_program NUMBER_OF_PROGRAMS b index = Some p /\ In p (programs b))
  /\ (get_current_program_index chosen < NUMBER_OF_PROGRAMS)%nat
  /\ get_current_program_index chosen = Nat.min index (NUMBER_OF_PROGRAMS - 1)
  /\ at_program NUMBER_OF_PROGRAMS b (get_current_program_index chosen)
     = at_program NUMBER_OF_PROGRAMS b index
  /\ programs chosen = programs b.
Proof.
  intros Hsome Hlength. cbv zeta.
  unfold at_program, set_current_program_index, get_current_program_index.
  destruct (NUMBER_OF_PROGRAMS <=? index)%nat eqn:Hlarge.
  - apply Nat.leb_le in Hlarge. cbn [current_program_index programs].
    replace (NUMBER_OF_PROGRAMS <=? NUMBER_OF_PROGRAMS - 1)%nat with false
      by (symmetry; apply Nat.leb_gt; lia).
    destruct (nth_error (programs b) (NUMBER_OF_PROGRAMS - 1)) as [p |] eqn:Hp;
      [| apply nth_error_None in Hp; lia].
    split; [exists p; split; [reflexivity | exact (nth_error_In _ _ Hp)] |].
    repeat split; lia.
  - apply Nat.leb_gt in Hlarge. cbn [current_program_index programs].
    rewrite (proj2 (Nat.leb_gt _ _) Hlarge).
    destruct (nth_error (programs b) index) as [p |] eqn:Hp;
      [| apply nth_error_None in Hp; lia].
    split; [exists p; split; [reflexivity | exact (nth_error_In _ _ Hp)] |].
    repeat split; lia.
Qed.

End BankIndices.

(** X21: the witness.  In a bank of two programs, the index 5 stands for
    the program 1. *)
Lemma bank_indices_are_clamped_witness :
  Bank.get_current_program_index
    (Bank.set_current_program_index 2 BankOfTwo.bank 5) = Nat.min 5 (2 - 1).
Proof.
  destruct (bank_indices_are_clamped 2 BankOfTwo.bank 5 ltac:(lia) eq_refl)
    as (_ & _ & Hindex & _).
  exact Hindex.
Defined.

(** ** Where a reset oscillator starts *)

Section StartPosition.

Context {N : Type} {ops : NumberOps N} {E : ExactNumber N} {T : ExactTruncation N}.
Variable c : Wavetable.Consts (N:=N).
Variable wt : Wavetable.Wavetable (N:=N).
Variable bits : Z.

Hypothesis consts_exact : Phase.exact_consts c bits.
Hypothesis tables_shaped : Phase.well_shaped c wt.

Import Wavetable.
#[local] Open Scope R_scope.

Lemma sample_past_table (i j : Z) :
  (0 <= i < partials wt)%Z -> (SIZE c <= j)%Z -> sample_at wt i j = None.
Proof.
  intros Hi Hj. destruct tables_shaped as (_ & Hlength & Hall).
  pose proof (SIZE_is_positive c bits consts_exact) as Hsize.
  unfold sample_at, at_index.
  replace (i <? 0)%Z with false by (symmetry; apply Z.ltb_ge; lia).
  destruct (nth_error (samples wt) (Z.to_nat i)) as [table |] eqn:Htable;
    [| reflexivity].
  pose proof (proj1 (Forall_forall _ _) Hall table (nth_error_In _ _ Htable)) as Hrow.
  cbv beta in Hrow. cbn [bind].
  replace (j <? 0)%Z with false by (symmetry; apply Z.ltb_ge; lia).
  apply nth_error_None. lia.
Qed.

Lemma interpolate_past_table (state : WavetableState) (frequency position : N) :
  Phase.tables_selected wt state ->
  IZR (SIZE c) <= val position ->
  interpolate c wt state frequency position = None.
Proof.
  intros [Hfirst _] Hposition.
  pose proof (SIZE_is_positive c bits consts_exact) as Hsize.
  pose proof (IZR_lt _ _ Hsize) as Hreal.
  unfold interpolate, interpolate_sample_linear, interpolate_sample_lagrange.
  cbv zeta.
  destruct (ntrunc position) as [index |] eqn:Hconverted;
    [| destruct (frequency >=? interpolation_limit state)%num; reflexivity].
  assert (Hindex : (SIZE c <= index)%Z).
  { assert (Hnonneg : 0 <= val position) by lra.
    pose proof (val_trunc_nonneg Hconverted Hnonneg) as Htrunc.
    assert (H : (SIZE c - 1 < index)%Z)
      by (apply lt_IZR; rewrite minus_IZR; lra).
    lia. }
  cbn [bind]. rewrite (sample_past_table _ _ Hfirst Hindex). cbn [bind].
  destruct (frequency >=? interpolation_limit state)%num;
    destruct (negb (needs_table_interpolation state)); reflexivity.
Qed.

(** X22.  In exact arithmetic, [reset_state] puts the position at
    [SIZE * start_time_offset * frequency] without wrapping it around.  When
    the oscillator has run for less than one period the position lies in
    [0, SIZE); when it has run for one period or more, the next lookup of a
    frequency that is neither near zero nor above the Nyquist frequency is
    undefined: it reads the sample at the unwrapped position, outside the
    table, unless a conversion to [Integer] is undefined before that. *)
Theorem reset_state_does_not_wrap (state : WavetableState)
    (sampling_period nyquist frequency start_time_offset f : N) :
  let start :=
    reset_state c state sampling_period nyquist frequency start_time_offset in
  val (sample_index start)
  = IZR (SIZE c) * val start_time_offset * val frequency
  /\ (0 <= val start_time_offset * val frequency < 1 -> Phase.in_table c start)
  /\ (1 <= val start_time_offset * val frequency ->
      Phase.is_representable start f = true ->
      fst (lookup c wt start f) = None).
Proof.
  cbv zeta.
  pose proof (SIZE_is_positive c bits consts_exact) as Hsize.
  pose proof (IZR_lt _ _ Hsize) as Hreal.
  destruct consts_exact as (_ & _ & _ & Hfloat & _).
  set (start := reset_state c state sampling_period nyquist frequency
                  start_time_offset).
  assert (Hposition : val (sample_index start)
                      = IZR (SIZE c) * val start_time_offset * val frequency).
  { subst start. cbn [reset_state sample_index].
    rewrite !val_mul, Hfloat. reflexivity. }
  split; [exact Hposition |]. split.
  - intros Hperiod. unfold Phase.in_table. rewrite Hposition. nra.
  - intros Hperiod Hrep.
    destruct (lookup c wt start f) as [sample after] eqn:Hlookup.
    destruct (lookup_representable c wt tables_shaped start after f sample
                Hrep Hlookup) as (_ & _ & _ & _ & Hcases).
    cbn [fst].
    destruct Hcases as [[_ Hsample] | (_ & Hsample & Hselected & _)];
      [exact Hsample |].
    rewrite Hsample.
    apply interpolate_past_table; [exact Hselected |].
    rewrite Hposition. nra.
Qed.

End StartPosition.

(** X22: the witness.  After 0.05 s at 30 Hz, one and a half periods, the
    position is 6 in a table of four samples, and the lookup reads outside
    the table. *)
Lemma reset_state_does_not_wrap_witness :
  let start :=
    Wavetable.reset_state Inputs.exact_consts Inputs.exact_blank_state
      0.01%Q 50%Q 30%Q 0.05%Q in
  Q2R (Wavetable.sample_index start) = (4 * Q2R 0.05 * Q2R 30)%R
  /\ fst (Wavetable.lookup Inputs.exact_consts Inputs.exact_wavetable start 30%Q)
     = None.
Proof.
  cbv zeta.
  destruct (reset_state_does_not_wrap Inputs.exact_consts Inputs.exact_wavetable 2
              exact_consts_are_exact exact_wavetable_well_shaped
              Inputs.exact_blank_state 0.01%Q 50%Q 30%Q 0.05%Q 30%Q)
    as (Hposition & _ & Hpast).
  split; [exact Hposition |].
  apply Hpast; [| vm_compute; reflexivity].
  cbn [val Exact_is_exact]. unfold Q2R. simpl. lra.
Defined.

(** ** The volume applier *)

Section NestedArrays.

Context {A : Type}.

Import Voice (set_nth).

Lemma set_nth_set_nth (a : list A) (i : nat) (x y : A) :
  set_nth (set_nth a i x) i y = set_nth a i y.
Proof.
  revert i. induction a as [| head rest IH]; intros [| i]; cbn [set_nth];
    try reflexivity.
  rewrite IH. reflexivity.
Qed.

Lemma set_nth_kept (a : list A) (i : nat) (x : A) :
  nth_error a i = Some x -> set_nth a i x = a.
Proof.
  revert i. induction a as [| head rest IH]; intros [| i] Hx; cbn in *;
    try discriminate.
  - injection Hx as Hx. subst x. reflexivity.
  - rewrite (IH i Hx). reflexivity.
Qed.

End NestedArrays.

Section VolumeApplied.

Context {N : Type} {ops : NumberOps N}.

Import VolumeApplier.
Import Voice (for_loop, iterate, store, set_nth).
Import Wavetable (at_index, bind).

Variable a : VolumeApplier (N:=N).

Lemma volume_render_one_body (round first last : Z) (buffer : list (list N)) :
  render a round first last buffer
  = for_loop 0 (channels a) (channel_body a first last) buffer.
Proof.
  unfold render, channel_body, sample_body, value_at.
  destruct (volume_buffer a), (velocity_buffer a); reflexivity.
Qed.

Lemma sample_set_nth (buffer : list (list N)) (c : Z) (row : list N) (c' i : Z) :
  (0 <= c < Z.of_nat (length buffer))%Z ->
  sample (set_nth buffer (Z.to_nat c) row) c' i
  = if (c' =? c)%Z then at_index row i else sample buffer c' i.
Proof.
  intros Hc. unfold sample.
  destruct (c' =? c)%Z eqn:Hsame.
  - apply Z.eqb_eq in Hsame. subst c'.
    rewrite at_index_set_nth_same by exact Hc. reflexivity.
  - apply Z.eqb_neq in Hsame.
    rewrite at_index_set_nth_other by lia. reflexivity.
Qed.

Lemma sample_body_step (buffer : list (list N)) (c : Z) (input row : list N)
    (i : Z) (value : N) :
  (0 <= c < Z.of_nat (length buffer))%Z ->
  (0 <= i < Z.of_nat (length row))%Z ->
  applied_to a input i = Some value ->
  sample_body a c input i (set_nth buffer (Z.to_nat c) row)
  = Some (set_nth buffer (Z.to_nat c) (set_nth row (Z.to_nat i) value)).
Proof.
  intros Hc Hi Hvalue. unfold applied_to in Hvalue. unfold sample_body.
  destruct (value_at (velocity_buffer a) (velocity_value a) i) as [velocity |];
    [| discriminate Hvalue].
  destruct (value_at (volume_buffer a) (volume_value a) i) as [volume |];
    [| discriminate Hvalue].
  cbn [bind] in *.
  destruct (at_index input i) as [x |]; [| discriminate Hvalue].
  cbn [bind] in *. apply (f_equal (fun o => match o with Some v => v | None => value end))
    in Hvalue. cbn beta iota in Hvalue. subst value.
  unfold store. rewrite at_index_set_nth_same by exact Hc. cbn [bind].
  destruct (at_index_Some row i Hi) as [old Hold]. rewrite Hold. cbn [bind].
  rewrite set_nth_set_nth. reflexivity.
Qed.

Lemma iterate_sample_body (buffer : list (list N)) (c : Z) (input : list N)
    (count : nat) :
  (0 <= c < Z.of_nat (length buffer))%Z ->
  forall (i : Z) (row : list N),
    (0 <= i)%Z ->
    (i + Z.of_nat count <= Z.of_nat (length row))%Z ->
    (forall j, (i <= j < i + Z.of_nat count)%Z -> applied_to a input j <> None) ->
    exists row',
      iterate (sample_body a c input) i count (set_nth buffer (Z.to_nat c) row)
      = Some (set_nth buffer (Z.to_nat c) row')
      /\ length row' = length row
      /\ (forall j, (i <= j < i + Z.of_nat count)%Z ->
            at_index row' j = applied_to a input j)
      /\ (forall j, ~ (i <= j < i + Z.of_nat count)%Z ->
            at_index row' j = at_index row j).
Proof.
  intros Hc. induction count as [| count IH]; intros i row Hi Hrow Hdefined.
  - exists row. cbn [iterate].
    split; [reflexivity |]. split; [reflexivity |].
    split; [intros j Hj; lia | intros j Hj; reflexivity].
  - destruct (applied_to a input i) as [value |] eqn:Hvalue;
      [| exfalso; apply (Hdefined i); [lia | exact Hvalue]].
    cbn [iterate].
    rewrite (sample_body_step buffer c input row i value Hc ltac:(lia) Hvalue).
    cbn [bind].
    destruct (IH (i + 1)%Z (set_nth row (Z.to_nat i) value))
      as (row' & Hrun & Hlength & Hin & Hout).
    + lia.
    + rewrite length_set_nth. lia.
    + intros j Hj. apply Hdefined. lia.
    + exists row'. rewrite length_set_nth in Hlength.
      split; [exact Hrun |]. split; [exact Hlength |]. split.
      * intros j Hj. destruct (Z.eq_dec j i) as [Hsame | Hother].
        -- subst j. rewrite (Hout i) by lia.
           rewrite at_index_set_nth_same by lia. symmetry. exact Hvalue.
        -- apply Hin. lia.
      * intros j Hj. rewrite (Hout j) by lia.
        apply at_index_set_nth_other; lia.
Qed.

Lemma applied_to_defined (input : list N) (last j : Z) :
  (forall samples, volume_buffer a = Some samples ->
     (last <= Z.of_nat (length samples))%Z) ->
  (forall samples, velocity_buffer a = Some samples ->
     (last <= Z.of_nat (length samples))%Z) ->
  (last <= Z.of_nat (length input))%Z ->
  (0 <= j < last)%Z ->
  applied_to a input j <> None.
Proof.
  intros Hvolume Hvelocity Hinput Hj. unfold applied_to, value_at.
  assert (Hv : exists v, match velocity_buffer a with
                         | Some samples => at_index samples j
                         | None => Some (velocity_value a)
                         end = Some v).
  { destruct (velocity_buffer a) as [samples |]; [| eexists; reflexivity].
    apply at_index_Some. specialize (Hvelocity samples eq_refl). lia. }
  assert (Hw : exists w, match volume_buffer a with
                         | Some samples => at_index samples j
                         | None => Some (volume_value a)
                         end = Some w).
  { destruct (volume_buffer a) as [samples |]; [| eexists; reflexivity].
    apply at_index_Some. specialize (Hvolume samples eq_refl). lia. }
  destruct Hv as [v Hv]. destruct Hw as [w Hw].
  destruct (at_index_Some input j ltac:(lia)) as [x Hx].
  rewrite Hv, Hw. cbn [bind]. rewrite Hx. cbn [bind]. discriminate.
Qed.

Lemma channel_body_step (first last : Z) (buffer : list (list N)) (c : Z)
    (input row : list N) :
  (0 <= first <= last)%Z ->
  (0 <= c < Z.of_nat (length buffer))%Z ->
  at_index (input_buffer a) c = Some input ->
  at_index buffer c = Some row ->
  (last <= Z.of_nat (length row))%Z ->
  (forall j, (first <= j < last)%Z -> applied_to a input j <> None) ->
  exists row',
    channel_body a first last c buffer = Some (set_nth buffer (Z.to_nat c) row')
    /\ length row' = length row
    /\ (forall j, (first <= j < last)%Z -> at_index row' j = applied a c j)
    /\ (forall j, ~ (first <= j < last)%Z -> at_index row' j = at_index row j).
Proof.
  intros Hblock Hc Hinput Hrow Hlength Hdefined.
  unfold channel_body, applied. rewrite Hinput. cbn [bind].
  unfold for_loop.
  replace (last <? first)%Z with false by (symmetry; apply Z.ltb_ge; lia).
  assert (Hkept : set_nth buffer (Z.to_nat c) row = buffer).
  { apply set_nth_kept. unfold at_index in Hrow.
    replace (c <? 0)%Z with false in Hrow by (symmetry; apply Z.ltb_ge; lia).
    exact Hrow. }
  destruct (iterate_sample_body buffer c input (Z.to_nat (last - first)) Hc
              first row ltac:(lia) ltac:(lia))
    as (row' & Hrun & Hsame & Hin & Hout).
  - intros j Hj. apply Hdefined. lia.
  - rewrite Hkept in Hrun.
    exists row'. split; [exact Hrun |]. split; [exact Hsame |]. split.
    + intros j Hj. apply Hin. lia.
    + intros j Hj. apply Hout. lia.
Qed.

Lemma iterate_channel_body (first last : Z) (count : nat) :
  (0 <= first <= last)%Z ->
  (forall samples, volume_buffer a = Some samples ->
     (last <= Z.of_nat (length samples))%Z) ->
  (forall samples, velocity_buffer a = Some samples ->
     (last <= Z.of_nat (length samples))%Z) ->
  forall (c0 : Z) (buffer : list (list N)),
    (0 <= c0)%Z ->
    (c0 + Z.of_nat count <= Z.of_nat (length (input_buffer a)))%Z ->
    (c0 + Z.of_nat count <= Z.of_nat (length buffer))%Z ->
    (forall c row, (c0 <= c < c0 + Z.of_nat count)%Z ->
       at_index (input_buffer a) c = Some row -> (last <= Z.of_nat (length row))%Z) ->
    (forall c row, (c0 <= c < c0 + Z.of_nat count)%Z ->
       at_index buffer c = Some row -> (last <= Z.of_nat (length row))%Z) ->
    exists buffer',
      iterate (channel_body a first last) c0 count buffer = Some buffer'
      /\ length buffer' = length buffer
      /\ (forall c i, (c0 <= c < c0 + Z.of_nat count)%Z -> (first <= i < last)%Z ->
            sample buffer' c i = applied a c i /\ applied a c i <> None)
      /\ (forall c i,
            ~ ((c0 <= c < c0 + Z.of_nat count)%Z /\ (first <= i < last)%Z) ->
            sample buffer' c i = sample buffer c i).
Proof.
  intros Hblock Hvolume Hvelocity.
  induction count as [| count IH]; intros c0 buffer Hc0 Hinputs Hrows Hin_len Hrow_len.
  - exists buffer. cbn [iterate].
    split; [reflexivity |]. split; [reflexivity |].
    split; [intros c i Hc; lia | intros c i _; reflexivity].
  - destruct (at_index_Some (input_buffer a) c0 ltac:(lia)) as [input Hinput].
    destruct (at_index_Some buffer c0 ltac:(lia)) as [row Hrow].
    pose proof (Hin_len c0 input ltac:(lia) Hinput) as Hinput_length.
    pose proof (Hrow_len c0 row ltac:(lia) Hrow) as Hrow_length.
    assert (Hdefined : forall j, (first <= j < last)%Z -> applied_to a input j <> None).
    { intros j Hj.
      apply (applied_to_defined input last j Hvolume Hvelocity Hinput_length).
      lia. }
    destruct (channel_body_step first last buffer c0 input row Hblock
                ltac:(lia) Hinput Hrow Hrow_length Hdefined)
      as (row' & Hstep & Hsame & Hin & Hout).
    cbn [iterate]. rewrite Hstep. cbn [bind].
    set (buffer1 := set_nth buffer (Z.to_nat c0) row') in *.
    assert (Hother : forall c, c <> c0 -> at_index buffer1 c = at_index buffer c).
    { intros c Hc. subst buffer1. apply at_index_set_nth_other; lia. }
    destruct (IH (c0 + 1)%Z buffer1) as (buffer' & Hrun & Hlength & Hdone & Hrest).
    + lia.
    + lia.
    + subst buffer1. rewrite length_set_nth. lia.
    + intros c r Hc. apply Hin_len. lia.
    + intros c r Hc Hr. rewrite Hother in Hr by lia.
      apply (Hrow_len c r); [lia | exact Hr].
    + exists buffer'. split; [exact Hrun |].
      split; [rewrite Hlength; subst buffer1; apply length_set_nth |].
      assert (Hfirst : forall i, sample buffer1 c0 i = at_index row' i).
      { intros i. subst buffer1. rewrite sample_set_nth by lia.
        rewrite Z.eqb_refl. reflexivity. }
      assert (Hothers : forall c i, c <> c0 -> sample buffer1 c i = sample buffer c i).
      { intros c i Hc. unfold sample. rewrite Hother by exact Hc. reflexivity. }
      split.
      * intros c i Hc Hi. destruct (Z.eq_dec c c0) as [Hsame_c | Hother_c].
        -- subst c. rewrite (Hrest c0 i) by lia. rewrite Hfirst, (Hin i Hi).
           split; [reflexivity |].
           unfold applied. rewrite Hinput. cbn [bind]. apply Hdefined, Hi.
        -- apply Hdone; lia.
      * intros c i Hc. destruct (Z.eq_dec c c0) as [Hsame_c | Hother_c].
        -- subst c. rewrite (Hrest c0 i) by lia. rewrite Hfirst.
           rewrite (Hout i) by lia. unfold sample. rewrite Hrow. reflexivity.
        -- rewrite (Hrest c i) by lia. apply Hothers, Hother_c.
Qed.

(** X23.  For a block [first, last) that lies inside the buffers,
    [VolumeApplier::render] writes, in each of its four branches (constant or
    buffered volume, constant or buffered velocity), at every index of the
    block and in every channel below [channels], the product
    [velocity * volume * input[c][i]] with the velocity and the volume taken
    at [i].  Samples outside the block, and other channels, are left as they
    were. *)
Theorem volume_applier_scales_input (round first last : Z)
    (buffer : list (list N)) :
  block_inside a first last buffer ->
  exists buffer',
    render a round first last buffer = Some buffer'
    /\ length buffer' = length buffer
    /\ (forall c i, (0 <= c < channels a)%Z -> (first <= i < last)%Z ->
          sample buffer' c i = applied a c i /\ applied a c i <> None)
    /\ (forall c i, ~ ((0 <= c < channels a)%Z /\ (first <= i < last)%Z) ->
          sample buffer' c i = sample buffer c i).
Proof.
  intros (Hblock & Hchannels & Hrows & Hin_len & Hrow_len & Hvolume & Hvelocity).
  rewrite volume_render_one_body. unfold for_loop.
  replace (channels a <? 0)%Z with false by (symmetry; apply Z.ltb_ge; lia).
  rewrite Z.sub_0_r.
  destruct (iterate_channel_body first last (Z.to_nat (channels a)) Hblock Hvolume
              Hvelocity 0 buffer ltac:(lia) ltac:(lia) ltac:(lia))
    as (buffer' & Hrun & Hlength & Hdone & Hrest).
  - intros c row Hc. apply Hin_len. lia.
  - intros c row Hc. apply Hrow_len. lia.
  - exists buffer'. split; [exact Hrun |]. split; [exact Hlength |]. split.
    + intros c i Hc Hi. apply Hdone; lia.
    + intros c i Hc. apply Hrest. lia.
Qed.

End VolumeApplied.

Lemma exact_applier_block_inside :
  VolumeApplier.block_inside VolumeInputs.exact_applier 1 3
    [[9; 9; 9; 9]; [9; 9; 9; 9]]%Q.
Proof.
  unfold VolumeApplier.block_inside.
  split; [lia |]. split; [cbn; lia |]. split; [cbn; lia |].
  split; [| split; [| split]].
  - intros c row Hc Hrow. cbn in Hc.
    assert (Hcases : c = 0%Z \/ c = 1%Z) by lia.
    destruct Hcases; subst c; cbn in Hrow; injection Hrow as <-; cbn; lia.
  - intros c row Hc Hrow. cbn in Hc.
    assert (Hcases : c = 0%Z \/ c = 1%Z) by lia.
    destruct Hcases; subst c; cbn in Hrow; injection Hrow as <-; cbn; lia.
  - intros samples Hsamples. discriminate Hsamples.
  - intros samples Hsamples. cbn in Hsamples. injection Hsamples as <-. cbn. lia.
Qed.

(** X23: the witness.  The samples 1 and 2 of two channels are scaled by a
    constant volume and a buffered velocity. *)
Lemma volume_applier_scales_input_witness :
  exists buffer',
    VolumeApplier.render VolumeInputs.exact_applier 7 1 3
      [[9; 9; 9; 9]; [9; 9; 9; 9]]%Q = Some buffer'
    /\ VolumeApplier.sample buffer' 1 2
       = VolumeApplier.applied VolumeInputs.exact_applier 1 2
    /\ VolumeApplier.sample buffer' 1 3 = Some 9%Q.
Proof.
  destruct (volume_applier_scales_input VolumeInputs.exact_applier 7 1 3
              [[9; 9; 9; 9]; [9; 9; 9; 9]]%Q exact_applier_block_inside)
    as (buffer' & Hrender & _ & Hinside & Houtside).
  exists buffer'. split; [exact Hrender |]. split.
  - apply Hinside; cbn; lia.
  - rewrite Houtside by lia. reflexivity.
Defined.

(** ** Voice: frequency updates while a note sounds *)

Section FrequencyUpdates.

Context {N : Type} {ops : NumberOps N} {E : ExactNumber N}.
Variable e : Voice.Env (N:=N).
Variable Math_is_close : N -> N -> bool.

Import Voice VoiceFrequency.
#[local] Open Scope R_scope.

(** X24.  In exact arithmetic, with [Math::randomize] in the unit range:
    [update_unstable_note_frequency] leaves the state, the identifier, the
    note and the channel of the voice alone and schedules at most one ramp
    of the oscillator frequency, after cancelling the frequency events from
    0.0 on.  The ramp lasts [0.3 + 1.7 * inaccuracy], between 0.47 s and
    2.0 s, where the inaccuracy is the one just updated: the voice's own,
    or for a synced tuning the shared one, provided that one lies in
    [0.1, 1.0].  Nothing at all is done while the oscillator is starting,
    stopping or expecting a glide, or while a ramp has time left. *)
Theorem unstable_frequency_ramp_duration (is_synced : bool) (o : Oscillator)
    (v : Voice) (round : Z) :
  unit_range (Math_randomize e) false ->
  (is_synced = true ->
   within false (Inaccuracy.get_inaccuracy (synced_inaccuracy v))) ->
  let v' := update_unstable_note_frequency e Math_is_close is_synced o v round in
  state v' = state v /\ get_note_id v' = get_note_id v
  /\ get_note v' = get_note v /\ get_channel v' = get_channel v
  /\ (calls v' = calls v
      \/ exists duration frequency,
           calls v'
           = calls v ++ [cancel_events_at oscillator_frequency (nlit 0.0);
                         schedule_linear_ramp oscillator_frequency duration
                           frequency]
           /\ 0.47 <= val duration <= 2
           /\ val duration
              = 0.3 + 1.7 * val (if is_synced
                                 then Inaccuracy.get_inaccuracy (synced_inaccuracy v')
                                 else get_inaccuracy v'))
  /\ (is_oscillator_starting_or_stopping_or_expecting_glide o = true
      \/ (remaining_time_from_linear_ramp o >? nlit 0.0)%num = true ->
      v' = v).
Proof.
  intros Hunit Hsynced. cbv zeta. unfold update_unstable_note_frequency.
  destruct (is_oscillator_starting_or_stopping_or_expecting_glide o).
  { repeat (split; [reflexivity |]). split; [left; reflexivity | intros _; reflexivity]. }
  destruct (remaining_time_from_linear_ramp o >? nlit 0.0)%num.
  { repeat (split; [reflexivity |]). split; [left; reflexivity | intros _; reflexivity]. }
  cbv zeta.
  assert (Hliterals : val (nlit 0.3) = 0.3 /\ val (nlit 1.7) = 1.7).
  { rewrite !val_lit. unfold Q2R. simpl. split; lra. }
  destruct Hliterals as [H03 H17].
  destruct is_synced.
  - specialize (Hsynced eq_refl).
    pose proof (update_within (Math_randomize e) false (synced_inaccuracy v) round
                  Hunit Hsynced) as Hwithin.
    unfold within in Hwithin.
    set (updated := update_synced_inaccuracy e v round).
    destruct (Math_is_close _ _).
    + repeat (split; [reflexivity |]).
      split; [left; reflexivity | intros [H | H]; discriminate H].
    + repeat (split; [reflexivity |]). split.
      * right. eexists. eexists. split; [reflexivity |].
        rewrite val_add, val_mul, H03, H17.
        split; [| reflexivity].
        change (0.1 <= val (Inaccuracy.get_inaccuracy (synced_inaccuracy updated))
                <= 1) in Hwithin.
        lra.
      * intros [H | H]; discriminate H.
  - pose proof (calculate_new_inaccuracy_within (Math_randomize e) false
                  (inaccuracy v) Hunit) as Hwithin.
    unfold within in Hwithin.
    set (updated := update_inaccuracy e v).
    destruct (Math_is_close _ _).
    + repeat (split; [reflexivity |]).
      split; [left; reflexivity | intros [H | H]; discriminate H].
    + repeat (split; [reflexivity |]). split.
      * right. eexists. eexists. split; [reflexivity |].
        rewrite val_add, val_mul, H03, H17.
        split; [| reflexivity].
        change (0.1 <= val (inaccuracy updated) <= 1) in Hwithin.
        lra.
      * intros [H | H]; discriminate H.
Qed.

(** X25.  In exact arithmetic, [update_note_frequency_for_realtime_mts_esp]
    leaves the voice as it was while the oscillator is starting, stopping or
    expecting a glide, and when no ramp has 0.000001 s or more left and the
    frequency of the table is close to the current one.  In every other
    case it cancels the frequency events from 0.0 on and schedules one ramp
    to the frequency of the table for the voice's channel and note, lasting
    the remaining time of the running ramp but at least 0.003 s; nothing
    else is called, and the state, the identifier, the note and the channel
    are kept. *)
Theorem mts_esp_ramp_duration (o : Oscillator) (v : Voice) :
  let v' := update_note_frequency_for_realtime_mts_esp e Math_is_close o v in
  let target := per_channel_frequencies e (get_channel v) (get_note v) in
  let remaining := remaining_time_from_linear_ramp o in
  state v' = state v /\ get_note_id v' = get_note_id v
  /\ get_note v' = get_note v /\ get_channel v' = get_channel v
  /\ (is_oscillator_starting_or_stopping_or_expecting_glide o = true -> v' = v)
  /\ ((remaining <? nlit 0.000001)%num = true ->
      Math_is_close target (frequency_value o) = true -> v' = v)
  /\ (is_oscillator_starting_or_stopping_or_expecting_glide o = false ->
      (remaining <? nlit 0.000001)%num = false
      \/ Math_is_close target (frequency_value o) = false ->
      exists duration,
        calls v'
        = calls v ++ [cancel_events_at oscillator_frequency (nlit 0.0);
                      schedule_linear_ramp oscillator_frequency duration target]
        /\ val duration = Rmax 0.003 (val remaining)
        /\ 0.003 <= val duration
        /\ val remaining <= val duration).
Proof.
  cbv zeta. unfold update_note_frequency_for_realtime_mts_esp, get_channel, get_note.
  assert (Hramp : forall remaining : N,
             val (std_max (nlit 0.003) remaining) = Rmax 0.003 (val remaining)
             /\ 0.003 <= val (std_max (nlit 0.003) remaining)
             /\ val remaining <= val (std_max (nlit 0.003) remaining)).
  { intros remaining. rewrite val_std_max.
    replace (val (nlit 0.003)) with 0.003
      by (rewrite val_lit; unfold Q2R; simpl; lra).
    split; [reflexivity |]. split; [apply Rmax_l | apply Rmax_r]. }
  destruct (is_oscillator_starting_or_stopping_or_expecting_glide o).
  { do 4 (split; [reflexivity |]). split; [intros _; reflexivity |].
    split; [intros _ _; reflexivity | intros H; discriminate H]. }
  cbv zeta.
  destruct (remaining_time_from_linear_ramp o <? nlit 0.000001)%num eqn:Hshort;
    destruct (Math_is_close _ _) eqn:Hclose; cbn [andb].
  - do 4 (split; [reflexivity |]). split; [intros H; discriminate H |].
    split; [intros _ _; reflexivity |].
    intros _ [H | H]; discriminate H.
  - do 4 (split; [reflexivity |]). split; [intros H; discriminate H |].
    split; [intros _ H; discriminate H |].
    intros _ _. eexists. split; [reflexivity | apply Hramp].
  - do 4 (split; [reflexivity |]). split; [intros H; discriminate H |].
    split; [intros H _; discriminate H |].
    intros _ _. eexists. split; [reflexivity | apply Hramp].
  - do 4 (split; [reflexivity |]). split; [intros H; discriminate H |].
    split; [intros H _; discriminate H |].
    intros _ _. eexists. split; [reflexivity | apply Hramp].
Qed.

End FrequencyUpdates.

(** ** What the tables hold *)

Section AdditiveSynthesis.

Context {N : Type} {ops : NumberOps N} {E : ExactNumber N}.
Variable c : Wavetable.Consts (N:=N).

Import Wavetable Synthesis.
#[local] Open Scope R_scope.

Lemma nth_error_sample_positions (j : nat) :
  (j < Z.to_nat (SIZE c))%nat ->
  nth_error (sample_positions c) j = Some (Z.of_nat j).
Proof.
  intros Hj. unfold sample_positions.
  rewrite nth_error_map, nth_error_seq.
  replace (j <? Z.to_nat (SIZE c))%nat with true
    by (symmetry; apply Nat.ltb_lt; exact Hj).
  reflexivity.
Qed.

Lemma nth_error_first_table (coefficient : N) (frequency : Z) (j : nat) (sample : N) :
  nth_error (first_table c coefficient frequency) j = Some sample ->
  sample = (coefficient * sine c (Z.of_nat j * frequency))%num.
Proof.
  unfold first_table. rewrite nth_error_map.
  destruct (nth_error (sample_positions c) j) as [position |] eqn:Hposition;
    [| discriminate].
  assert (Hj : (j < Z.to_nat (SIZE c))%nat).
  { rewrite <- (length_sample_positions c). apply nth_error_Some. congruence. }
  rewrite (nth_error_sample_positions j Hj) in Hposition.
  injection Hposition as <-. cbn [option_map]. intros H. injection H as <-.
  reflexivity.
Qed.

Lemma nth_error_next_table (previous : list N) (coefficient : N) (frequency : Z)
    (j : nat) (sample : N) :
  nth_error (next_table c previous coefficient frequency) j = Some sample ->
  exists before,
    nth_error previous j = Some before
    /\ sample = (before + coefficient * sine c (Z.of_nat j * frequency))%num.
Proof.
  unfold next_table. rewrite nth_error_map.
  destruct (nth_error (combine (sample_positions c) previous) j)
    as [[position before] |] eqn:Hpair; [| discriminate].
  cbn [option_map fst snd]. intros H. injection H as <-.
  assert (Hposition : nth_error (sample_positions c) j = Some position
                      /\ nth_error previous j = Some before).
  { clear -Hpair. revert j Hpair.
    generalize (sample_positions c) as positions.
    induction positions as [| p positions IH] in previous |- *; intros j Hpair.
    - destruct j; discriminate Hpair.
    - destruct previous as [| b previous]; [destruct j; discriminate Hpair |].
      destruct j as [| j]; cbn in *.
      + injection Hpair as <- <-. split; reflexivity.
      + apply IH, Hpair. }
  destruct Hposition as [Hposition Hbefore].
  assert (Hj : (j < Z.to_nat (SIZE c))%nat).
  { rewrite <- (length_sample_positions c). apply nth_error_Some. congruence. }
  rewrite (nth_error_sample_positions j Hj) in Hposition.
  injection Hposition as <-.
  exists before. split; [exact Hbefore | reflexivity].
Qed.

Lemma more_tables_sum (coefficients : list N) :
  forall (previous : list N) (frequency : Z) (before : nat -> R)
         (i j : nat) (table : list N) (sample : N),
    (forall s, nth_error previous j = Some s -> val s = before j) ->
    nth_error (more_tables c previous frequency coefficients) i = Some table ->
    nth_error table j = Some sample ->
    val sample
    = before j
      + partial_sum c (firstn (S i) coefficients) (frequency + 1) (Z.of_nat j).
Proof.
  induction coefficients as [| ci rest IH];
    intros previous frequency before i j table sample Hbefore Htable Hsample.
  - destruct i; discriminate Htable.
  - cbn [more_tables] in Htable.
    destruct i as [| i].
    + cbn [nth_error] in Htable. injection Htable as <-.
      destruct (nth_error_next_table _ _ _ _ _ Hsample) as (s & Hs & Hvalue).
      subst sample. rewrite val_add, val_mul, (Hbefore s Hs).
      cbn [firstn partial_sum]. lra.
    + cbn [nth_error] in Htable.
      rewrite (IH (next_table c previous ci (frequency + 1)) (frequency + 1)%Z
                 (fun j => before j
                           + val ci * val (sine c (Z.of_nat j * (frequency + 1))))
                 i j table sample).
      * cbn [firstn partial_sum]. lra.
      * intros s Hs.
        destruct (nth_error_next_table _ _ _ _ _ Hs) as (b & Hb & Hvalue).
        subst s. rewrite val_add, val_mul, (Hbefore b Hb). reflexivity.
      * exact Htable.
      * exact Hsample.
Qed.

Lemma tables_sum (coefficients : list N) (i j : nat) (table : list N) (sample : N) :
  nth_error (tables c coefficients) i = Some table ->
  nth_error table j = Some sample ->
  val sample = partial_sum c (firstn (S i) coefficients) 1 (Z.of_nat j).
Proof.
  intros Htable Hsample.
  destruct coefficients as [| c0 rest]; [destruct i; discriminate Htable |].
  cbn [tables] in Htable. destruct i as [| i].
  - cbn [nth_error] in Htable. injection Htable as <-.
    rewrite (nth_error_first_table _ _ _ _ Hsample), val_mul.
    cbn [firstn partial_sum]. lra.
  - cbn [nth_error] in Htable.
    rewrite (more_tables_sum rest (first_table c c0 1) 1
               (fun j => val c0 * val (sine c (Z.of_nat j * 1)))
               i j table sample).
    + cbn [firstn partial_sum]. lra.
    + intros s Hs. rewrite (nth_error_first_table _ _ _ _ Hs), val_mul. reflexivity.
    + exact Htable.
    + exact Hsample.
Qed.

(** A stored sample is a raw sample divided by the peak. *)
Lemma normalized_sample (coefficients : list N) (wt : Wavetable)
    (i j : nat) (table : list N) (sample : N) :
  make c coefficients = Some wt ->
  nth_error (samples wt) i = Some table ->
  nth_error table j = Some sample ->
  exists raw stored,
    nth_error (tables c coefficients) i = Some raw
    /\ nth_error raw j = Some stored
    /\ sample = (stored / peak true (tables c coefficients))%num.
Proof.
  intros Hmake Htable Hsample.
  pose proof (make_nonempty c coefficients wt Hmake) as Hnonempty.
  rewrite (make_defined c coefficients Hnonempty) in Hmake.
  injection Hmake as Hwt. subst wt. cbn [samples] in Htable.
  rewrite nth_error_map in Htable.
  destruct (nth_error (tables c coefficients) i) as [raw |] eqn:Hraw;
    [| discriminate Htable].
  cbn [option_map] in Htable. injection Htable as <-.
  rewrite nth_error_map in Hsample.
  destruct (nth_error raw j) as [stored |] eqn:Hstored; [| discriminate Hsample].
  cbn [option_map] in Hsample. injection Hsample as <-.
  exists raw, stored. repeat split; assumption.
Qed.

(** X26.  In exact arithmetic, the table [i] of a constructed wavetable
    holds, at every index [j], the sum of the first [i + 1] partials,
    [coefficients[k] * sines[(j * (k + 1)) & MASK]] for [k = 0 .. i], divided
    by the peak of all tables, when that peak is not zero: table [i] is the
    waveform with [i] partials above the fundamental. *)
Theorem table_is_sum_of_partials (coefficients : list N) (wt : Wavetable)
    (i j : nat) (table : list N) (sample : N) :
  make c coefficients = Some wt ->
  val (peak true (tables c coefficients)) <> 0 ->
  nth_error (samples wt) i = Some table ->
  nth_error table j = Some sample ->
  val sample
  = partial_sum c (firstn (S i) coefficients) 1 (Z.of_nat j)
    / val (peak true (tables c coefficients)).
Proof.
  intros Hmake Hpeak Htable Hsample.
  destruct (normalized_sample coefficients wt i j table sample Hmake Htable Hsample)
    as (raw & stored & Hraw & Hstored & Hvalue).
  subst sample. rewrite val_div by exact Hpeak.
  rewrite (tables_sum coefficients i j raw stored Hraw Hstored). reflexivity.
Qed.

Lemma partial_sum_snoc (coefficients : list N) (last : N) (frequency j : Z) :
  partial_sum c (coefficients ++ [last]) frequency j
  = partial_sum c coefficients frequency j
    + val last * val (sine c (j * (frequency + Z.of_nat (length coefficients)))).
Proof.
  revert frequency. induction coefficients as [| head rest IH]; intros frequency.
  - cbn [app partial_sum length]. rewrite Z.add_0_r. lra.
  - cbn [app partial_sum length]. rewrite IH.
    replace (frequency + 1 + Z.of_nat (length rest))%Z
      with (frequency + Z.of_nat (S (length rest)))%Z by lia.
    lra.
Qed.

Lemma firstn_next (coefficients : list N) (n : nat) (next : N) :
  nth_error coefficients n = Some next ->
  firstn (S n) coefficients = firstn n coefficients ++ [next].
Proof.
  revert n. induction coefficients as [| head rest IH]; intros [| n] Hnext;
    cbn in *; try discriminate.
  - injection Hnext as <-. reflexivity.
  - rewrite (IH n Hnext). reflexivity.
Qed.

(** A partial whose coefficient is zero adds nothing: the table holds the
    values of the table before it. *)
Lemma zero_partial_repeats_table (coefficients : list N) (wt : Wavetable)
    (i j : nat) (next : N) (lower upper : list N) (below above : N) :
  make c coefficients = Some wt ->
  val (peak true (tables c coefficients)) <> 0 ->
  nth_error coefficients (S i) = Some next ->
  val next = 0 ->
  nth_error (samples wt) i = Some lower ->
  nth_error (samples wt) (S i) = Some upper ->
  nth_error lower j = Some below ->
  nth_error upper j = Some above ->
  val above = val below.
Proof.
  intros Hmake Hpeak Hnext Hzero Hlower Hupper Hbelow Habove.
  destruct (normalized_sample coefficients wt i j lower below Hmake Hlower Hbelow)
    as (raw_l & stored_l & Hraw_l & Hstored_l & Hvalue_l).
  destruct (normalized_sample coefficients wt (S i) j upper above Hmake Hupper Habove)
    as (raw_u & stored_u & Hraw_u & Hstored_u & Hvalue_u).
  subst below above. rewrite !val_div by exact Hpeak.
  rewrite (tables_sum coefficients i j raw_l stored_l Hraw_l Hstored_l).
  rewrite (tables_sum coefficients (S i) j raw_u stored_u Hraw_u Hstored_u).
  rewrite (firstn_next coefficients (S i) next Hnext), partial_sum_snoc, Hzero.
  lra.
Qed.

End AdditiveSynthesis.

(** X26: the witness.  The sample 1 of the table 1 built from the
    coefficients 1, 1, 1 is the sum of two partials, 1 * 1 + 1 * 0, over the
    peak. *)
Lemma table_is_sum_of_partials_witness :
  Q2R 1
  = (Synthesis.partial_sum Inputs.exact_consts (firstn 2 [1; 1; 1]%Q) 1 1
     / Q2R (Wavetable.peak true (Wavetable.tables Inputs.exact_consts [1; 1; 1]%Q)))%R.
Proof.
  refine (table_is_sum_of_partials Inputs.exact_consts [1; 1; 1]%Q
            Inputs.exact_wavetable 1 1 [0; 1; 0; -1]%Q 1%Q eq_refl
            exact_peak_nonzero _ _).
  - vm_compute. reflexivity.
  - reflexivity.
Defined.

(** ** The coefficients of the standard waveforms *)

Section StandardCoefficients.

Context {N : Type} {ops : NumberOps N} {E : ExactNumber N}.
Variable PARTIALS : Z.
Variable Math_PI : N.
Variable Math_sin : N -> N.
Variable negate : N -> N.
Variable c : Wavetable.Consts (N:=N).

Hypothesis PI_positive : (0 < val Math_PI)%R.
Hypothesis negate_exact : forall x : N, val (negate x) = (- val x)%R.

Import Wavetable Synthesis StandardWavetables.
#[local] Open Scope R_scope.

Notation coefficients_at := (StandardWavetables.coefficients_at Math_PI Math_sin negate).
Notation square_coefficients :=
  (StandardWavetables.square_coefficients PARTIALS Math_PI Math_sin negate).

Lemma parity_test (i : Z) : (Z.land i 1 =? 1)%Z = Z.odd i.
Proof.
  change 1%Z with (Z.ones 1) at 1. rewrite Z.land_ones by lia.
  change (2 ^ 1)%Z with 2%Z. rewrite Zmod_odd.
  destruct (Z.odd i); reflexivity.
Qed.

Lemma val_two_over_i_pi (i : Z) :
  (0 <= i)%Z ->
  val (nlit 2.0 / (nofZ (i + 1) * Math_PI))%num = 2 / (IZR (i + 1) * val Math_PI)
  /\ 0 < 2 / (IZR (i + 1) * val Math_PI).
Proof.
  intros Hi.
  assert (Hindex : 0 < IZR (i + 1)) by (apply IZR_lt; lia).
  assert (Hproduct : 0 < IZR (i + 1) * val Math_PI)
    by (apply Rmult_lt_0_compat; assumption).
  split.
  - rewrite val_div by (rewrite val_mul, val_ofZ; lra).
    rewrite val_mul, val_ofZ, val_lit. unfold Q2R. simpl. field. lra.
  - apply Rdiv_lt_0_compat; lra.
Qed.

(** X27.  In exact arithmetic, with a positive [Math::PI], the loop of the
    [StandardWavetables] constructor stores at the index [i >= 0]: a sawtooth
    coefficient of magnitude [2 / ((i + 1) * PI)], positive for even [i] and
    negative for odd [i]; its negation for the inverse sawtooth; and for the
    square wave twice the sawtooth coefficient when [i] is even and zero
    when [i] is odd, so that the square wave has no even harmonics. *)
Theorem standard_coefficients (i : Z) :
  (0 <= i)%Z ->
  let k := coefficients_at i in
  Rabs (val (sawtooth k)) = 2 / (IZR (i + 1) * val Math_PI)
  /\ (0 < val (sawtooth k) <-> Z.even i = true)
  /\ val (inverse_sawtooth k) = - val (sawtooth k)
  /\ val (square k) = (if Z.even i then 2 * val (sawtooth k) else 0).
Proof.
  intros Hi. cbv zeta. unfold StandardWavetables.coefficients_at. cbv zeta.
  cbn [sawtooth inverse_sawtooth square].
  destruct (val_two_over_i_pi i Hi) as [Hvalue Hpositive].
  rewrite negate_exact, !val_mul, val_add, val_ofZ, Hvalue, parity_test.
  rewrite <- Z.negb_even.
  set (r := 2 / (IZR (i + 1) * val Math_PI)) in *.
  destruct (Z.even i); cbn [negb]; rewrite val_lit; unfold Q2R; simpl.
  - replace (10 * / 10 * r) with r by lra.
    split; [apply Rabs_right; lra |].
    split; [split; [reflexivity | intros _; exact Hpositive] |].
    split; lra.
  - replace (-10 * / 10 * r) with (- r) by lra.
    split; [rewrite Rabs_Ropp; apply Rabs_right; lra |].
    split; [split; [intros H; lra | intros H; discriminate H] |].
    split; lra.
Qed.

End StandardCoefficients.

(** ** The square wavetable *)

Section SquareWavetable.

Context {N : Type} {ops : NumberOps N} {E : ExactNumber N}.
Variable PARTIALS : Z.
Variable Math_PI : N.
Variable Math_sin : N -> N.
Variable negate : N -> N.
Variable c : Wavetable.Consts (N:=N).

Import Wavetable StandardWavetables.
#[local] Open Scope R_scope.

Notation coefficients_at := (StandardWavetables.coefficients_at Math_PI Math_sin negate).
Notation square_coefficients :=
  (StandardWavetables.square_coefficients PARTIALS Math_PI Math_sin negate).

Lemma odd_square_coefficient (i : Z) :
  Z.odd i = true -> val (square (coefficients_at i)) = 0.
Proof.
  intros Hodd. unfold StandardWavetables.coefficients_at. cbv zeta.
  cbn [square]. rewrite parity_test, Hodd.
  rewrite val_mul, val_add, val_ofZ, val_lit. unfold Q2R. simpl. lra.
Qed.

Lemma nth_error_square_coefficients (i : nat) (coefficient : N) :
  nth_error square_coefficients i = Some coefficient ->
  coefficient = square (coefficients_at (Z.of_nat i)).
Proof.
  unfold StandardWavetables.square_coefficients, indices.
  rewrite !nth_error_map, nth_error_seq.
  destruct (i <? Z.to_nat PARTIALS)%nat; [| discriminate].
  cbn [option_map]. intros H. injection H as <-. reflexivity.
Qed.

(** X28.  In exact arithmetic: in the square wavetable, as the constructor
    builds it from the square coefficients and normalizes it by a peak other
    than zero, every table of odd index [i + 1] holds the values of the
    table [i].  The partial that it would add, an even harmonic, has the
    coefficient [(1 + -1) * 2 / ((i + 2) * PI)], which is zero. *)
Theorem square_tables_pair_up (wt : Wavetable) (i j : nat)
    (lower upper : list N) (below above : N) :
  square_wt PARTIALS Math_PI Math_sin negate c = Some wt ->
  val (peak true (tables c square_coefficients)) <> 0 ->
  Z.odd (Z.of_nat (S i)) = true ->
  nth_error (samples wt) i = Some lower ->
  nth_error (samples wt) (S i) = Some upper ->
  nth_error lower j = Some below ->
  nth_error upper j = Some above ->
  val above = val below.
Proof.
  intros Hmake Hpeak Hodd Hlower Hupper Hbelow Habove.
  unfold square_wt in Hmake.
  destruct (nth_error square_coefficients (S i)) as [next |] eqn:Hnext.
  - apply (zero_partial_repeats_table c square_coefficients wt i j next
             lower upper below above Hmake Hpeak Hnext); try assumption.
    rewrite (nth_error_square_coefficients (S i) next Hnext).
    apply odd_square_coefficient, Hodd.
  - exfalso. apply nth_error_None in Hnext.
    pose proof (make_nonempty c square_coefficients wt Hmake) as Hnonempty.
    rewrite (make_defined c square_coefficients Hnonempty) in Hmake.
    injection Hmake as Hwt.
    assert (Hsome : nth_error (samples wt) (S i) <> None) by congruence.
    apply nth_error_Some in Hsome.
    rewrite <- Hwt in Hsome. cbn [samples] in Hsome.
    rewrite length_map, (proj1 (tables_shape c square_coefficients)) in Hsome.
    lia.
Qed.

End SquareWavetable.

(** X27: the witness.  The square coefficient at the index 1 is zero. *)
Lemma standard_coefficients_witness :
  Q2R (StandardWavetables.square
         (StandardWavetables.coefficients_at StandardInputs.exact_PI
            StandardInputs.exact_sin Qopp 1))
  = 0%R.
Proof.
  refine (proj2 (proj2 (proj2
            (standard_coefficients StandardInputs.exact_PI StandardInputs.exact_sin
               Qopp _ _ 1 _)))).
  - cbn [val Exact_is_exact]. unfold Q2R. simpl. lra.
  - intros x. cbn [val Exact_is_exact]. apply Q2R_opp.
  - lia.
Defined.

Lemma exact_square_peak_nonzero :
  val (Wavetable.peak true
         (Wavetable.tables Inputs.exact_consts
            (StandardWavetables.square_coefficients 4 StandardInputs.exact_PI
               StandardInputs.exact_sin Qopp)))
  <> 0%R.
Proof.
  set (p := Wavetable.peak true _). vm_compute in p. subst p.
  cbn [val Exact_is_exact]. unfold Q2R; simpl. lra.
Qed.

(** X28: the witness.  With four partials on tables of four samples, the
    sample 1 of the table 1 is the sample 1 of the table 0. *)
Lemma square_tables_pair_up_witness :
  Q2R (nth 1 (nth 1 (Wavetable.samples StandardInputs.exact_square) []) 0%Q)
  = Q2R (nth 1 (nth 0 (Wavetable.samples StandardInputs.exact_square) []) 0%Q).
Proof.
  refine (square_tables_pair_up 4 StandardInputs.exact_PI StandardInputs.exact_sin
            Qopp Inputs.exact_consts StandardInputs.exact_square 0 1
            (nth 0 (Wavetable.samples StandardInputs.exact_square) [])
            (nth 1 (Wavetable.samples StandardInputs.exact_square) [])
            (nth 1 (nth 0 (Wavetable.samples StandardInputs.exact_square) []) 0%Q)
            (nth 1 (nth 1 (Wavetable.samples StandardInputs.exact_square) []) 0%Q)
            _ exact_square_peak_nonzero _ _ _ _ _);
    vm_compute; reflexivity.
Defined.

(** X24: the witness.  The voice that plays the note 60, in the tuning 0
    that is not an inaccurate one, with its own inaccuracy. *)
Lemma unstable_frequency_ramp_duration_witness :
  let v' :=
    VoiceFrequency.update_unstable_note_frequency Inputs.exact_env
      StandardInputs.never_close false StandardInputs.exact_oscillator
      Inputs.exact_voice_on 3 in
  Voice.state v' = Voice.state Inputs.exact_voice_on
  /\ (Voice.calls v' = Voice.calls Inputs.exact_voice_on
      \/ exists duration frequency,
           Voice.calls v'
           = Voice.calls Inputs.exact_voice_on
             ++ [Voice.cancel_events_at Voice.oscillator_frequency (nlit 0.0);
                 Voice.schedule_linear_ramp Voice.oscillator_frequency duration
                   frequency]
           /\ (0.47 <= Q2R duration <= 2)%R).
Proof.
  cbv zeta.
  destruct (unstable_frequency_ramp_duration Inputs.exact_env
              StandardInputs.never_close false StandardInputs.exact_oscillator
              Inputs.exact_voice_on 3 (exact_randomize_unit false)
              ltac:(intros H; discriminate H))
    as (Hstate & _ & _ & _ & Hcalls & _).
  split; [exact Hstate |].
  destruct Hcalls as [Hsame | (duration & frequency & Hramp & Hrange & _)].
  - left. exact Hsame.
  - right. exists duration, frequency. split; [exact Hramp | exact Hrange].
Defined.

(** ** Importing a program *)

Section ProgramImported.

Variable NAME_MAX_LENGTH : Z.
Variable char_is_signed : bool.
Variable parse_section_name : Bank.text -> option Bank.text.
Variable is_js80p_section_start : Bank.text -> bool.
Variable parse_line_until_value : Bank.text -> option (Bank.text * Bank.text * Bank.text).
Variable skipping_remaining_whitespace_or_comment : Bank.text -> Bank.text.

Hypothesis name_length : (20 <= NAME_MAX_LENGTH)%Z.

Import Bank Bank.Literals ProgramImport.

Notation scan :=
  (ProgramImport.scan parse_section_name is_js80p_section_start
     parse_line_until_value skipping_remaining_whitespace_or_comment).
Notation name_value :=
  (ProgramImport.name_value parse_line_until_value
     skipping_remaining_whitespace_or_comment).
Notation given_name :=
  (ProgramImport.given_name parse_line_until_value
     skipping_remaining_whitespace_or_comment).
Notation kept_params :=
  (ProgramImport.kept_params parse_line_until_value
     skipping_remaining_whitespace_or_comment).
Notation section_body := (ProgramImport.section_body parse_section_name).
Notation after_section := (ProgramImport.after_section parse_section_name).
Notation after_section_start :=
  (ProgramImport.after_section_start parse_section_name is_js80p_section_start).
Notation import :=
  (ProgramImport.import NAME_MAX_LENGTH char_is_signed parse_section_name
     is_js80p_section_start parse_line_until_value
     skipping_remaining_whitespace_or_comment).

Notation last_name :=
  (ProgramImport.last_name parse_line_until_value
     skipping_remaining_whitespace_or_comment).

Lemma last_name_found (body : list text) (found : option text) :
  last_name body found
  = match given_name body with
    | Some value => Some value
    | None => found
    end.
Proof.
  unfold ProgramImport.given_name.
  revert found. induction body as [| line rest IH]; intros found.
  - reflexivity.
  - unfold ProgramImport.last_name. cbn [fold_left].
    fold (last_name rest None).
    destruct (name_value line) as [value |].
    + fold (last_name rest (Some value)). rewrite (IH (Some value)).
      destruct (last_name rest None); reflexivity.
    + fold (last_name rest found). apply IH.
Qed.

Lemma given_name_cons (line : text) (body : list text) :
  given_name (line :: body)
  = match name_value line with
    | Some value => last_name body (Some value)
    | None => given_name body
    end.
Proof.
  unfold ProgramImport.given_name, ProgramImport.last_name. cbn [fold_left].
  destruct (name_value line); reflexivity.
Qed.

Lemma kept_params_cons (line : text) (body : list text) :
  kept_params (line :: body)
  = match name_value line with
    | Some _ => kept_params body
    | None => line ++ [CR; LF] ++ kept_params body
    end.
Proof.
  unfold ProgramImport.kept_params. cbn [filter].
  destruct (name_value line); [reflexivity |].
  cbn [map concat]. rewrite <- app_assoc. reflexivity.
Qed.

Lemma scan_in_section (lines : list text) :
  forall s : Scan,
    is_js80p_section s = true ->
    scan lines s
    = ({| program_name := match given_name (section_body lines) with
                          | Some value => value
                          | None => program_name s
                          end;
          serialized_params := serialized_params s ++ kept_params (section_body lines);
          is_js80p_section := true;
          found_program_name :=
            found_program_name s
            || match given_name (section_body lines) with
               | Some _ => true
               | None => false
               end |},
       after_section lines).
Proof.
  induction lines as [| line rest IH]; intros s Hsection.
  - cbn. rewrite app_nil_r, orb_false_r, <- Hsection. destruct s; reflexivity.
  - cbn [ProgramImport.scan ProgramImport.section_body ProgramImport.after_section].
    unfold is_header.
    destruct (parse_section_name line) as [section_name |].
    + rewrite Hsection. cbn. rewrite app_nil_r, orb_false_r, <- Hsection.
      destruct s; reflexivity.
    + rewrite Hsection, given_name_cons, kept_params_cons.
      destruct (name_value line) as [value |] eqn:Hvalue.
      * rewrite IH by reflexivity.
        cbn [program_name serialized_params found_program_name].
        rewrite (last_name_found (section_body rest) (Some value)).
        destruct (given_name (section_body rest)); cbn [orb];
          rewrite orb_true_r; reflexivity.
      * rewrite IH by reflexivity.
        cbn [program_name serialized_params found_program_name].
        rewrite <- !app_assoc. reflexivity.
Qed.

Lemma scan_before_section (lines : list text) (found : bool) :
  scan lines {| program_name := []; serialized_params := [];
                is_js80p_section := false; found_program_name := found |}
  = match after_section_start lines with
    | None =>
        ({| program_name := []; serialized_params := [];
            is_js80p_section := false; found_program_name := found |}, [])
    | Some after =>
        scan after {| program_name := []; serialized_params := [];
                      is_js80p_section := true; found_program_name := found |}
    end.
Proof.
  induction lines as [| line rest IH].
  - reflexivity.
  - cbn [ProgramImport.scan ProgramImport.after_section_start is_js80p_section
         found_program_name].
    unfold starts_js80p_section.
    destruct (parse_section_name line) as [section_name |]; [| exact IH].
    destruct (is_js80p_section_start section_name); [reflexivity | exact IH].
Qed.

(** X29.  With [NAME_MAX_LENGTH >= 20], [Program::import(it, end)] reads the
    first js80p section of the lines and nothing else.  The lines before the
    header of that section are ignored; the lines after it, up to the next
    section header, are stored after the program's header, each followed by
    a line break, except the [NAME] lines; the value of the last [NAME]
    line is sanitized into the name, and without such a line the name is
    kept.  The iterator is left at the next section header or at the end.
    Without a js80p section the program becomes blank and its name is what
    [sanitize] makes of the empty name. *)
Theorem import_reads_first_section (p : Program) (lines : list text) :
  exists p',
    fst (import p lines) = Some p'
    /\ default_name p' = default_name p
    /\ match after_section_start lines with
       | Some after =>
           serialize p' = header (get_name p') ++ kept_params (section_body after)
           /\ params p' = kept_params (section_body after)
           /\ match given_name (section_body after) with
              | Some value =>
                  sanitize NAME_MAX_LENGTH char_is_signed (default_name p) value
                  = Some (get_name p')
              | None => get_name p' = get_name p
              end
           /\ snd (import p lines) = after_section after
       | None =>
           serialize p' = header (get_name p')
           /\ is_blank p' = true
           /\ sanitize NAME_MAX_LENGTH char_is_signed (default_name p) []
              = Some (get_name p')
           /\ snd (import p lines) = []
       end.
Proof.
  assert (Hupdate : forall q text,
             update (with_serialized q text)
             = Some {| name := name q; default_name := default_name q;
                       serialized := header (name q) ++ text;
                       params_start := length (header (name q)) |}).
  { intros q text. unfold update, with_serialized.
    cbn [name Bank.default_name serialized params_start].
    rewrite substr_defined by lia. reflexivity. }
  unfold ProgramImport.import, ProgramImport.import_without_update.
  unfold initial. rewrite scan_before_section.
  destruct (after_section_start lines) as [after |].
  - rewrite scan_in_section by reflexivity.
    cbn [is_js80p_section found_program_name program_name serialized_params
         orb app].
    destruct (given_name (section_body after)) as [value |].
    + unfold set_name_without_update.
      destruct (sanitize_gives_clean_name_or_default NAME_MAX_LENGTH char_is_signed
                  name_length (default_name p) value)
        as (sanitized & Hsanitized & _).
      rewrite Hsanitized. cbn [Wavetable.bind fst snd]. rewrite Hupdate.
      eexists. split; [reflexivity |].
      unfold serialize, params, get_name.
      cbn [name Bank.default_name serialized params_start].
      rewrite skipn_header. repeat split; reflexivity.
    + cbn [Wavetable.bind fst snd]. rewrite Hupdate.
      eexists. split; [reflexivity |].
      unfold serialize, params, get_name.
      cbn [name Bank.default_name serialized params_start].
      rewrite skipn_header. repeat split; reflexivity.
  - cbn [is_js80p_section]. unfold set_name_without_update.
    destruct (sanitize_gives_clean_name_or_default NAME_MAX_LENGTH char_is_signed
                name_length (default_name p) [])
      as (sanitized & Hsanitized & _).
    rewrite Hsanitized. cbn [Wavetable.bind fst snd]. rewrite Hupdate.
    eexists. split; [reflexivity |].
    unfold serialize, is_blank, get_name.
    cbn [name Bank.default_name serialized params_start].
    rewrite app_nil_r. split; [reflexivity |]. split; [reflexivity |].
    split; [apply Nat.eqb_refl |]. split; reflexivity.
Qed.

End ProgramImported.

(** X29: the witness.  A patch of one section is imported into the stored
    program: its name becomes Saw, and the iterator stops at the header of
    the next section. *)
Lemma import_reads_first_section_witness :
  exists p',
    fst (ProgramImport.import 24 true ImportInputs.parse_section_name
           ImportInputs.is_js80p_section_start ImportInputs.parse_line_until_value
           ImportInputs.skipping_remaining_whitespace_or_comment
           BankInputs.stored_program ImportInputs.patch) = Some p'
    /\ Bank.default_name p' = Bank.default_name BankInputs.stored_program.
Proof.
  destruct (import_reads_first_section 24 true ImportInputs.parse_section_name
              ImportInputs.is_js80p_section_start ImportInputs.parse_line_until_value
              ImportInputs.skipping_remaining_whitespace_or_comment
              ltac:(lia) BankInputs.stored_program ImportInputs.patch)
    as (p' & Himport & Hdefault & _).
  exists p'. split; [exact Himport | exact Hdefault].
Defined.
